(** * 007pinball: the real-time simulation backbone

    A shallow embedding of four source files of the repository, the
    properties its specification states about them and further properties
    of the same code:

    - [GameLoop]     : src/core/GameLoop.js, the fixed-timestep scheduler;
    - [StateMachine] : src/core/StateMachine.js, the hierarchical state machine;
    - [Physics]      : physics/PhysicsEngine.js, balls, flippers and the
                       collision resolver (with the constants it reads from
                       config/HardwareConfig.js and physics/CollisionSystem.js);
    - [EventBus]     : src/core/EventBus.js, the publish/subscribe bus.

    JavaScript objects that are shared and mutated (state nodes, balls) live
    in an explicit store and are referred to by address.  User code that the
    core calls (scheduler callbacks, state hooks, event-bus listeners) is not
    part of the core: the calls made to it are recorded as a trace.

    Numbers, those of the scheduler as well as those of the physics engine,
    are IEEE 754 binary64 values, the number type of JavaScript, so that
    what the code computes, rounding and NaN included, is what the embedding
    computes.  [Binary64] relates the primitive operations to the integers:
    it is what the bounds on the scheduler rest on.

    Loops and walks over pointers take fuel and return [None] when it runs
    out; a result is stated as [Some], with the fuel that gives it. *)

From Stdlib Require Import PrimFloat ZArith Lia Floats.
From stdpp Require Import gmap strings list.

Set Warnings "-inexact-float".

(* ===================================================================== *)
(** * Binary64 arithmetic, by the integers *)
(* ===================================================================== *)

Module Binary64.

Local Open Scope Z_scope.

(** Values are counted in units of 2^-1074, the smallest positive binary64
    number: every finite binary64 number is an integer number of units. *)

(** The least number of units that no finite binary64 number reaches. *)
Definition top : Z := 2 ^ 2098.

(** Rounding to nearest, ties to even, of the quotient [N / D] of two
    integers, [0 <= N] and [0 < D], to 53 significant bits and no less than
    one unit. *)
Definition rndQ (N D : Z) : Z :=
  let s := Z.max (Z.log2 (N / D) - 52) 0 in
  let G := D * 2 ^ s in
  let q := N / G in
  let r := N mod G in
  (if (G <? 2 * r) || ((2 * r =? G) && Z.odd q) then q + 1 else q) * 2 ^ s.

Lemma pow2_pos (n : Z) : 0 <= n -> 0 < 2 ^ n.
Proof. intros H. apply Z.pow_pos_nonneg; lia. Qed.

Lemma log2_bounds (v : Z) :
  0 < v -> 2 ^ Z.log2 v <= v < 2 ^ (Z.log2 v + 1).
Proof. intros H. pose proof (Z.log2_spec v H). unfold Z.succ in *. lia. Qed.

(** The pieces of [rndQ]. *)
Lemma rndQ_parts (N D : Z) :
  0 <= N -> 0 < D ->
  let s := Z.max (Z.log2 (N / D) - 52) 0 in
  let G := D * 2 ^ s in
  let q := N / G in
  let r := N mod G in
  0 <= s /\ 0 < G /\ N = q * G + r /\ 0 <= r < G /\ 0 <= q /\
  (s = 0 -> q < 2 ^ 53) /\
  (0 < s -> 2 ^ 52 <= q < 2 ^ 53) /\
  (rndQ N D = q * 2 ^ s \/ rndQ N D = (q + 1) * 2 ^ s).
Proof.
  intros HN HD s G q r.
  assert (Hs : 0 <= s) by (unfold s; lia).
  assert (Hp : 0 < 2 ^ s) by (apply pow2_pos; exact Hs).
  assert (HG : 0 < G) by (unfold G; nia).
  assert (Hdm : N = q * G + r /\ 0 <= r < G).
  { unfold q, r. pose proof (Z.div_mod N G ltac:(lia)).
    pose proof (Z.mod_pos_bound N G HG). lia. }
  assert (Hq : 0 <= q) by (unfold q; apply Z.div_pos; lia).
  assert (Hv : 0 <= N / D) by (apply Z.div_pos; lia).
  assert (Hqv : q = (N / D) / 2 ^ s).
  { unfold q, G. rewrite Z.div_div by lia. reflexivity. }
  split; [exact Hs|]. split; [exact HG|]. split; [tauto|].
  split; [tauto|]. split; [exact Hq|]. split; [|split].
  - intros Hs0.
    assert (Hl : Z.log2 (N / D) <= 52) by (unfold s in Hs0; lia).
    rewrite Hqv, Hs0, Z.pow_0_r, Z.div_1_r.
    destruct (Z.eq_dec (N / D) 0) as [->|Hne]; [reflexivity|].
    pose proof (log2_bounds (N / D) ltac:(lia)) as [_ Hhi].
    assert (2 ^ (Z.log2 (N / D) + 1) <= 2 ^ 53)
      by (apply Z.pow_le_mono_r; lia).
    lia.
  - intros Hs0.
    assert (Hl : Z.log2 (N / D) = s + 52) by (unfold s in *; lia).
    assert (Hvpos : 0 < N / D).
    { destruct (Z.eq_dec (N / D) 0) as [E|E]; [|lia].
      rewrite E in Hl. simpl in Hl. lia. }
    pose proof (log2_bounds (N / D) Hvpos) as [Hlo Hhi].
    rewrite Hl in Hlo, Hhi.
    replace (s + 52) with (52 + s) in Hlo by lia.
    replace (s + 52 + 1) with (53 + s) in Hhi by lia.
    rewrite Z.pow_add_r in Hlo, Hhi by lia.
    rewrite Hqv. split.
    + apply Z.div_le_lower_bound; lia.
    + apply Z.div_lt_upper_bound; lia.
  - unfold rndQ. fold s. fold G. fold q. fold r.
    destruct (_ || _); [right|left]; reflexivity.
Qed.

(** [rndQ] never goes down when the numerator goes up. *)
Lemma rndQ_mono (N1 N2 D : Z) :
  0 <= N1 -> N1 <= N2 -> 0 < D -> rndQ N1 D <= rndQ N2 D.
Proof.
  intros H1 H12 HD.
  pose proof (rndQ_parts N1 D H1 HD) as P1.
  pose proof (rndQ_parts N2 D ltac:(lia) HD) as P2.
  cbv zeta in P1, P2.
  assert (Hv : N1 / D <= N2 / D) by (apply Z.div_le_mono; lia).
  assert (Hl : Z.log2 (N1 / D) <= Z.log2 (N2 / D))
    by (apply Z.log2_le_mono; exact Hv).
  unfold rndQ.
  set (s1 := Z.max (Z.log2 (N1 / D) - 52) 0) in *.
  set (s2 := Z.max (Z.log2 (N2 / D) - 52) 0) in *.
  set (G1 := D * 2 ^ s1) in *. set (G2 := D * 2 ^ s2) in *.
  set (q1 := N1 / G1) in *. set (q2 := N2 / G2) in *.
  set (r1 := N1 mod G1) in *. set (r2 := N2 mod G2) in *.
  destruct P1 as (Hs1 & HG1 & E1 & Hr1 & Hq1 & Hz1 & Hn1 & _).
  destruct P2 as (Hs2 & HG2 & E2 & Hr2 & Hq2 & Hz2 & Hn2 & _).
  assert (Hs12 : s1 <= s2) by (unfold s1, s2; lia).
  assert (Hp1 : 0 < 2 ^ s1) by (apply pow2_pos; lia).
  assert (Hp2 : 0 < 2 ^ s2) by (apply pow2_pos; lia).
  destruct (Z.eq_dec s1 s2) as [Hs|Hs].
  - assert (HG : G1 = G2) by (unfold G1, G2; rewrite Hs; reflexivity).
    rewrite <- Hs. rewrite <- HG in *.
    assert (Hq12 : q1 <= q2) by (unfold q1, q2; rewrite <- HG;
                                 apply Z.div_le_mono; lia).
    destruct (Z.eq_dec q1 q2) as [Hq|Hq].
    + rewrite <- Hq in *.
      assert (Hr12 : r1 <= r2) by nia.
      destruct (G1 <? 2 * r1) eqn:A1; destruct (2 * r1 =? G1) eqn:B1;
        destruct (G1 <? 2 * r2) eqn:A2; destruct (2 * r2 =? G1) eqn:B2;
        destruct (Z.odd q1); simpl; try lia; try nia.
    + assert (q1 + 1 <= q2) by lia.
      destruct (_ || _); destruct (_ || _); nia.
  - assert (Hlt : s1 < s2) by lia.
    assert (H2 : 2 ^ 52 <= q2 < 2 ^ 53) by (apply Hn2; lia).
    assert (Hup : (q1 + 1) * 2 ^ s1 <= 2 ^ 52 * 2 ^ s2).
    { assert (Hq1' : q1 + 1 <= 2 ^ 53).
      { destruct (Z.eq_dec s1 0) as [Z0|NZ0];
          [pose proof (Hz1 Z0)|pose proof (Hn1 ltac:(lia))]; lia. }
      assert (Hpow : 2 ^ 53 * 2 ^ s1 <= 2 ^ 52 * 2 ^ s2).
      { rewrite <- !Z.pow_add_r by lia. apply Z.pow_le_mono_r; lia. }
      nia. }
    destruct (_ || _); destruct (_ || _); nia.
Qed.

(** * The reference implementation of rounding *)

Definition fexp64 (e : Z) : Z := Z.max (e - 53) (-1074).

Lemma fexp_eq (e : Z) : SpecFloat.fexp prec emax e = fexp64 e.
Proof. reflexivity. Qed.

Lemma digits2_pos_bounds (m : positive) :
  2 ^ (Z.pos (digits2_pos m) - 1) <= Z.pos m < 2 ^ Z.pos (digits2_pos m).
Proof.
  induction m as [p IH|p IH|]; simpl digits2_pos.
  - rewrite Pos2Z.inj_succ. change (Z.pos p~1) with (2 * Z.pos p + 1). unfold Z.succ.
    replace (Z.pos (digits2_pos p) + 1 - 1) with (Z.succ (Z.pos (digits2_pos p) - 1)) by lia.
    replace (Z.pos (digits2_pos p) + 1) with (Z.succ (Z.pos (digits2_pos p))) by lia.
    rewrite !Z.pow_succ_r by lia.
    generalize dependent (2 ^ (Z.pos (digits2_pos p) - 1)).
    generalize dependent (2 ^ Z.pos (digits2_pos p)). intros; lia.
  - rewrite Pos2Z.inj_succ. change (Z.pos p~0) with (2 * Z.pos p). unfold Z.succ.
    replace (Z.pos (digits2_pos p) + 1 - 1) with (Z.succ (Z.pos (digits2_pos p) - 1)) by lia.
    replace (Z.pos (digits2_pos p) + 1) with (Z.succ (Z.pos (digits2_pos p))) by lia.
    rewrite !Z.pow_succ_r by lia.
    generalize dependent (2 ^ (Z.pos (digits2_pos p) - 1)).
    generalize dependent (2 ^ Z.pos (digits2_pos p)). intros; lia.
  - simpl. lia.
Qed.

Lemma Zdigits2_bounds (m : Z) :
  0 < m -> 0 < Zdigits2 m /\ 2 ^ (Zdigits2 m - 1) <= m < 2 ^ Zdigits2 m.
Proof.
  destruct m as [|p|p]; try lia. intros _. simpl Zdigits2.
  split; [lia|apply digits2_pos_bounds].
Qed.

Lemma Zdigits2_unique (m d : Z) :
  0 < d -> 2 ^ (d - 1) <= m < 2 ^ d -> Zdigits2 m = d.
Proof.
  intros Hd Hm.
  assert (Hpos : 0 < m) by (pose proof (pow2_pos (d - 1)); lia).
  destruct (Zdigits2_bounds m Hpos) as [Hd' Hm'].
  destruct (Z.lt_trichotomy (Zdigits2 m) d) as [H|[H|H]].
  - assert (2 ^ Zdigits2 m <= 2 ^ (d - 1)) by (apply Z.pow_le_mono_r; lia). lia.
  - exact H.
  - assert (2 ^ d <= 2 ^ (Zdigits2 m - 1)) by (apply Z.pow_le_mono_r; lia). lia.
Qed.

Lemma Zdigits2_log2 (m : Z) : 0 < m -> Zdigits2 m = Z.log2 m + 1.
Proof.
  intros H. apply Zdigits2_unique.
  - pose proof (Z.log2_nonneg m). lia.
  - pose proof (log2_bounds m H). replace (Z.log2 m + 1 - 1) with (Z.log2 m) by lia. lia.
Qed.

(** Where a remainder [R] lies in a step of width [D]. *)
Definition locates (l : location) (R D : Z) : Prop :=
  match l with
  | loc_Exact => R = 0
  | loc_Inexact Lt => 0 < R /\ 2 * R < D
  | loc_Inexact Eq => 2 * R = D
  | loc_Inexact Gt => D < 2 * R
  end.

Lemma shr_1_spec (m : Z) (r s : bool) (R D : Z) :
  0 <= m -> 0 <= R < D ->
  locates (loc_of_shr_record {| shr_m := m; shr_r := r; shr_s := s |}) R D ->
  let mrs := shr_1 {| shr_m := m; shr_r := r; shr_s := s |} in
  let R' := Z.b2z (Z.odd m) * D + R in
  shr_m mrs = Z.div2 m /\ 0 <= R' < 2 * D /\
  locates (loc_of_shr_record mrs) R' (2 * D).
Proof.
  intros Hm HR Hl.
  destruct m as [|p|p]; [| |lia].
  - destruct r, s; simpl in *; lia.
  - destruct p; destruct r, s; simpl in *; lia.
Qed.

Lemma shr_iter (n : nat) (mrs : shr_record) (R D : Z) :
  0 <= shr_m mrs -> 0 <= R < D -> locates (loc_of_shr_record mrs) R D ->
  let mrs' := Nat.iter n shr_1 mrs in
  exists R', 0 <= shr_m mrs' /\
    shr_m mrs * D + R = shr_m mrs' * (D * 2 ^ Z.of_nat n) + R' /\
    0 <= R' < D * 2 ^ Z.of_nat n /\
    locates (loc_of_shr_record mrs') R' (D * 2 ^ Z.of_nat n).
Proof.
  intros Hm HR Hl. induction n as [|n IH].
  - exists R. simpl. rewrite Z.mul_1_r. repeat split; try lia. exact Hl.
  - cbv zeta in *. destruct IH as (R1 & Hq & E & HR1 & Hl1).
    rewrite Nat.iter_succ.
    destruct (Nat.iter n shr_1 mrs) as [q r s].
    change (shr_m {| shr_m := q; shr_r := r; shr_s := s |}) with q in Hq, E.
    destruct (shr_1_spec q r s R1 _ Hq HR1 Hl1) as (Em & HR2 & Hl2).
    exists (Z.b2z (Z.odd q) * (D * 2 ^ Z.of_nat n) + R1).
    rewrite Nat2Z.inj_succ, Z.pow_succ_r by lia.
    replace (D * (2 * 2 ^ Z.of_nat n)) with (2 * (D * 2 ^ Z.of_nat n)) by lia.
    rewrite Em. pose proof (Z.div2_odd q) as Eo.
    split; [|split; [|split]].
    + destruct (Z.odd q); simpl Z.b2z in Eo; lia.
    + rewrite E. rewrite Eo at 1. lia.
    + exact HR2.
    + exact Hl2.
Qed.

Lemma iter_pos_nat {A : Type} (f : A -> A) (p : positive) (x : A) :
  @SpecFloat.iter_pos A f p x = Nat.iter (Pos.to_nat p) f x.
Proof.
  revert x. induction p as [p IH|p IH|]; intros x; simpl SpecFloat.iter_pos.
  - rewrite !IH. rewrite Pos2Nat.inj_xI.
    replace (S (2 * Pos.to_nat p))%nat with (Pos.to_nat p + (Pos.to_nat p + 1))%nat by lia.
    rewrite !Nat.iter_add. simpl. reflexivity.
  - rewrite !IH. rewrite Pos2Nat.inj_xO.
    replace (2 * Pos.to_nat p)%nat with (Pos.to_nat p + Pos.to_nat p)%nat by lia.
    rewrite Nat.iter_add. reflexivity.
  - reflexivity.
Qed.

Lemma shr_nat (mrs : shr_record) (e n : Z) :
  0 <= n -> shr mrs e n = (Nat.iter (Z.to_nat n) shr_1 mrs, e + n).
Proof.
  intros Hn. destruct n as [|p|p]; [| |lia].
  - simpl. rewrite Z.add_0_r. reflexivity.
  - unfold shr. rewrite iter_pos_nat. reflexivity.
Qed.

Lemma shr_nonpos (mrs : shr_record) (e n : Z) :
  n <= 0 -> shr mrs e n = (mrs, e).
Proof. intros Hn. destruct n as [|p|p]; [reflexivity|lia|reflexivity]. Qed.

Lemma loc_of_record_of_loc (m : Z) (l : location) :
  loc_of_shr_record (shr_record_of_loc m l) = l /\
  shr_m (shr_record_of_loc m l) = m.
Proof. destruct l as [|[]]; split; reflexivity. Qed.

Lemma round_nearest_even_spec (q : Z) (l : location) (R D : Z) :
  0 <= R < D -> locates l R D ->
  round_nearest_even q l
  = if (D <? 2 * R) || ((2 * R =? D) && Z.odd q) then q + 1 else q.
Proof.
  intros HR Hl. rewrite <- Z.negb_even.
  destruct l as [|[]]; simpl in *.
  - subst R. destruct (D <? 2 * 0) eqn:A; [lia|].
    destruct (2 * 0 =? D) eqn:B; [lia|]. reflexivity.
  - destruct (D <? 2 * R) eqn:A; [lia|]. rewrite Hl, Z.eqb_refl. simpl.
    destruct (Z.even q); reflexivity.
  - destruct (D <? 2 * R) eqn:A; [lia|].
    destruct (2 * R =? D) eqn:B; [lia|]. reflexivity.
  - destruct (D <? 2 * R) eqn:A; [|lia]. reflexivity.
Qed.

(** What a rounding of the value [v] (in units) with sign [s] returns. *)
Inductive rounds (s : bool) (v : Z) (res : spec_float) : Prop :=
| rounds_zero : v = 0 -> res = S754_zero s -> rounds s v res
| rounds_finite (m : positive) (e : Z) :
    0 < v < top -> res = S754_finite s m e -> -1074 <= e ->
    Z.pos m * 2 ^ (e + 1074) = v -> rounds s v res
| rounds_infinity : top <= v -> res = S754_infinity s -> rounds s v res.

Lemma Zdigits2_small (q : Z) :
  0 <= q < 2 ^ 53 -> Zdigits2 q <= 53.
Proof.
  intros Hq. destruct (Z.eq_dec q 0) as [->|Hne]; [simpl; lia|].
  destruct (Zdigits2_bounds q ltac:(lia)) as [Hd Hb].
  destruct (Z_le_gt_dec (Zdigits2 q) 53) as [H|H]; [exact H|].
  assert (2 ^ 53 <= 2 ^ (Zdigits2 q - 1)) by (apply Z.pow_le_mono_r; lia).
  lia.
Qed.

Lemma rndQ_scaled (N D q R' D' P s : Z) :
  0 < D -> 0 < P -> 0 <= s -> 0 <= q -> 0 <= R' < D' ->
  Z.max (Z.log2 (N / D) - 52) 0 = s ->
  D * 2 ^ s = D' * P -> N = (q * D' + R') * P ->
  rndQ N D
  = (if (D' <? 2 * R') || ((2 * R' =? D') && Z.odd q) then q + 1 else q) * 2 ^ s.
Proof.
  intros HD HP Hs Hq HR Es EG EN. unfold rndQ. rewrite Es, EG.
  assert (Eq : N / (D' * P) = q).
  { symmetry. apply (Z.div_unique_pos N (D' * P) q (R' * P)); nia. }
  assert (Er : N mod (D' * P) = R' * P).
  { symmetry. apply (Z.mod_unique_pos N (D' * P) q (R' * P)); nia. }
  rewrite Eq, Er.
  replace (D' * P <? 2 * (R' * P)) with (D' <? 2 * R').
  2:{ destruct (Z.ltb_spec D' (2 * R')); destruct (Z.ltb_spec (D' * P) (2 * (R' * P)));
      try reflexivity; nia. }
  replace (2 * (R' * P) =? D' * P) with (2 * R' =? D').
  2:{ destruct (Z.eqb_spec (2 * R') D'); destruct (Z.eqb_spec (2 * (R' * P)) (D' * P));
      try reflexivity; nia. }
  reflexivity.
Qed.

Lemma round_aux_spec (s : bool) (mx ex : Z) (lx : location) (R D : Z) :
  0 <= mx -> -1074 <= ex -> ex <= fexp64 (Zdigits2 mx + ex) ->
  0 <= R < D -> locates lx R D ->
  rounds s (rndQ ((mx * D + R) * 2 ^ (ex + 1074)) D)
         (binary_round_aux prec emax s mx ex lx).
Proof.
  intros Hmx Hex Hcan HR Hl.
  set (d := Zdigits2 mx) in *. set (e0 := fexp64 (d + ex)) in *.
  set (n := e0 - ex).
  assert (Hn : 0 <= n) by (unfold n; lia).
  assert (He0 : -1074 <= e0) by (unfold e0, fexp64; lia).
  set (P := 2 ^ (ex + 1074)).
  assert (HP : 0 < P) by (apply pow2_pos; lia).
  assert (Hpn : 0 < 2 ^ n) by (apply pow2_pos; lia).
  unfold binary_round_aux.
  assert (E1 : shr_fexp prec emax mx ex lx
               = (Nat.iter (Z.to_nat n) shr_1 (shr_record_of_loc mx lx), e0)).
  { unfold shr_fexp. rewrite fexp_eq. fold d. fold e0. fold n.
    rewrite shr_nat by exact Hn. f_equal. unfold n. lia. }
  rewrite E1. clear E1.
  destruct (loc_of_record_of_loc mx lx) as [El Em].
  destruct (shr_iter (Z.to_nat n) (shr_record_of_loc mx lx) R D)
    as (R' & Hq & E & HR' & Hl'); [rewrite Em; exact Hmx|exact HR|rewrite El; exact Hl|].
  cbv zeta in *. rewrite Em in E. rewrite Z2Nat.id in * by exact Hn.
  set (mrs' := Nat.iter (Z.to_nat n) shr_1 (shr_record_of_loc mx lx)) in *.
  set (q := shr_m mrs') in *. set (D' := D * 2 ^ n) in *.
  rewrite (round_nearest_even_spec q _ R' D' HR' Hl').
  set (q' := if (D' <? 2 * R') || ((2 * R' =? D') && Z.odd q) then q + 1 else q).
  assert (Hqq : q' = q \/ q' = q + 1) by (unfold q'; destruct (_ || _); tauto).
  (* the quotient against the mantissa *)
  assert (Hlo : q * 2 ^ n <= mx).
  { assert (q * 2 ^ n * D < (mx + 1) * D) by (unfold D' in *; nia). nia. }
  assert (Hhi : mx < (q + 1) * 2 ^ n).
  { assert (mx * D < (q + 1) * 2 ^ n * D) by (unfold D' in *; nia). nia. }
  assert (Hq53 : q < 2 ^ 53).
  { destruct (Z.eq_dec mx 0) as [Z0|NZ]; [nia|].
    destruct (Zdigits2_bounds mx ltac:(lia)) as [Hd [_ Hb]]. fold d in Hd, Hb.
    assert (2 ^ d <= 2 ^ (53 + n))
      by (apply Z.pow_le_mono_r; unfold n, e0, fexp64; lia).
    rewrite Z.pow_add_r in H by lia. nia. }
  assert (Hq52 : -1074 < e0 -> 2 ^ 52 <= q).
  { intros Hgt. assert (Hmpos : 0 < mx).
    { destruct (Z.eq_dec mx 0) as [Z0|NZ]; [|lia]. exfalso.
      unfold e0, d in Hgt, Hcan. rewrite Z0 in Hgt, Hcan. simpl Zdigits2 in *.
      unfold fexp64 in *. lia. }
    destruct (Zdigits2_bounds mx Hmpos) as [Hd [Hb _]]. fold d in Hd, Hb.
    assert (En : d - 1 = 52 + n) by (unfold n, e0, fexp64 in *; lia).
    rewrite En, Z.pow_add_r in Hb by lia. nia. }
  (* the value *)
  assert (Ev : rndQ ((mx * D + R) * P) D = q' * 2 ^ (e0 + 1074)).
  { apply (rndQ_scaled _ D q R' D' P (e0 + 1074)); try lia.
    - destruct (Z.eq_dec mx 0) as [Z0|NZ].
      + assert (ex = -1074).
        { unfold e0, d in Hcan. rewrite Z0 in Hcan. simpl Zdigits2 in Hcan.
          unfold fexp64 in Hcan. lia. }
        assert (e0 = -1074).
        { unfold e0, d. rewrite Z0. simpl Zdigits2. unfold fexp64. lia. }
        unfold P. subst ex. simpl (2 ^ _). rewrite Z0.
        rewrite Z.div_small by lia. simpl. lia.
      + destruct (Zdigits2_bounds mx ltac:(lia)) as [Hd [Hb1 Hb2]].
        fold d in Hd, Hb1, Hb2.
        assert (Hlog : Z.log2 ((mx * D + R) * P / D) = d - 1 + (ex + 1074)).
        { apply Z.log2_unique; [lia|]. unfold Z.succ.
          replace (d - 1 + (ex + 1074) + 1) with (d + (ex + 1074)) by lia.
          rewrite (Z.pow_add_r 2 (d - 1) (ex + 1074)),
            (Z.pow_add_r 2 d (ex + 1074)) by lia. fold P. split.
          - apply Z.div_le_lower_bound; [lia|].
            assert (2 ^ (d - 1) * P <= mx * P) by nia.
            assert (0 <= R * P) by nia.
            assert (D * (2 ^ (d - 1) * P) <= D * (mx * P))
              by (apply Z.mul_le_mono_nonneg_l; lia).
            lia.
          - apply Z.div_lt_upper_bound; [lia|].
            assert ((mx + 1) * P <= 2 ^ d * P) by nia.
            assert (R * P < D * P) by nia.
            assert (D * ((mx + 1) * P) <= D * (2 ^ d * P))
              by (apply Z.mul_le_mono_nonneg_l; lia).
            lia. }
        rewrite Hlog. unfold e0, fexp64. lia.
    - unfold D', P. replace (e0 + 1074) with (n + (ex + 1074)) by (unfold n; lia).
      rewrite Z.pow_add_r by lia. lia. }
  fold P. rewrite Ev.
  destruct (Z.eq_dec q' (2 ^ 53)) as [Hover|Hin].
  - rewrite Hover. unfold shr_fexp. rewrite fexp_eq.
    change (Zdigits2 (2 ^ 53)) with 54.
    replace (fexp64 (54 + e0) - e0) with 1 by (unfold fexp64; lia).
    change (shr (shr_record_of_loc (2 ^ 53) loc_Exact) e0 1)
      with ({| shr_m := 2 ^ 52; shr_r := false; shr_s := false |}, e0 + 1).
    cbv beta iota. change (shr_m _) with (2 ^ 52).
    change (2 ^ 52) with (Z.pos (2 ^ 52)%positive) at 1. cbv iota.
    change (emax - prec) with 971.
    assert (Epow : 2 ^ 53 * 2 ^ (e0 + 1074) = 2 ^ (e0 + 1127))
      by (rewrite <- Z.pow_add_r by lia; f_equal; lia).
    destruct (Z.leb_spec (e0 + 1) 971) as [Hle|Hgt].
    + apply (rounds_finite _ _ _ (2 ^ 52)%positive (e0 + 1)); try lia; try reflexivity.
      * rewrite Epow. unfold top. split; [apply pow2_pos; lia|].
        apply Z.pow_lt_mono_r; lia.
      * rewrite Epow. change (Z.pos (2 ^ 52)%positive) with (2 ^ 52).
        rewrite <- Z.pow_add_r by lia. f_equal. lia.
    + apply rounds_infinity; [|reflexivity].
      rewrite Epow. unfold top. apply Z.pow_le_mono_r; lia.
  - assert (Hq' : 0 <= q' < 2 ^ 53) by lia.
    unfold shr_fexp. rewrite fexp_eq.
    rewrite shr_nonpos.
    2:{ pose proof (Zdigits2_small q' Hq').
        destruct (Z.eq_dec q' 0) as [->|Hne]; [simpl Zdigits2; unfold fexp64; lia|].
        destruct (Zdigits2_bounds q' ltac:(lia)) as [Hd' _].
        unfold fexp64. lia. }
    cbv beta iota. destruct (loc_of_record_of_loc q' loc_Exact) as [_ ->].
    assert (Hp0 : 0 < 2 ^ (e0 + 1074)) by (apply pow2_pos; lia).
    destruct q' as [|m|m]; [| |lia].
    + apply rounds_zero; [lia|reflexivity].
    + change (emax - prec) with 971.
      destruct (Z.leb_spec e0 971) as [Hle|Hgt].
      * apply (rounds_finite _ _ _ m e0); try lia; try reflexivity.
        split; [lia|]. unfold top.
        assert (2 ^ (e0 + 1074) <= 2 ^ 2045) by (apply Z.pow_le_mono_r; lia).
        change (2 ^ 2098) with (2 ^ 53 * 2 ^ 2045). nia.
      * apply rounds_infinity; [|reflexivity].
        assert (2 ^ 52 <= q) by (apply Hq52; lia).
        assert (2 ^ 2046 <= 2 ^ (e0 + 1074)) by (apply Z.pow_le_mono_r; lia).
        unfold top. change (2 ^ 2098) with (2 ^ 52 * 2 ^ 2046). nia.
Qed.

(** * Values of binary64 numbers *)

(** The value of a number in units; the infinities sit at [top]. *)
Definition rank (x : spec_float) : Z :=
  match x with
  | S754_zero _ => 0
  | S754_infinity s => cond_Zopp s top
  | S754_nan => 0
  | S754_finite s m e => cond_Zopp s (Z.pos m * 2 ^ (e + 1074))
  end.

Definition nonnan (x : spec_float) : bool :=
  match x with S754_nan => false | _ => true end.

Definition finite (x : spec_float) : bool :=
  match x with S754_zero _ | S754_finite _ _ _ => true | _ => false end.

Definition valid (x : spec_float) : Prop := valid_binary x = true.

(** Rounding of a signed number of units. *)
Definition rndS (z : Z) : Z := if z <? 0 then - rndQ (- z) 1 else rndQ z 1.

(** Rounding with overflow to the infinities. *)
Definition round (z : Z) : Z := Z.max (- top) (Z.min top (rndS z)).

Lemma top_pos : 0 < top.
Proof. unfold top. apply pow2_pos. lia. Qed.

Lemma rndQ_nonneg (N D : Z) : 0 <= N -> 0 < D -> 0 <= rndQ N D.
Proof.
  intros HN HD. pose proof (rndQ_parts N D HN HD) as P. cbv zeta in P.
  destruct P as (Hs & _ & _ & _ & Hq & _ & _ & Hr).
  pose proof (pow2_pos _ Hs). destruct Hr as [-> | ->]; nia.
Qed.

Lemma rndQ_zero (D : Z) : 0 < D -> rndQ 0 D = 0.
Proof.
  intros HD. rewrite (rndQ_scaled 0 D 0 0 D 1 0); try lia.
  - destruct (Z.ltb_spec D (2 * 0)); [lia|].
    destruct (Z.eqb_spec (2 * 0) D); [lia|]. reflexivity.
  - rewrite Z.div_0_l by lia. reflexivity.
Qed.

Lemma rndS_mono (a b : Z) : a <= b -> rndS a <= rndS b.
Proof.
  intros H. unfold rndS.
  destruct (Z.ltb_spec a 0) as [Ha|Ha]; destruct (Z.ltb_spec b 0) as [Hb|Hb].
  - pose proof (rndQ_mono (- b) (- a) 1 ltac:(lia) ltac:(lia) ltac:(lia)). lia.
  - pose proof (rndQ_nonneg (- a) 1 ltac:(lia) ltac:(lia)).
    pose proof (rndQ_nonneg b 1 ltac:(lia) ltac:(lia)). lia.
  - lia.
  - apply rndQ_mono; lia.
Qed.

Lemma round_mono (a b : Z) : a <= b -> round a <= round b.
Proof. intros H. pose proof (rndS_mono a b H). unfold round. lia. Qed.

Lemma round_zero : round 0 = 0.
Proof.
  assert (E : rndS 0 = 0) by (apply (rndQ_zero 1); lia).
  unfold round. rewrite E. pose proof top_pos. lia.
Qed.

Lemma round_bounds (z : Z) : - top <= round z <= top.
Proof. pose proof top_pos. unfold round. lia. Qed.

Lemma round_nonneg (z : Z) : 0 <= z -> 0 <= round z.
Proof. intros H. rewrite <- round_zero. apply round_mono. exact H. Qed.

(** What validity says of a finite number. *)
Lemma valid_finite (s : bool) (m : positive) (e : Z) :
  valid (S754_finite s m e) ->
  -1074 <= e <= 971 /\ Z.pos m < 2 ^ 53 /\ (-1074 < e -> 2 ^ 52 <= Z.pos m) /\
  fexp64 (Zdigits2 (Z.pos m) + e) = e.
Proof.
  unfold valid, valid_binary, bounded, canonical_mantissa. intros H.
  apply andb_prop in H. destruct H as [Hc Hb].
  apply Z.eqb_eq in Hc. apply Z.leb_le in Hb. rewrite fexp_eq in Hc.
  change (emax - prec) with 971 in Hb.
  destruct (digits2_pos_bounds m) as [Hlo Hhi].
  set (d := Z.pos (digits2_pos m)) in *.
  assert (Hd : 0 < d) by (unfold d; lia).
  split; [unfold fexp64 in Hc; lia|]. split; [|split].
  - assert (2 ^ d <= 2 ^ 53) by (apply Z.pow_le_mono_r; unfold fexp64 in Hc; lia). lia.
  - intros He. assert (d = 53) by (unfold fexp64 in Hc; lia).
    assert (E : d - 1 = 52) by lia. rewrite E in Hlo. exact Hlo.
  - exact Hc.
Qed.

Lemma valid_rank_finite (s : bool) (m : positive) (e : Z) :
  valid (S754_finite s m e) -> 0 < Z.pos m * 2 ^ (e + 1074) < top.
Proof.
  intros H. destruct (valid_finite s m e H) as (He & Hm & _ & _).
  assert (0 < 2 ^ (e + 1074)) by (apply pow2_pos; lia).
  assert (2 ^ (e + 1074) <= 2 ^ 2045) by (apply Z.pow_le_mono_r; lia).
  unfold top. change (2 ^ 2098) with (2 ^ 53 * 2 ^ 2045). nia.
Qed.

Lemma rank_bounds (x : spec_float) : valid x -> - top <= rank x <= top.
Proof.
  intros H. pose proof top_pos. destruct x as [s|s| |s m e]; simpl; try lia.
  - destruct s; simpl; lia.
  - pose proof (valid_rank_finite s m e H). destruct s; simpl; lia.
Qed.

Lemma finite_rank (x : spec_float) :
  valid x -> nonnan x = true -> - top < rank x < top -> finite x = true.
Proof.
  intros H Hn Hr. destruct x as [s|s| |s m e]; try reflexivity; try discriminate.
  destruct s; simpl in Hr; lia.
Qed.

Lemma rank_finite (x : spec_float) :
  valid x -> finite x = true -> - top < rank x < top.
Proof.
  intros H Hf. pose proof top_pos. destruct x as [s|s| |s m e]; try discriminate.
  - simpl. lia.
  - pose proof (valid_rank_finite s m e H). destruct s; simpl; lia.
Qed.

(** A representable value rounds to itself. *)
Lemma rndQ_representable (s : bool) (m : positive) (e : Z) :
  valid (S754_finite s m e) ->
  rndQ (Z.pos m * 2 ^ (e + 1074)) 1 = Z.pos m * 2 ^ (e + 1074).
Proof.
  intros H. destruct (valid_finite s m e H) as (He & Hm & _ & Hc).
  assert (HP : 0 < 2 ^ (e + 1074)) by (apply pow2_pos; lia).
  rewrite (rndQ_scaled _ 1 (Z.pos m) 0 1 (2 ^ (e + 1074)) (e + 1074)); try lia.
  - simpl. reflexivity.
  - rewrite Z.div_1_r.
    rewrite Z.log2_mul_pow2 by lia.
    rewrite Zdigits2_log2 in Hc by lia. unfold fexp64 in Hc. lia.
Qed.

Lemma round_representable (x : spec_float) :
  valid x -> finite x = true -> round (rank x) = rank x.
Proof.
  intros H Hf. destruct x as [s|s| |s m e]; try discriminate.
  - apply round_zero.
  - pose proof (valid_rank_finite s m e H) as Hb.
    pose proof (rndQ_representable s m e H) as Hr.
    unfold round, rndS. destruct s; simpl rank.
    + destruct (Z.ltb_spec (- (Z.pos m * 2 ^ (e + 1074))) 0); [|lia].
      rewrite Z.opp_involutive, Hr. lia.
    + destruct (Z.ltb_spec (Z.pos m * 2 ^ (e + 1074)) 0); [lia|].
      rewrite Hr. lia.
Qed.

Lemma rounds_rank (s : bool) (v : Z) (res : spec_float) :
  0 <= v -> rounds s v res ->
  nonnan res = true /\ rank res = cond_Zopp s (Z.min v top).
Proof.
  intros Hv H. pose proof top_pos.
  destruct H as [E ->|m e Hb -> He E| Ht ->]; split; try reflexivity; simpl rank.
  - subst v. rewrite Z.min_l by lia. destruct s; reflexivity.
  - rewrite E, Z.min_l by lia. reflexivity.
  - rewrite Z.min_r by lia. reflexivity.
Qed.

Lemma pos_iter_xO (p m : positive) :
  Z.pos (Pos.iter xO m p) = Z.pos m * 2 ^ Z.pos p.
Proof.
  induction p as [|p IH] using Pos.peano_ind.
  - simpl. lia.
  - rewrite Pos.iter_succ. change (Z.pos (Pos.iter xO m p)~0) with (2 * Z.pos (Pos.iter xO m p)).
    rewrite IH, Pos2Z.inj_succ, Z.pow_succ_r by lia. lia.
Qed.

Lemma shl_align_spec (m : positive) (e e' : Z) :
  e' <= e ->
  Z.pos (fst (shl_align m e e')) = Z.pos m * 2 ^ (e - e') /\
  snd (shl_align m e e') = e'.
Proof.
  intros H. unfold shl_align. destruct (e' - e) as [|p|p] eqn:E; try lia.
  - simpl. assert (e - e' = 0) by lia. replace (e - e') with 0 by lia.
    split; lia.
  - simpl. rewrite pos_iter_xO. replace (e - e') with (Z.pos p) by lia.
    split; reflexivity.
Qed.

Lemma binary_round_spec (s : bool) (m : positive) (e : Z) :
  -1074 <= e ->
  rounds s (rndQ (Z.pos m * 2 ^ (e + 1074)) 1) (binary_round prec emax s m e).
Proof.
  intros He. unfold binary_round. rewrite fexp_eq.
  change (Z.pos (digits2_pos m)) with (Zdigits2 (Z.pos m)).
  set (e' := fexp64 (Zdigits2 (Z.pos m) + e)).
  assert (He' : -1074 <= e') by (unfold e', fexp64; lia).
  destruct (Z_le_gt_dec e' e) as [Hle|Hgt].
  - destruct (shl_align_spec m e e' Hle) as [Em Ee].
    destruct (shl_align m e e') as [mz ez]. simpl in Em, Ee. subst ez.
    replace (Z.pos m * 2 ^ (e + 1074))
      with ((Z.pos mz * 1 + 0) * 2 ^ (e' + 1074)).
    2:{ rewrite Em. replace (e + 1074) with ((e - e') + (e' + 1074)) by lia.
        rewrite (Z.pow_add_r 2 (e - e')) by lia. lia. }
    apply round_aux_spec; try lia; [|reflexivity].
    assert (Ed : Zdigits2 (Z.pos mz) = Zdigits2 (Z.pos m) + (e - e')).
    { rewrite !Zdigits2_log2 by lia. rewrite Em, Z.log2_mul_pow2 by lia. lia. }
    rewrite Ed. replace (Zdigits2 (Z.pos m) + (e - e') + e')
      with (Zdigits2 (Z.pos m) + e) by lia.
    fold e'. lia.
  - unfold shl_align. destruct (e' - e) as [|p|p] eqn:E; try lia.
    replace (Z.pos m * 2 ^ (e + 1074))
      with ((Z.pos m * 1 + 0) * 2 ^ (e + 1074)) by lia.
    apply round_aux_spec; try lia; try reflexivity.
    all: fold e'; lia.
Qed.

Lemma binary_normalize_spec (m e : Z) :
  -1074 <= e ->
  nonnan (binary_normalize prec emax m e false) = true /\
  rank (binary_normalize prec emax m e false) = round (m * 2 ^ (e + 1074)).
Proof.
  intros He. pose proof top_pos.
  assert (HP : 0 < 2 ^ (e + 1074)) by (apply pow2_pos; lia).
  destruct m as [|p|p]; simpl binary_normalize.
  - rewrite Z.mul_0_l, round_zero. split; reflexivity.
  - pose proof (binary_round_spec false p e He) as Hr.
    pose proof (rndQ_nonneg (Z.pos p * 2 ^ (e + 1074)) 1 ltac:(lia) ltac:(lia)).
    destruct (rounds_rank _ _ _ H0 Hr) as [Hn Hk]. split; [exact Hn|].
    rewrite Hk. unfold round, rndS.
    destruct (Z.ltb_spec (Z.pos p * 2 ^ (e + 1074)) 0); [lia|]. simpl. lia.
  - pose proof (binary_round_spec true p e He) as Hr.
    pose proof (rndQ_nonneg (Z.pos p * 2 ^ (e + 1074)) 1 ltac:(lia) ltac:(lia)).
    destruct (rounds_rank _ _ _ H0 Hr) as [Hn Hk]. split; [exact Hn|].
    rewrite Hk. unfold round, rndS.
    destruct (Z.ltb_spec (Z.neg p * 2 ^ (e + 1074)) 0); [|lia].
    replace (- (Z.neg p * 2 ^ (e + 1074))) with (Z.pos p * 2 ^ (e + 1074)) by lia.
    simpl. lia.
Qed.

Lemma aligned_sum (sx sy : bool) (mx my : positive) (ex ey : Z) (sub : bool) :
  -1074 <= ex -> -1074 <= ey ->
  let ez := Z.min ex ey in
  let a := cond_Zopp sx (Z.pos (fst (shl_align mx ex ez))) in
  let b := cond_Zopp sy (Z.pos (fst (shl_align my ey ez))) in
  (if sub then a - b else a + b) * 2 ^ (ez + 1074)
  = (if sub
     then rank (S754_finite sx mx ex) - rank (S754_finite sy my ey)
     else rank (S754_finite sx mx ex) + rank (S754_finite sy my ey)).
Proof.
  intros Hx Hy ez a b. unfold a, b.
  destruct (shl_align_spec mx ex ez ltac:(unfold ez; lia)) as [-> _].
  destruct (shl_align_spec my ey ez ltac:(unfold ez; lia)) as [-> _].
  simpl rank.
  replace (ex + 1074) with ((ex - ez) + (ez + 1074)) by lia.
  replace (ey + 1074) with ((ey - ez) + (ez + 1074)) by lia.
  rewrite (Z.pow_add_r 2 (ex - ez)), (Z.pow_add_r 2 (ey - ez)) by (unfold ez; lia).
  destruct sub, sx, sy; simpl cond_Zopp; ring.
Qed.

(** Addition and subtraction of finite numbers round the exact result. *)
Lemma SFadd_spec (x y : spec_float) :
  valid x -> valid y -> finite x = true -> finite y = true ->
  nonnan (SFadd prec emax x y) = true /\
  rank (SFadd prec emax x y) = round (rank x + rank y).
Proof.
  intros Vx Vy Fx Fy.
  destruct x as [sx|sx| |sx mx ex]; try discriminate;
    destruct y as [sy|sy| |sy my ey]; try discriminate.
  - destruct sx, sy; (split; [reflexivity|exact (eq_sym round_zero)]).
  - split; [reflexivity|]. change (rank (S754_zero sx)) with 0. rewrite Z.add_0_l.
    symmetry. apply (round_representable (S754_finite sy my ey)); auto.
  - split; [reflexivity|]. change (rank (S754_zero sy)) with 0. rewrite Z.add_0_r.
    symmetry. apply (round_representable (S754_finite sx mx ex)); auto.
  - destruct (valid_finite _ _ _ Vx) as (Hex & _). destruct (valid_finite _ _ _ Vy) as (Hey & _).
    unfold SFadd.
    rewrite <- (aligned_sum sx sy mx my ex ey false) by lia. cbv zeta.
    apply binary_normalize_spec. lia.
Qed.

Lemma SFsub_spec (x y : spec_float) :
  valid x -> valid y -> finite x = true -> finite y = true ->
  nonnan (SFsub prec emax x y) = true /\
  rank (SFsub prec emax x y) = round (rank x - rank y).
Proof.
  intros Vx Vy Fx Fy.
  destruct x as [sx|sx| |sx mx ex]; try discriminate;
    destruct y as [sy|sy| |sy my ey]; try discriminate.
  - destruct sx, sy; (split; [reflexivity|exact (eq_sym round_zero)]).
  - split; [reflexivity|]. change (rank (S754_zero sx)) with 0. rewrite Z.sub_0_l.
    assert (Vy' : valid (S754_finite (negb sy) my ey)) by exact Vy.
    change (SFsub prec emax (S754_zero sx) (S754_finite sy my ey))
      with (S754_finite (negb sy) my ey).
    rewrite <- (round_representable (S754_finite (negb sy) my ey) Vy' eq_refl).
    f_equal. simpl. destruct sy; simpl; lia.
  - split; [reflexivity|]. change (rank (S754_zero sy)) with 0. rewrite Z.sub_0_r.
    symmetry. apply (round_representable (S754_finite sx mx ex)); auto.
  - destruct (valid_finite _ _ _ Vx) as (Hex & _). destruct (valid_finite _ _ _ Vy) as (Hey & _).
    unfold SFsub.
    rewrite <- (aligned_sum sx sy mx my ex ey true) by lia. cbv zeta.
    apply binary_normalize_spec. lia.
Qed.

(** * Comparison *)

Lemma finite_lt (s1 s2 : bool) (m1 m2 : positive) (e1 e2 : Z) :
  valid (S754_finite s1 m1 e1) -> valid (S754_finite s2 m2 e2) -> e1 < e2 ->
  Z.pos m1 * 2 ^ (e1 + 1074) < Z.pos m2 * 2 ^ (e2 + 1074).
Proof.
  intros V1 V2 H.
  destruct (valid_finite _ _ _ V1) as (He1 & Hm1 & _ & _).
  destruct (valid_finite _ _ _ V2) as (He2 & _ & Hm2 & _).
  pose proof (Hm2 ltac:(lia)) as Hm.
  assert (HP : 0 < 2 ^ (e1 + 1074)) by (apply pow2_pos; lia).
  assert (Hpow : 2 * 2 ^ (e1 + 1074) <= 2 ^ (e2 + 1074)).
  { rewrite <- Z.pow_succ_r by lia. apply Z.pow_le_mono_r; lia. }
  change (2 ^ 53) with (2 ^ 52 * 2) in Hm1.
  assert (0 < 2 ^ 52) by (apply pow2_pos; lia).
  generalize dependent (2 ^ 52). generalize dependent (2 ^ (e1 + 1074)).
  generalize dependent (2 ^ (e2 + 1074)). intros. nia.
Qed.

Lemma SFcompare_rank (x y : spec_float) :
  valid x -> valid y -> nonnan x = true -> nonnan y = true ->
  SFcompare x y = Some (rank x ?= rank y).
Proof.
  intros Vx Vy Nx Ny. pose proof top_pos as Ht.
  destruct x as [sx|sx| |sx mx ex]; try discriminate;
    destruct y as [sy|sy| |sy my ey]; try discriminate;
    try pose proof (valid_rank_finite _ _ _ Vx) as Bx;
    try pose proof (valid_rank_finite _ _ _ Vy) as By;
    unfold SFcompare, rank; f_equal; symmetry.
  all: try (destruct sx; simpl cond_Zopp;
            first [apply Z.compare_eq_iff; lia | apply Z.compare_lt_iff; lia
                  | apply Z.compare_gt_iff; lia]).
  all: try (destruct sy; simpl cond_Zopp;
            first [apply Z.compare_eq_iff; lia | apply Z.compare_lt_iff; lia
                  | apply Z.compare_gt_iff; lia]).
  all: try (destruct sx, sy; simpl cond_Zopp;
            first [apply Z.compare_eq_iff; lia | apply Z.compare_lt_iff; lia
                  | apply Z.compare_gt_iff; lia]).
  - destruct (valid_finite _ _ _ Vx) as (Hex & _).
    assert (HP : 0 < 2 ^ (ex + 1074)) by (apply pow2_pos; lia).
    destruct sx, sy; simpl cond_Zopp.
    + destruct (Z.compare_spec ex ey) as [E|L|G].
      * subst ey. change (Pos.compare_cont Eq mx my) with (mx ?= my)%positive.
        destruct (Pos.compare_spec mx my) as [E|L|G]; simpl CompOpp;
          [subst; apply Z.compare_refl|apply Z.compare_gt_iff; nia
          |apply Z.compare_lt_iff; nia].
      * apply Z.compare_gt_iff. pose proof (finite_lt _ _ _ _ _ _ Vx Vy L). lia.
      * apply Z.compare_lt_iff. pose proof (finite_lt _ _ _ _ _ _ Vy Vx ltac:(lia)). lia.
    + apply Z.compare_lt_iff. lia.
    + apply Z.compare_gt_iff. lia.
    + destruct (Z.compare_spec ex ey) as [E|L|G].
      * subst ey. change (Pos.compare_cont Eq mx my) with (mx ?= my)%positive.
        destruct (Pos.compare_spec mx my) as [E|L|G];
          [subst; apply Z.compare_refl|apply Z.compare_lt_iff; nia
          |apply Z.compare_gt_iff; nia].
      * apply Z.compare_lt_iff. exact (finite_lt _ _ _ _ _ _ Vx Vy L).
      * apply Z.compare_gt_iff. pose proof (finite_lt _ _ _ _ _ _ Vy Vx ltac:(lia)). lia.
Qed.

(** Below a number whose mantissa is not a power of two, the next number
    is one step of its exponent away. *)
Lemma rank_below (x : spec_float) (my : positive) (ey : Z) :
  valid x -> nonnan x = true -> valid (S754_finite false my ey) ->
  2 ^ 52 < Z.pos my -> rank x < Z.pos my * 2 ^ (ey + 1074) ->
  rank x <= (Z.pos my - 1) * 2 ^ (ey + 1074).
Proof.
  intros Vx Nx Vy Hmy Hlt. pose proof top_pos as Ht.
  destruct (valid_finite _ _ _ Vy) as (Hey & _).
  assert (HP : 0 < 2 ^ (ey + 1074)) by (apply pow2_pos; lia).
  assert (Hnn : 0 <= (Z.pos my - 1) * 2 ^ (ey + 1074)) by nia.
  destruct x as [sx|sx| |sx mx ex]; try discriminate.
  - simpl. lia.
  - destruct sx; simpl in *; [lia|].
    pose proof (valid_rank_finite _ _ _ Vy). lia.
  - pose proof (valid_rank_finite _ _ _ Vx) as Bx.
    destruct sx; simpl rank in *; [lia|].
    destruct (valid_finite _ _ _ Vx) as (Hex & Hmx & _ & _).
    destruct (Z_lt_ge_dec ex ey) as [L|G].
    + assert (Hpow : 2 * 2 ^ (ex + 1074) <= 2 ^ (ey + 1074)).
      { rewrite <- Z.pow_succ_r by lia. apply Z.pow_le_mono_r; lia. }
      assert (HPx : 0 < 2 ^ (ex + 1074)) by (apply pow2_pos; lia).
      change (2 ^ 53) with (2 ^ 52 * 2) in Hmx.
      assert (0 < 2 ^ 52) by (apply pow2_pos; lia).
      generalize dependent (2 ^ 52). generalize dependent (2 ^ (ex + 1074)).
      generalize dependent (2 ^ (ey + 1074)). intros. nia.
    + replace (ex + 1074) with ((ex - ey) + (ey + 1074)) in * by lia.
      rewrite (Z.pow_add_r 2 (ex - ey)) in * by lia.
      assert (Hk : Z.pos mx * 2 ^ (ex - ey) < Z.pos my).
      { apply (Z.mul_lt_mono_pos_r (2 ^ (ey + 1074))); [exact HP|]. lia. }
      rewrite Z.mul_assoc. apply Z.mul_le_mono_nonneg_r; lia.
Qed.

(** * Division by a positive number below 2^53 *)

Lemma new_location_spec (D R : Z) :
  0 < D -> 0 <= R < D -> locates (new_location D R) R D.
Proof.
  intros HD HR. unfold new_location.
  destruct (Z.even D) eqn:Ev.
  - unfold new_location_even. destruct (Z.eqb_spec R 0) as [E|NE]; [exact E|].
    destruct (Z.compare_spec (2 * R) D); simpl; lia.
  - unfold new_location_odd. destruct (Z.eqb_spec R 0) as [E|NE]; [exact E|].
    assert (2 * R <> D).
    { intros E. rewrite <- E, Z.even_mul in Ev. discriminate. }
    destruct (Z.compare_spec (2 * R + 1) D); simpl; lia.
Qed.

Lemma Zdigits2_large (q : Z) : 2 ^ 52 <= q -> 53 <= Zdigits2 q.
Proof.
  intros Hq. assert (0 < 2 ^ 52) by (apply pow2_pos; lia).
  destruct (Zdigits2_bounds q ltac:(lia)) as [Hd [_ Hb]].
  destruct (Z_le_gt_dec 53 (Zdigits2 q)) as [H1|H1]; [exact H1|].
  assert (2 ^ Zdigits2 q <= 2 ^ 52) by (apply Z.pow_le_mono_r; lia). lia.
Qed.

Lemma SFdiv_spec (m1 m2 : positive) (e1 e2 : Z) :
  valid (S754_finite false m1 e1) -> valid (S754_finite false m2 e2) ->
  e2 <= 0 ->
  rounds false (rndQ (Z.pos m1 * 2 ^ (e1 + 1074) * 2 ^ (- e2)) (Z.pos m2))
         (SFdiv prec emax (S754_finite false m1 e1) (S754_finite false m2 e2)).
Proof.
  intros V1 V2 He2.
  destruct (valid_finite _ _ _ V1) as (He1 & Hm1 & _ & _).
  destruct (valid_finite _ _ _ V2) as (He2' & Hm2 & _ & _).
  unfold SFdiv, SFdiv_core_binary. rewrite fexp_eq.
  set (d1 := Zdigits2 (Z.pos m1)). set (d2 := Zdigits2 (Z.pos m2)).
  destruct (Zdigits2_bounds (Z.pos m1) ltac:(lia)) as [Hd1 [Hlo1 Hhi1]].
  destruct (Zdigits2_bounds (Z.pos m2) ltac:(lia)) as [Hd2 [Hlo2 Hhi2]].
  fold d1 in Hd1, Hlo1, Hhi1. fold d2 in Hd2, Hlo2, Hhi2.
  pose proof (Zdigits2_small (Z.pos m1) ltac:(lia)) as Hs1. fold d1 in Hs1.
  set (e' := Z.min (fexp64 (d1 + e1 - (d2 + e2))) (e1 - e2)).
  set (s := e1 - e2 - e').
  assert (Hs : 0 <= s) by (unfold s, e'; lia).
  assert (He' : -1074 <= e') by (unfold e', fexp64; lia).
  set (m' := match s with 0 => Z.pos m1 | Z.pos _ => Z.shiftl (Z.pos m1) s | Z.neg _ => 0 end).
  assert (Em' : m' = Z.pos m1 * 2 ^ s).
  { unfold m'. destruct s as [|p|p] eqn:Es; [simpl; lia| |lia].
    rewrite Z.shiftl_mul_pow2 by lia. reflexivity. }
  cbv zeta. fold d1. fold d2. fold e'. fold s. fold m'.
  pose proof (Z_div_mod m' (Z.pos m2) ltac:(lia)) as Hdm.
  destruct (Z.div_eucl m' (Z.pos m2)) as [q r]. destruct Hdm as [Edm Hr].
  assert (Hps : 0 < 2 ^ s) by (apply pow2_pos; lia).
  assert (Hq : 0 <= q) by nia.
  cbv beta iota.
  replace (Z.pos m1 * 2 ^ (e1 + 1074) * 2 ^ (- e2))
    with ((q * Z.pos m2 + r) * 2 ^ (e' + 1074)).
  2:{ replace (q * Z.pos m2 + r) with m' by lia. rewrite Em'.
      rewrite <- !Z.mul_assoc. f_equal. rewrite <- !Z.pow_add_r by lia.
      f_equal. unfold s. lia. }
  apply round_aux_spec; try lia.
  - destruct (Z.eq_dec e' (-1074)) as [E|NE]; [unfold fexp64; lia|].
    assert (Ee : e' = d1 + e1 - (d2 + e2) - 53) by (unfold e', fexp64 in *; lia).
    assert (Es : s = 53 - d1 + d2) by (unfold s; lia).
    assert (Hbig : 2 ^ 52 <= q).
    { assert (Hm'lo : 2 ^ 52 * 2 ^ d2 <= m').
      { rewrite Em', Es. rewrite <- Z.pow_add_r by lia.
        replace (52 + d2) with ((d1 - 1) + (53 - d1 + d2)) by lia.
        rewrite (Z.pow_add_r 2 (d1 - 1)) by lia.
        apply Z.mul_le_mono_nonneg_r; lia. }
      assert (0 < 2 ^ 52) by (apply pow2_pos; lia).
      generalize dependent (2 ^ 52). generalize dependent (2 ^ d2).
      intros. nia. }
    pose proof (Zdigits2_large q Hbig). unfold fexp64. lia.
  - apply new_location_spec; lia.
Qed.

(** * The primitive operations *)

Definition val (x : float) : Z := rank (Prim2SF x).
Definition defined (x : float) : bool := nonnan (Prim2SF x).
Definition fin (x : float) : bool := finite (Prim2SF x).

Lemma valid_float (x : float) : valid (Prim2SF x).
Proof. exact (Prim2SF_valid x). Qed.

Lemma fin_defined (x : float) : fin x = true -> defined x = true.
Proof. unfold fin, defined. destruct (Prim2SF x); simpl; congruence. Qed.

Lemma val_bounds (x : float) : - top <= val x <= top.
Proof. apply rank_bounds, valid_float. Qed.

Lemma val_fin (x : float) : fin x = true -> - top < val x < top.
Proof. apply rank_finite, valid_float. Qed.

Lemma fin_val (x : float) :
  defined x = true -> - top < val x < top -> fin x = true.
Proof. apply finite_rank, valid_float. Qed.

Lemma leb_val (x y : float) :
  (x <=? y)%float = defined x && defined y && (val x <=? val y).
Proof.
  rewrite FloatAxioms.leb_spec. unfold SFleb, defined, val.
  destruct (nonnan (Prim2SF x)) eqn:Nx.
  2:{ destruct (Prim2SF x); try discriminate. reflexivity. }
  destruct (nonnan (Prim2SF y)) eqn:Ny.
  2:{ destruct (Prim2SF y); try discriminate. destruct (Prim2SF x); reflexivity. }
  rewrite (SFcompare_rank _ _ (valid_float x) (valid_float y) Nx Ny).
  simpl andb. unfold Z.leb. destruct (_ ?= _); reflexivity.
Qed.

Lemma ltb_val (x y : float) :
  (x <? y)%float = defined x && defined y && (val x <? val y).
Proof.
  rewrite FloatAxioms.ltb_spec. unfold SFltb, defined, val.
  destruct (nonnan (Prim2SF x)) eqn:Nx.
  2:{ destruct (Prim2SF x); try discriminate. reflexivity. }
  destruct (nonnan (Prim2SF y)) eqn:Ny.
  2:{ destruct (Prim2SF y); try discriminate. destruct (Prim2SF x); reflexivity. }
  rewrite (SFcompare_rank _ _ (valid_float x) (valid_float y) Nx Ny).
  simpl andb. unfold Z.ltb. destruct (_ ?= _); reflexivity.
Qed.

Lemma add_val (x y : float) :
  fin x = true -> fin y = true ->
  defined (x + y) = true /\ val (x + y) = round (val x + val y).
Proof.
  intros Fx Fy. unfold defined, val. rewrite FloatAxioms.add_spec.
  apply SFadd_spec; auto using valid_float.
Qed.

Lemma sub_val (x y : float) :
  fin x = true -> fin y = true ->
  defined (x - y) = true /\ val (x - y) = round (val x - val y).
Proof.
  intros Fx Fy. unfold defined, val. rewrite FloatAxioms.sub_spec.
  apply SFsub_spec; auto using valid_float.
Qed.

(** Adding a number that is minus infinity or finite to another such. *)
Lemma add_below (a b A B : float) :
  defined a = true -> defined b = true -> fin A = true -> fin B = true ->
  val a <= val A -> val b <= val B ->
  defined (a + b) = true /\ val (a + b) <= val (A + B).
Proof.
  intros Da Db FA FB Ha Hb. pose proof top_pos as Ht.
  pose proof (val_fin A FA) as BA. pose proof (val_fin B FB) as BB.
  destruct (add_val A B FA FB) as [_ EAB].
  destruct (fin a) eqn:Fa; [destruct (fin b) eqn:Fb|].
  - destruct (add_val a b Fa Fb) as [D E]. split; [exact D|].
    rewrite E, EAB. apply round_mono. lia.
  - pose proof (val_bounds (A + B)) as Hb'.
    unfold defined, val, fin in *. rewrite (FloatAxioms.add_spec a b).
    pose proof (valid_float b) as Vb.
    destruct (Prim2SF a) as [sa|sa| |sa ma ea]; try discriminate;
      destruct (Prim2SF b) as [sb|sb| |sb mb eb]; try discriminate;
      destruct sb; simpl in Hb |- *; try lia; split; try reflexivity; lia.
  - pose proof (val_bounds (A + B)) as Hb'.
    unfold defined, val, fin in *. rewrite (FloatAxioms.add_spec a b).
    destruct (Prim2SF a) as [sa|sa| |sa ma ea]; try discriminate.
    destruct sa; simpl in Ha; [|lia].
    destruct (Prim2SF b) as [sb|sb| |sb mb eb]; try discriminate;
      try (split; [reflexivity|simpl; lia]).
    destruct sb; simpl in Hb; [|lia]. split; [reflexivity|simpl; lia].
Qed.

Lemma div_val (x y : float) (m2 : positive) (e2 : Z) :
  fin x = true -> 0 <= val x -> Prim2SF y = S754_finite false m2 e2 -> e2 <= 0 ->
  defined (x / y) = true /\
  val (x / y) = Z.min (rndQ (val x * 2 ^ (- e2)) (Z.pos m2)) top.
Proof.
  intros Fx Hx Ey He2. pose proof top_pos as Ht.
  pose proof (valid_float x) as Vx. pose proof (valid_float y) as Vy.
  unfold defined, val, fin in *. rewrite FloatAxioms.div_spec, Ey. rewrite Ey in Vy.
  destruct (Prim2SF x) as [sx|sx| |sx mx ex]; try discriminate.
  - simpl. rewrite rndQ_zero by lia. split; [reflexivity|lia].
  - pose proof (valid_rank_finite _ _ _ Vx) as Bx.
    destruct sx; simpl rank in *; [lia|].
    pose proof (SFdiv_spec mx m2 ex e2 Vx Vy He2) as Hr.
    assert (0 < 2 ^ (- e2)) by (apply pow2_pos; lia).
    apply rounds_rank in Hr; [exact Hr|].
    apply rndQ_nonneg; [nia|lia].
Qed.

Lemma is_nan_defined (x : float) : is_nan x = negb (defined x).
Proof.
  unfold is_nan. rewrite FloatAxioms.eqb_spec. unfold SFeqb, defined.
  destruct (nonnan (Prim2SF x)) eqn:N.
  - rewrite (SFcompare_rank _ _ (valid_float x) (valid_float x) N N).
    rewrite Z.compare_refl. reflexivity.
  - destruct (Prim2SF x); try discriminate. reflexivity.
Qed.

Lemma add_defined (x y : float) :
  defined (x + y) = true -> defined x = true /\ defined y = true.
Proof.
  unfold defined. rewrite FloatAxioms.add_spec.
  destruct (Prim2SF x) as [sx|sx| |sx mx ex];
    destruct (Prim2SF y) as [sy|sy| |sy my ey]; simpl; auto.
Qed.

(** Subtracting from a number that is not below the subtrahend. *)
Lemma sub_nonneg (x y : float) :
  fin x = true -> fin y = true -> val y <= val x ->
  defined (x - y) = true /\ 0 <= val (x - y).
Proof.
  intros Fx Fy H. destruct (sub_val x y Fx Fy) as [D E].
  split; [exact D|]. rewrite E. apply round_nonneg. lia.
Qed.

End Binary64.

(* ===================================================================== *)
(** * The fixed-timestep scheduler (src/core/GameLoop.js) *)
(* ===================================================================== *)

Module GameLoop.

Import Binary64.

Local Open Scope float_scope.

(** The fields of a [GameLoop] object.  Time stamps, durations and counters
    are JavaScript numbers, binary64 values.  The callback arrays and the
    animation-frame handle are not part of the state: the scheduler's calls
    to its three dispatchers are recorded as a trace of [Call]s instead, and
    the callbacks are taken not to call back into the scheduler. *)
Record GameLoop := mkGameLoop {
  isRunning : bool;
  isPaused : bool;
  lastTime : float;
  accumulator : float;
  fixedDeltaTime : float;
  maxAccumulator : float;
  frameCount : float;
  fpsTime : float;
  currentFPS : float
}.

(** One call made by [loop] to a dispatcher method of the scheduler. *)
Inductive Call :=
| Update (dt : float)       (* this.update(dt)    *)
| LateUpdate                (* this.lateUpdate()  *)
| Render (alpha : float).   (* this.render(alpha) *)

(** [constructor()] *)
Definition new : GameLoop :=
  {| isRunning := false; isPaused := false;
     lastTime := 0; accumulator := 0;
     fixedDeltaTime := 1000 / 60;
     maxAccumulator := (1000 / 60) * 5;
     frameCount := 0; fpsTime := 0; currentFPS := 0 |}.

Definition set_accumulator (a : float) (g : GameLoop) : GameLoop :=
  {| isRunning := isRunning g; isPaused := isPaused g;
     lastTime := lastTime g; accumulator := a;
     fixedDeltaTime := fixedDeltaTime g; maxAccumulator := maxAccumulator g;
     frameCount := frameCount g; fpsTime := fpsTime g;
     currentFPS := currentFPS g |}.

Definition set_lastTime (t : float) (g : GameLoop) : GameLoop :=
  {| isRunning := isRunning g; isPaused := isPaused g;
     lastTime := t; accumulator := accumulator g;
     fixedDeltaTime := fixedDeltaTime g; maxAccumulator := maxAccumulator g;
     frameCount := frameCount g; fpsTime := fpsTime g;
     currentFPS := currentFPS g |}.

Definition set_flags (running paused : bool) (g : GameLoop) : GameLoop :=
  {| isRunning := running; isPaused := paused;
     lastTime := lastTime g; accumulator := accumulator g;
     fixedDeltaTime := fixedDeltaTime g; maxAccumulator := maxAccumulator g;
     frameCount := frameCount g; fpsTime := fpsTime g;
     currentFPS := currentFPS g |}.

(** [start()]; [now] is the value of [performance.now()]. *)
Definition start (now : float) (g : GameLoop) : GameLoop :=
  if isRunning g then g
  else set_accumulator 0 (set_lastTime now (set_flags true false g)).

(** [stop()] *)
Definition stop (g : GameLoop) : GameLoop :=
  set_flags false (isPaused g) g.

(** [pause()] *)
Definition pause (g : GameLoop) : GameLoop :=
  if negb (isPaused g) then set_flags (isRunning g) true g else g.

(** [resume()]; [now] is the value of [performance.now()]. *)
Definition resume (now : float) (g : GameLoop) : GameLoop :=
  if isPaused g
  then set_accumulator 0 (set_lastTime now (set_flags (isRunning g) false g))
  else g.

(** [Math.min(a, b)]: NaN when an argument is NaN, and -0 below +0. *)
Definition Math_min (a b : float) : float :=
  if is_nan a || is_nan b then nan
  else if a <? b then a
  else if b <? a then b
  else if get_sign a then a else b.

(** [Math.round(x)]: the integer nearest to [x], the upper one of two that
    are equally near; [x] itself when it is an integer, an infinity or NaN;
    and -0 for a negative [x] that rounds to zero. *)
Definition Math_round (x : float) : float :=
  match Prim2SF x with
  | S754_finite s m e =>
      if (0 <=? e)%Z then x
      else SF2Prim (binary_normalize prec emax
                      ((2 * cond_Zopp s (Z.pos m) + 2 ^ (- e))
                       / (2 * 2 ^ (- e)))%Z 0 s)
  | _ => x
  end.

(** [updateFPS(deltaTime)] *)
Definition updateFPS (deltaTime : float) (g : GameLoop) : GameLoop :=
  let fc := frameCount g + 1 in
  let ft := fpsTime g + deltaTime in
  if 1000 <=? ft
  then {| isRunning := isRunning g; isPaused := isPaused g;
          lastTime := lastTime g; accumulator := accumulator g;
          fixedDeltaTime := fixedDeltaTime g;
          maxAccumulator := maxAccumulator g;
          frameCount := 0; fpsTime := 0;
          currentFPS := Math_round (fc * 1000 / ft) |}
  else {| isRunning := isRunning g; isPaused := isPaused g;
          lastTime := lastTime g; accumulator := accumulator g;
          fixedDeltaTime := fixedDeltaTime g;
          maxAccumulator := maxAccumulator g;
          frameCount := fc; fpsTime := ft;
          currentFPS := currentFPS g |}.

(** The catch-up loop of [loop]:
    [while (accumulator >= fixedDeltaTime) { update(fixedDeltaTime);
    accumulator -= fixedDeltaTime; }].  [None] when [fuel] iterations do not
    reach the exit of the loop. *)
Fixpoint fixedUpdates (fuel : nat) (g : GameLoop)
  : option (GameLoop * list Call) :=
  if fixedDeltaTime g <=? accumulator g then
    match fuel with
    | O => None
    | S fuel' =>
        match fixedUpdates fuel'
                (set_accumulator (accumulator g - fixedDeltaTime g) g) with
        | Some (g', calls) => Some (g', Update (fixedDeltaTime g) :: calls)
        | None => None
        end
    end
  else Some (g, []).

(** The amount [loop] adds to the accumulator:
    [Math.min(deltaTime, this.maxAccumulator)]. *)
Definition accumulated (currentTime : float) (g : GameLoop) : float :=
  Math_min (currentTime - lastTime g) (maxAccumulator g).

(** [loop(currentTime)], one external tick. *)
Definition loop (fuel : nat) (currentTime : float) (g : GameLoop)
  : option (GameLoop * list Call) :=
  if negb (isRunning g) then Some (g, [])
  else
    let deltaTime := currentTime - lastTime g in
    let add := accumulated currentTime g in
    let g1 := updateFPS deltaTime (set_lastTime currentTime g) in
    if negb (isPaused g1) then
      match fixedUpdates fuel (set_accumulator (accumulator g1 + add) g1) with
      | Some (g2, calls) =>
          Some (g2, calls ++ [LateUpdate;
                              Render (accumulator g2 / fixedDeltaTime g2)])
      | None => None
      end
    else Some (g1, [Render (accumulator g1 / fixedDeltaTime g1)]).

(** What the outside does to a scheduler. *)
Inductive Op :=
| Start (now : float)
| Stop
| Pause
| Resume (now : float)
| Tick (currentTime : float).

Definition step (fuel : nat) (o : Op) (g : GameLoop)
  : option (GameLoop * list Call) :=
  match o with
  | Start now => Some (start now g, [])
  | Stop => Some (stop g, [])
  | Pause => Some (pause g, [])
  | Resume now => Some (resume now g, [])
  | Tick t => loop fuel t g
  end.

Fixpoint run (fuel : nat) (ops : list Op) (g : GameLoop)
  : option (GameLoop * list Call) :=
  match ops with
  | [] => Some (g, [])
  | o :: rest =>
      match step fuel o g with
      | Some (g1, calls1) =>
          match run fuel rest g1 with
          | Some (g2, calls2) => Some (g2, calls1 ++ calls2)
          | None => None
          end
      | None => None
      end
  end.

(** The clock reading an operation hands to a scheduler that is running
    or not, paused or not, if the scheduler looks at it: [start()] reads
    [performance.now()] unless the scheduler runs, [resume()] reads it if
    the scheduler is paused, and [loop] looks at its time stamp if the
    scheduler runs. *)
Definition reading (running paused : bool) (o : Op) : option float :=
  match o with
  | Start t => if running then None else Some t
  | Resume t => if paused then Some t else None
  | Tick t => if running then Some t else None
  | _ => None
  end.

(** [isRunning] and [isPaused] after an operation. *)
Definition flags (running paused : bool) (o : Op) : bool * bool :=
  match o with
  | Start _ => if running then (running, paused) else (true, false)
  | Stop => (false, paused)
  | Pause => (running, true)
  | Resume _ => (running, false)
  | Tick _ => (running, paused)
  end.




(** Neither NaN nor an infinity. *)
Definition isFinite (x : float) : bool := (neg_infinity <? x) && (x <? infinity).

Definition isUpdate (c : Call) : bool :=
  match c with Update _ => true | _ => false end.

Definition countUpdates (calls : list Call) : nat :=
  length (filter (fun c => isUpdate c = true) calls).

(** [n] times [a -= f]. *)
Fixpoint drain (f : float) (n : nat) (a : float) : float :=
  match n with
  | O => a
  | S n' => drain f n' (a - f)
  end.

(** The numbers met on the way are finite. *)
Fixpoint finiteDrain (f : float) (n : nat) (a : float) : bool :=
  fin a && match n with
           | O => true
           | S n' => finiteDrain f n' (a - f)
           end.

(** What holds of a scheduler between two operations, whatever the time
    stamps: the accumulator is not at or above the fixed step, which is
    1000/60 ms, and the cap is the fixed step times five. *)
Definition Bounded (g : GameLoop) : Prop :=
  (fixedDeltaTime g <=? accumulator g) = false /\
  fixedDeltaTime g = 1000 / 60 /\
  maxAccumulator g = fixedDeltaTime g * 5.

(** What holds in addition when the clock readings are finite and never go
    back: the accumulator is not negative and, while the scheduler runs, the
    last time stamp is finite and not after the last reading [t]. *)
Definition Forward (t : float) (g : GameLoop) : Prop :=
  (0 <=? accumulator g) = true /\
  (isRunning g = true -> isFinite (lastTime g) = true /\ (lastTime g <=? t) = true).

(** The readings taken in over [ops] are finite and go up from [prev]. *)
Fixpoint nondecreasing (prev : float) (running paused : bool)
  (ops : list Op) : Prop :=
  match ops with
  | [] => True
  | o :: rest =>
      match reading running paused o with
      | Some t =>
          isFinite t = true /\ (prev <=? t) = true /\
          nondecreasing t (fst (flags running paused o))
            (snd (flags running paused o)) rest
      | None =>
          nondecreasing prev (fst (flags running paused o))
            (snd (flags running paused o)) rest
      end
  end.

Definition inUnit (a : float) : Prop := (0 <=? a) = true /\ (a <? 1) = true.

(** ** Properties of the scheduler *)

Lemma isFinite_fin (x : float) : isFinite x = true -> fin x = true.
Proof.
  unfold isFinite. rewrite !ltb_val. intros H.
  apply andb_prop in H. destruct H as [H1 H2].
  apply andb_prop in H1. destruct H1 as [H1 L1].
  apply andb_prop in H2. destruct H2 as [H2 L2].
  apply andb_prop in H2. destruct H2 as [D _].
  apply fin_val; [exact D|].
  apply Z.ltb_lt in L1, L2.
  change (val neg_infinity) with (- top)%Z in L1.
  change (val infinity) with top in L2. lia.
Qed.

Lemma leb_true (x y : float) :
  (x <=? y) = true -> defined x = true /\ defined y = true /\ (val x <= val y)%Z.
Proof.
  rewrite leb_val. intros H. apply andb_prop in H. destruct H as [H L].
  apply andb_prop in H. destruct H as [Dx Dy]. apply Z.leb_le in L. auto.
Qed.

Lemma leb_false (x y : float) :
  (x <=? y) = false -> defined x = true -> defined y = true -> (val y < val x)%Z.
Proof.
  rewrite leb_val. intros H Dx Dy. rewrite Dx, Dy in H. simpl in H.
  apply Z.leb_gt in H. exact H.
Qed.

Lemma leb_intro (x y : float) :
  defined x = true -> defined y = true -> (val x <= val y)%Z -> (x <=? y) = true.
Proof.
  intros Dx Dy H. rewrite leb_val, Dx, Dy. simpl. apply Z.leb_le. exact H.
Qed.

Lemma ltb_intro (x y : float) :
  defined x = true -> defined y = true -> (val x < val y)%Z -> (x <? y) = true.
Proof.
  intros Dx Dy H. rewrite ltb_val, Dx, Dy. simpl. apply Z.ltb_lt. exact H.
Qed.

Lemma Math_min_spec (a b : float) :
  defined (Math_min a b) = defined a && defined b /\
  (defined a = true -> defined b = true ->
   val (Math_min a b) = Z.min (val a) (val b)).
Proof.
  unfold Math_min. rewrite !is_nan_defined.
  destruct (defined a) eqn:Da; [destruct (defined b) eqn:Db|]; simpl;
    try (split; [reflexivity|intros; discriminate]).
  rewrite !ltb_val, Da, Db. simpl.
  destruct (Z.ltb_spec (val a) (val b)); [split; [exact Da|intros; lia]|].
  destruct (Z.ltb_spec (val b) (val a)); [split; [exact Db|intros; lia]|].
  destruct (get_sign a); (split; [assumption|intros; lia]).
Qed.

(** The fixed step, the number below it and the cap, as binary64 values. *)
Lemma fixed_step_repr :
  Prim2SF (1000 / 60) = S754_finite false 4691249611844267 (-48) /\
  Prim2SF (next_down (1000 / 60)) = S754_finite false 4691249611844266 (-48) /\
  Prim2SF (1000 / 60 * 5) = S754_finite false 5864062014805334 (-46).
Proof. repeat split; vm_compute; reflexivity. Qed.

Lemma below_fixed_step (a : float) :
  defined a = true -> (1000 / 60 <=? a) = false ->
  (val a <= val (next_down (1000 / 60)))%Z.
Proof.
  intros Da H. destruct fixed_step_repr as (EF & EP & _).
  assert (DF : defined (1000 / 60) = true) by (unfold defined; rewrite EF; reflexivity).
  pose proof (leb_false _ _ H DF Da) as Hlt.
  pose proof (valid_float (1000 / 60)) as VF.
  unfold val, defined in *. rewrite EF in Hlt, VF. rewrite EP.
  simpl rank in Hlt |- *.
  apply (rank_below (Prim2SF a) 4691249611844267 (-48) (valid_float a) Da VF).
  - vm_compute. reflexivity.
  - exact Hlt.
Qed.

(** The catch-up loop ends within [k] iterations when the accumulator, if
    it is a number, is not above an [X] from which [k] subtractions of the
    fixed step lead below the fixed step; it only changes the accumulator,
    by its subtractions, and does not make it negative. *)
Lemma fixedUpdates_below (k : nat) :
  forall (fuel : nat) (g : GameLoop) (X : float),
    (k <= fuel)%nat ->
    fin (fixedDeltaTime g) = true ->
    finiteDrain (fixedDeltaTime g) k X = true ->
    (fixedDeltaTime g <=? drain (fixedDeltaTime g) k X) = false ->
    (defined (accumulator g) = true -> (val (accumulator g) <= val X)%Z) ->
    exists g' n,
      fixedUpdates fuel g = Some (g', repeat (Update (fixedDeltaTime g)) n) /\
      (n <= k)%nat /\
      g' = set_accumulator (drain (fixedDeltaTime g) n (accumulator g)) g /\
      (fixedDeltaTime g <=? accumulator g') = false /\
      ((0 <=? accumulator g) = true -> (0 <=? accumulator g') = true).
Proof.
  induction k as [|k IH]; intros fuel g X Hfuel Ff HX Hstop Hle.
  - simpl in HX, Hstop. rewrite andb_true_r in HX.
    destruct (fixedDeltaTime g <=? accumulator g) eqn:E.
    + exfalso. destruct (leb_true _ _ E) as (Df & Da & Hfa).
      pose proof (leb_false _ _ Hstop Df (fin_defined _ HX)).
      specialize (Hle Da). lia.
    + exists g, O.
      split; [destruct fuel; simpl; rewrite E; reflexivity|].
      split; [lia|]. split; [destruct g; reflexivity|].
      split; [exact E|tauto].
  - destruct (fixedDeltaTime g <=? accumulator g) eqn:E.
    + destruct fuel as [|fuel]; [lia|].
      destruct (leb_true _ _ E) as (Df & Da & Hfa).
      simpl in HX. apply andb_prop in HX. destruct HX as [FX HX].
      specialize (Hle Da).
      assert (Fa : fin (accumulator g) = true).
      { apply fin_val; [exact Da|].
        pose proof (val_fin _ Ff). pose proof (val_fin _ FX). lia. }
      destruct (sub_val (accumulator g) (fixedDeltaTime g) Fa Ff) as [D1 E1].
      destruct (sub_val X (fixedDeltaTime g) FX Ff) as [D2 E2].
      destruct (IH fuel (set_accumulator (accumulator g - fixedDeltaTime g) g)
                  (X - fixedDeltaTime g))
        as (g' & n & Hrun & Hn & Hframe & Hhi & Hlo).
      * lia.
      * exact Ff.
      * exact HX.
      * exact Hstop.
      * intros _. cbn [accumulator set_accumulator]. rewrite E1, E2.
        apply round_mono. lia.
      * exists g', (S n). cbn [fixedUpdates]. rewrite E.
        cbn [fixedDeltaTime set_accumulator] in Hrun. rewrite Hrun.
        split; [reflexivity|]. split; [lia|].
        split; [rewrite Hframe; destruct g; reflexivity|].
        split; [exact Hhi|]. intros _. apply Hlo.
        cbn [accumulator set_accumulator].
        apply leb_intro; [reflexivity|exact D1|].
        rewrite E1. change (val 0) with 0%Z. apply round_nonneg. lia.
    + exists g, O.
      split; [destruct fuel; simpl; rewrite E; reflexivity|].
      split; [lia|]. split; [destruct g; reflexivity|].
      split; [exact E|tauto].
Qed.

Lemma countUpdates_app (l1 l2 : list Call) :
  countUpdates (l1 ++ l2) = (countUpdates l1 + countUpdates l2)%nat.
Proof. unfold countUpdates. rewrite filter_app, length_app. reflexivity. Qed.

Lemma countUpdates_repeat (f : float) (n : nat) :
  countUpdates (repeat (Update f) n) = n.
Proof.
  unfold countUpdates. induction n as [|n IH]; [reflexivity|].
  cbn [repeat]. rewrite filter_cons_True by reflexivity.
  cbn [length]. rewrite IH. reflexivity.
Qed.

(** A non-negative accumulator below the fixed step renders an alpha in
    [0,1). *)
Lemma alpha_range (a : float) :
  (0 <=? a) = true -> (1000 / 60 <=? a) = false -> inUnit (a / (1000 / 60)).
Proof.
  intros Hlo Hhi. destruct fixed_step_repr as (EF & EP & _).
  destruct (leb_true _ _ Hlo) as (_ & Da & H0). change (val 0) with 0%Z in H0.
  pose proof (below_fixed_step a Da Hhi) as Hp.
  assert (FP : fin (next_down (1000 / 60)) = true)
    by (unfold fin; rewrite EP; reflexivity).
  assert (Fa : fin a = true).
  { apply fin_val; [exact Da|]. pose proof (val_fin _ FP). pose proof top_pos. lia. }
  destruct (div_val a (1000 / 60) _ _ Fa H0 EF ltac:(lia)) as [D E].
  assert (H0p : (0 <= val (next_down (1000 / 60)))%Z) by lia.
  destruct (div_val (next_down (1000 / 60)) (1000 / 60) _ _ FP H0p EF ltac:(lia))
    as [_ E'].
  assert (Hmono : (val (a / (1000 / 60))
                   <= val (next_down (1000 / 60) / (1000 / 60)))%Z).
  { rewrite E, E'. apply Z.min_le_compat_r. apply rndQ_mono; [|nia|lia].
    assert (0 < 2 ^ (- -48))%Z by (apply pow2_pos; lia). nia. }
  assert (Hnn : (0 <= val (a / (1000 / 60)))%Z).
  { rewrite E. pose proof top_pos.
    assert (0 < 2 ^ (- -48))%Z by (apply pow2_pos; lia).
    pose proof (rndQ_nonneg (val a * 2 ^ (- -48)) 4691249611844267
                  ltac:(nia) ltac:(lia)). lia. }
  split.
  - apply leb_intro; [reflexivity|exact D|exact Hnn].
  - apply ltb_intro; [exact D|reflexivity|].
    assert (Hc : (val (next_down (1000 / 60) / (1000 / 60)) < val 1)%Z)
      by (vm_compute; reflexivity).
    lia.
Qed.

Lemma updateFPS_frame (d : float) (g : GameLoop) :
  isRunning (updateFPS d g) = isRunning g /\
  isPaused (updateFPS d g) = isPaused g /\
  lastTime (updateFPS d g) = lastTime g /\
  accumulator (updateFPS d g) = accumulator g /\
  fixedDeltaTime (updateFPS d g) = fixedDeltaTime g /\
  maxAccumulator (updateFPS d g) = maxAccumulator g.
Proof. unfold updateFPS. destruct (_ <=? _); repeat split. Qed.

Lemma leb_refl_defined (x : float) : defined x = true -> (x <=? x) = true.
Proof. intros D. apply leb_intro; [exact D|exact D|lia]. Qed.

Lemma leb_trans (x y z : float) :
  (x <=? y) = true -> (y <=? z) = true -> (x <=? z) = true.
Proof.
  intros H1 H2. destruct (leb_true _ _ H1) as (Dx & _ & L1).
  destruct (leb_true _ _ H2) as (_ & Dz & L2).
  apply leb_intro; [exact Dx|exact Dz|lia].
Qed.

Lemma isFinite_defined (x : float) : isFinite x = true -> defined x = true.
Proof. intros H. apply fin_defined, isFinite_fin, H. Qed.

(** The accumulator the catch-up loop starts from is, if it is a number,
    not above the number below the fixed step plus the cap. *)
Lemma accumulated_below (a d : float) :
  (1000 / 60 <=? a) = false ->
  defined (a + Math_min d (1000 / 60 * 5)) = true ->
  (val (a + Math_min d (1000 / 60 * 5))
   <= val (next_down (1000 / 60) + 1000 / 60 * 5))%Z.
Proof.
  intros Ha D. destruct (add_defined _ _ D) as [Da Dm].
  destruct (Math_min_spec d (1000 / 60 * 5)) as [Em Ev].
  rewrite Dm in Em. symmetry in Em. apply andb_prop in Em.
  destruct Em as [Dd DM]. specialize (Ev Dd DM).
  apply add_below; try assumption; try reflexivity.
  - apply below_fixed_step; assumption.
  - rewrite Ev. lia.
Qed.

(** With a non-negative accumulator below the fixed step and a delta that
    is not negative, the sum the catch-up loop starts from is not negative. *)
Lemma accumulated_nonneg (a t last : float) :
  (0 <=? a) = true -> (1000 / 60 <=? a) = false ->
  isFinite t = true -> isFinite last = true -> (last <=? t) = true ->
  (0 <=? a + Math_min (t - last) (1000 / 60 * 5)) = true.
Proof.
  intros Hlo Hhi Ft Fl Hle. pose proof top_pos as Htop.
  destruct (leb_true _ _ Hlo) as (_ & Da & H0). change (val 0) with 0%Z in H0.
  destruct (leb_true _ _ Hle) as (_ & _ & Hlt).
  destruct (sub_nonneg t last (isFinite_fin _ Ft) (isFinite_fin _ Fl) Hlt)
    as [Dd Hd].
  destruct (Math_min_spec (t - last) (1000 / 60 * 5)) as [Em Ev].
  rewrite Dd in Em. simpl in Em. specialize (Ev Dd eq_refl).
  assert (FM : fin (1000 / 60 * 5) = true) by reflexivity.
  assert (HM : (0 <= val (1000 / 60 * 5))%Z) by (vm_compute; discriminate).
  pose proof (val_fin _ FM) as BM.
  assert (Fm : fin (Math_min (t - last) (1000 / 60 * 5)) = true)
    by (apply fin_val; [exact Em|lia]).
  pose proof (below_fixed_step a Da Hhi) as Hp.
  assert (FP : fin (next_down (1000 / 60)) = true) by reflexivity.
  pose proof (val_fin _ FP) as BP.
  assert (Fa : fin a = true) by (apply fin_val; [exact Da|lia]).
  destruct (add_val _ _ Fa Fm) as [D E].
  apply leb_intro; [reflexivity|exact D|].
  rewrite E. change (val 0) with 0%Z. apply round_nonneg. lia.
Qed.

(** One tick: it returns, keeps the accumulator off the fixed step and
    above, and makes at most five [Update] calls, whatever its time stamp;
    what it leaves in the accumulator is the old accumulator plus
    [min(delta, maxAccumulator)] less one fixed step for each call.  If the
    accumulator was not negative and the time stamp is finite and not
    before a finite last one, the accumulator stays non-negative and the
    alpha rendered is in [0,1). *)
Lemma loop_inv (fuel : nat) (t : float) (g : GameLoop) :
  (5 <= fuel)%nat -> Bounded g ->
  exists g' calls,
    loop fuel t g = Some (g', calls) /\
    Bounded g' /\
    (countUpdates calls <= 5)%nat /\
    isRunning g' = isRunning g /\ isPaused g' = isPaused g /\
    (isRunning g = true -> lastTime g' = t) /\
    (isRunning g = true -> isPaused g = false ->
     calls = repeat (Update (fixedDeltaTime g)) (countUpdates calls)
             ++ [LateUpdate; Render (accumulator g' / fixedDeltaTime g)] /\
     accumulator g'
     = drain (fixedDeltaTime g) (countUpdates calls)
             (accumulator g + accumulated t g)) /\
    ((0 <=? accumulator g) = true ->
     (isRunning g = true ->
      isFinite t = true /\ isFinite (lastTime g) = true /\
      (lastTime g <=? t) = true) ->
     (0 <=? accumulator g') = true /\
     forall a, In (Render a) calls -> inUnit a).
Proof.
  intros Hfuel (Hhi & Hfix & Hmax). unfold loop.
  destruct (isRunning g) eqn:Hrun; cbn [negb].
  2:{ exists g, []. split; [reflexivity|].
      split; [repeat split; assumption|].
      split; [unfold countUpdates; simpl; lia|].
      split; [exact Hrun|]. split; [reflexivity|].
      split; [discriminate|]. split; [discriminate|].
      intros Hlo _. split; [exact Hlo|intros a []]. }
  destruct (updateFPS_frame (t - lastTime g) (set_lastTime t g))
    as (Hr & Hp & Hl & Ha & Hf & Hm).
  set (g1 := updateFPS (t - lastTime g) (set_lastTime t g)) in *.
  cbn [isRunning isPaused lastTime accumulator fixedDeltaTime maxAccumulator
       set_lastTime] in Hr, Hp, Hl, Ha, Hf, Hm.
  destruct (isPaused g1) eqn:Hpaused; cbn [negb].
  - exists g1, [Render (accumulator g1 / fixedDeltaTime g1)].
    split; [reflexivity|].
    split; [unfold Bounded; rewrite Ha, Hf, Hm; repeat split; assumption|].
    split; [unfold countUpdates; simpl; lia|].
    split; [congruence|]. split; [congruence|].
    split; [intros _; exact Hl|]. split; [intros _ H; congruence|].
    intros Hlo _. rewrite Ha, Hf, Hfix. split; [exact Hlo|].
    intros a [H|[]]. injection H as <-. rewrite Hfix in Hhi.
    apply alpha_range; assumption.
  - unfold accumulated. rewrite Hmax, Hfix. rewrite Hfix in Hhi.
    destruct (fixedUpdates_below 5 fuel
                (set_accumulator
                   (accumulator g1 + Math_min (t - lastTime g) (1000 / 60 * 5)) g1)
                (next_down (1000 / 60) + 1000 / 60 * 5))
      as (g2 & n & Hupd & Hn & Hframe & Hhi2 & Hlo2).
    + exact Hfuel.
    + cbn [fixedDeltaTime set_accumulator]. rewrite Hf, Hfix. reflexivity.
    + cbn [fixedDeltaTime set_accumulator]. rewrite Hf, Hfix.
      vm_compute. reflexivity.
    + cbn [fixedDeltaTime set_accumulator]. rewrite Hf, Hfix.
      vm_compute. reflexivity.
    + cbn [accumulator set_accumulator]. rewrite Ha.
      apply accumulated_below. exact Hhi.
    + cbn [fixedDeltaTime accumulator set_accumulator] in Hupd, Hframe, Hhi2, Hlo2.
      rewrite Hf, Hfix in Hupd, Hframe, Hhi2. rewrite Ha in Hframe, Hlo2.
      assert (Hf2 : fixedDeltaTime g2 = 1000 / 60).
      { rewrite Hframe. cbn [fixedDeltaTime set_accumulator]. congruence. }
      assert (Hm2 : maxAccumulator g2 = maxAccumulator g).
      { rewrite Hframe. cbn [maxAccumulator set_accumulator]. exact Hm. }
      assert (Hl2 : lastTime g2 = t).
      { rewrite Hframe. cbn [lastTime set_accumulator]. exact Hl. }
      assert (Hc : countUpdates
                     (repeat (Update (1000 / 60)) n
                      ++ [LateUpdate; Render (accumulator g2 / fixedDeltaTime g2)])
                   = n).
      { rewrite countUpdates_app, countUpdates_repeat.
        unfold countUpdates. simpl. lia. }
      rewrite Hupd. eexists _, _. split; [reflexivity|].
      split; [unfold Bounded; rewrite Hf2, Hm2; repeat split; congruence|].
      rewrite Hc.
      split; [exact Hn|].
      split; [rewrite Hframe; cbn [isRunning set_accumulator]; congruence|].
      split; [rewrite Hframe; cbn [isPaused set_accumulator]; congruence|].
      split; [intros _; exact Hl2|].
      split.
      * intros _ _. split; [rewrite Hf2; reflexivity|].
        rewrite Hframe at 1. reflexivity.
      * intros Hlo Hfw. destruct (Hfw eq_refl) as (Ft & Fl & Hle).
        assert (Hlo2' : (0 <=? accumulator g2) = true).
        { apply Hlo2. apply accumulated_nonneg; assumption. }
        split; [exact Hlo2'|].
        intros a H. apply in_app_or in H.
        destruct H as [H|[H|[H|[]]]]; [|discriminate|].
        -- apply repeat_spec in H. discriminate.
        -- injection H as <-. rewrite Hf2. apply alpha_range; assumption.
Qed.

Lemma step_inv (fuel : nat) (o : Op) (g : GameLoop) :
  (5 <= fuel)%nat -> Bounded g ->
  exists g' calls,
    step fuel o g = Some (g', calls) /\
    Bounded g' /\
    (countUpdates calls <= 5)%nat /\
    isRunning g' = fst (flags (isRunning g) (isPaused g) o) /\
    isPaused g' = snd (flags (isRunning g) (isPaused g) o) /\
    forall prev,
      Forward prev g ->
      match reading (isRunning g) (isPaused g) o with
      | Some t =>
          isFinite t = true /\ (prev <=? t) = true ->
          Forward t g' /\ (forall a, In (Render a) calls -> inUnit a)
      | None =>
          Forward prev g' /\ (forall a, In (Render a) calls -> inUnit a)
      end.
Proof.
  intros Hfuel Hb.
  assert (Hreset : forall now g0,
             Bounded g0 -> isFinite now = true ->
             Bounded (set_accumulator 0 (set_lastTime now g0)) /\
             Forward now (set_accumulator 0 (set_lastTime now g0))).
  { intros now g0 (Hhi & Hfix & Hmax) Fn. split.
    - split; [|split; assumption].
      cbn [fixedDeltaTime accumulator set_accumulator set_lastTime].
      rewrite Hfix. reflexivity.
    - split; [reflexivity|]. intros _.
      cbn [lastTime set_accumulator set_lastTime].
      split; [exact Fn|]. apply leb_refl_defined, isFinite_defined, Fn. }
  assert (Hkeep : forall now g0, Bounded g0 ->
             Bounded (set_accumulator 0 (set_lastTime now g0))).
  { intros now g0 (Hhi & Hfix & Hmax). split; [|split; assumption].
    cbn [fixedDeltaTime accumulator set_accumulator set_lastTime].
    rewrite Hfix. reflexivity. }
  destruct o as [now| | |now|t]; cbn [step reading flags].
  - exists (start now g), []. split; [reflexivity|].
    unfold start. destruct (isRunning g) eqn:Hrun.
    + split; [exact Hb|]. split; [unfold countUpdates; simpl; lia|].
      split; [exact Hrun|]. split; [reflexivity|].
      intros prev Hfw. split; [exact Hfw|intros a []].
    + split; [apply Hkeep; exact Hb|].
      split; [unfold countUpdates; simpl; lia|].
      split; [reflexivity|]. split; [reflexivity|].
      intros prev _ (Fn & _).
      split; [apply (Hreset now (set_flags true false g) Hb Fn)|intros a []].
  - exists (stop g), []. split; [reflexivity|].
    split; [exact Hb|]. split; [unfold countUpdates; simpl; lia|].
    split; [reflexivity|]. split; [reflexivity|].
    intros prev (Hlo & _).
    split; [split; [exact Hlo|discriminate]|intros a []].
  - exists (pause g), []. split; [reflexivity|].
    unfold pause. destruct (isPaused g) eqn:Hp; cbn [negb];
      (split; [exact Hb|]; split; [unfold countUpdates; simpl; lia|];
       split; [reflexivity|]; split; [try exact Hp; reflexivity|];
       intros prev Hfw; split; [exact Hfw|intros a []]).
  - exists (resume now g), []. split; [reflexivity|].
    unfold resume. destruct (isPaused g) eqn:Hp.
    + split; [apply Hkeep; exact Hb|].
      split; [unfold countUpdates; simpl; lia|].
      split; [reflexivity|]. split; [reflexivity|].
      intros prev _ (Fn & _).
      split; [apply (Hreset now (set_flags (isRunning g) false g) Hb Fn)
             |intros a []].
    + split; [exact Hb|]. split; [unfold countUpdates; simpl; lia|].
      split; [reflexivity|]. split; [exact Hp|].
      intros prev Hfw. split; [exact Hfw|intros a []].
  - destruct (loop_inv fuel t g Hfuel Hb)
      as (g' & calls & H1 & H2 & H3 & Hr & Hp & Hl & _ & H4).
    exists g', calls. split; [exact H1|]. split; [exact H2|].
    split; [exact H3|]. split; [exact Hr|]. split; [exact Hp|].
    intros prev (Hlo & Hlast).
    destruct (isRunning g) eqn:Hrun.
    + intros (Ft & Hle). destruct (Hlast eq_refl) as [Fl Hl'].
      destruct H4 as [Hlo' Hrender]; [exact Hlo| |].
      { intros _. split; [exact Ft|].
        split; [exact Fl|exact (leb_trans _ _ _ Hl' Hle)]. }
      split; [|exact Hrender].
      split; [exact Hlo'|]. intros _. rewrite (Hl eq_refl).
      split; [exact Ft|]. apply leb_refl_defined, isFinite_defined, Ft.
    + destruct H4 as [Hlo' Hrender]; [exact Hlo|discriminate|].
      split; [|exact Hrender].
      split; [exact Hlo'|]. rewrite Hr. discriminate.
Qed.

(** Any sequence of operations runs to its end and leaves the accumulator
    off the fixed step and above.  If the clock readings it takes in are
    finite and never go back, the accumulator is never negative and every
    alpha rendered is in [0,1). *)
Lemma run_inv (fuel : nat) (ops : list Op) :
  (5 <= fuel)%nat ->
  forall (g : GameLoop),
    Bounded g ->
    exists g' calls,
      run fuel ops g = Some (g', calls) /\
      Bounded g' /\
      forall prev,
        Forward prev g ->
        nondecreasing prev (isRunning g) (isPaused g) ops ->
        (0 <=? accumulator g') = true /\
        (forall a, In (Render a) calls -> inUnit a).
Proof.
  intros Hfuel. induction ops as [|o ops IH]; intros g Hb.
  - exists g, []. split; [reflexivity|]. split; [exact Hb|].
    intros prev (Hlo & _) _. split; [exact Hlo|intros a []].
  - destruct (step_inv fuel o g Hfuel Hb)
      as (g1 & calls1 & Hs & Hb1 & _ & Hr1 & Hp1 & Hfw1).
    destruct (IH g1 Hb1) as (g2 & calls2 & Hrun & Hb2 & Hfw2).
    exists g2, (calls1 ++ calls2). cbn [run]. rewrite Hs, Hrun.
    split; [reflexivity|]. split; [exact Hb2|].
    intros prev Hfw Hmono. cbn [nondecreasing] in Hmono.
    specialize (Hfw1 prev Hfw). rewrite <- Hr1, <- Hp1 in Hmono.
    destruct (reading (isRunning g) (isPaused g) o) as [t|].
    + destruct Hmono as (Ft & Hle & Hrest).
      destruct (Hfw1 (conj Ft Hle)) as [Hf1 Hrender1].
      destruct (Hfw2 t Hf1 Hrest) as [Hlo2 Hrender2].
      split; [exact Hlo2|].
      intros a H. apply in_app_or in H. destruct H; auto.
    + destruct Hfw1 as [Hf1 Hrender1].
      destruct (Hfw2 prev Hf1 Hmono) as [Hlo2 Hrender2].
      split; [exact Hlo2|].
      intros a H. apply in_app_or in H. destruct H; auto.
Qed.

Lemma new_bounded : Bounded new.
Proof. unfold Bounded, new; cbn. repeat split; reflexivity. Qed.





(** C6.  After any sequence of operations and whatever the time stamp of
    the next tick (a ten-second spike included), the tick returns after at
    most five [update] calls.  What it adds to the accumulator is
    [Math.min(deltaTime, maxAccumulator)], which is never above
    [maxAccumulator], the fixed step of 1000/60 ms times five; and what a
    running scheduler that is not paused leaves in the accumulator is that
    sum less one fixed step for each [update] call. *)
Theorem tick_runs_at_most_five_updates
  (fuel : nat) (ops : list Op) (t : float) :
  (5 <= fuel)%nat ->
  exists g calls g' calls',
    run fuel ops new = Some (g, calls) /\
    loop fuel t g = Some (g', calls') /\
    (countUpdates calls' <= 5)%nat /\
    (maxAccumulator g <? Math_min (t - lastTime g) (maxAccumulator g)) = false /\
    maxAccumulator g = fixedDeltaTime g * 5 /\
    fixedDeltaTime g = 1000 / 60 /\
    (isRunning g = true -> isPaused g = false ->
     accumulator g'
     = drain (fixedDeltaTime g) (countUpdates calls')
         (accumulator g + Math_min (t - lastTime g) (maxAccumulator g))).
Proof.
  intros Hfuel.
  destruct (run_inv fuel ops Hfuel new new_bounded)
    as (g & calls & Hrun & Hb & _).
  destruct (loop_inv fuel t g Hfuel Hb)
    as (g' & calls' & Hl & _ & Hc & _ & _ & _ & Hacc & _).
  exists g, calls, g', calls'.
  destruct Hb as (_ & Hfix & Hmax).
  split; [exact Hrun|]. split; [exact Hl|]. split; [exact Hc|].
  split.
  - destruct (Math_min_spec (t - lastTime g) (maxAccumulator g)) as [Em Ev].
    rewrite ltb_val.
    destruct (defined (Math_min (t - lastTime g) (maxAccumulator g))) eqn:D;
      [|rewrite andb_false_r; reflexivity].
    symmetry in Em. apply andb_prop in Em. destruct Em as [Dd DM].
    rewrite (Ev Dd DM), DM. cbn [andb]. apply Z.ltb_ge. lia.
  - split; [exact Hmax|]. split; [exact Hfix|].
    intros Hr Hp. exact (proj2 (Hacc Hr Hp)).
Qed.

Lemma tick_runs_at_most_five_updates_witness :
  exists g calls g' calls',
    run 5 [Start 0; Tick 10] new = Some (g, calls) /\
    loop 5 10010 g = Some (g', calls') /\
    (countUpdates calls' <= 5)%nat /\
    (maxAccumulator g <? Math_min (10010 - lastTime g) (maxAccumulator g)) = false /\
    maxAccumulator g = fixedDeltaTime g * 5 /\
    fixedDeltaTime g = 1000 / 60 /\
    (isRunning g = true -> isPaused g = false ->
     accumulator g'
     = drain (fixedDeltaTime g) (countUpdates calls')
         (accumulator g + Math_min (10010 - lastTime g) (maxAccumulator g))).
Proof.
  apply (tick_runs_at_most_five_updates 5 [Start 0; Tick 10] 10010).
  lia.
Defined.

(** A ten-second spike on the first tick after [start]: the cap of
    83.33333333333334 ms is consumed in four [update] calls, which leave
    16.66666666666666 ms, just below the fixed step.  The largest
    accumulator below the fixed step plus the whole cap is consumed in
    five. *)
Example spike_ten_seconds :
  match run 5 [Start 0; Tick 10000] new with
  | Some (g, calls) =>
      countUpdates calls = 4%nat /\
      accumulator g = drain (1000 / 60) 4 (0 + 1000 / 60 * 5) /\
      (accumulator g <? 1000 / 60) = true /\
      (1000 / 60 <=? drain (1000 / 60) 4 (next_down (1000 / 60) + 1000 / 60 * 5))
      = true /\
      (1000 / 60 <=? drain (1000 / 60) 5 (next_down (1000 / 60) + 1000 / 60 * 5))
      = false
  | None => False
  end.
Proof. vm_compute. repeat split; reflexivity. Qed.

(** ** More of the scheduler: time accounting, pause and resume, callbacks *)

(** The arrays [updateCallbacks], [renderCallbacks] and
    [lateUpdateCallbacks] hold function objects; a function object is
    written as its address.  [onUpdate(callback)], [onRender(callback)] and
    [onLateUpdate(callback)] all push on their array and return a handle
    that removes the first entry equal to the callback. *)
Definition register (callback : nat) (callbacks : list nat) : list nat :=
  callbacks ++ [callback].

(** [callbacks.indexOf(callback)] *)
Fixpoint indexOf (callback : nat) (callbacks : list nat) : option nat :=
  match callbacks with
  | [] => None
  | c :: rest =>
      if Nat.eqb c callback then Some O else S <$> indexOf callback rest
  end.

(** The handle returned by a registration:
    [index = callbacks.indexOf(callback);
     if (index > -1) callbacks.splice(index, 1)]. *)
Definition unsubscribe (callback : nat) (callbacks : list nat) : list nat :=
  match indexOf callback callbacks with
  | Some i => take i callbacks ++ drop (S i) callbacks
  | None => callbacks
  end.

(** [togglePause()]; [now] is the value of [performance.now()]. *)
Definition togglePause (now : float) (g : GameLoop) : GameLoop :=
  if isPaused g then resume now g else pause g.

(** X1.  After any sequence of operations, a tick of a running scheduler
    that is not paused makes some number [n] of [update] calls, at most
    five, each with the fixed step, then one [lateUpdate] call and one
    [render] call; it stamps [lastTime], and the time is accounted for as
    the code computes it: the accumulator after the tick is the accumulator
    before it plus [min(delta, maxAccumulator)], less the fixed step [n]
    times, and that is not at or above the fixed step. *)
Theorem tick_accounts_for_time (fuel : nat) (ops : list Op) (t : float) :
  (5 <= fuel)%nat ->
  exists g calls g' n,
    run fuel ops new = Some (g, calls) /\
    (isRunning g = true -> isPaused g = false ->
     loop fuel t g
     = Some (g', repeat (Update (fixedDeltaTime g)) n
                 ++ [LateUpdate;
                     Render (accumulator g' / fixedDeltaTime g)]) /\
     lastTime g' = t /\
     (n <= 5)%nat /\
     accumulator g'
     = drain (fixedDeltaTime g) n (accumulator g + accumulated t g) /\
     (fixedDeltaTime g <=? accumulator g') = false).
Proof.
  intros Hfuel.
  destruct (run_inv fuel ops Hfuel new new_bounded)
    as (g & calls & Hrun & Hb & _).
  destruct (loop_inv fuel t g Hfuel Hb)
    as (g' & calls' & Hl & Hb' & Hc & _ & _ & Hlast & Hacc & _).
  exists g, calls, g', (countUpdates calls').
  split; [exact Hrun|]. intros Hr Hp.
  destruct (Hacc Hr Hp) as [Hcalls Hdrain].
  split; [rewrite Hl; f_equal; f_equal; exact Hcalls|].
  split; [exact (Hlast Hr)|]. split; [exact Hc|]. split; [exact Hdrain|].
  destruct Hb as (_ & Hfix & _). destruct Hb' as (Hhi' & Hfix' & _).
  rewrite Hfix, <- Hfix'. exact Hhi'.
Qed.

Lemma tick_accounts_for_time_witness :
  exists g calls g' n,
    run 5 [Start 0; Tick 10] new = Some (g, calls) /\
    (isRunning g = true -> isPaused g = false ->
     loop 5 60 g
     = Some (g', repeat (Update (fixedDeltaTime g)) n
                 ++ [LateUpdate;
                     Render (accumulator g' / fixedDeltaTime g)]) /\
     lastTime g' = 60 /\
     (n <= 5)%nat /\
     accumulator g'
     = drain (fixedDeltaTime g) n (accumulator g + accumulated 60 g) /\
     (fixedDeltaTime g <=? accumulator g') = false).
Proof.
  apply (tick_accounts_for_time 5 [Start 0; Tick 10] 60). lia.
Defined.

Lemma last_nonempty (l : list float) :
  forall a d d', List.last (a :: l) d = List.last (a :: l) d'.
Proof.
  induction l as [|b l IH]; intros a d d'; [reflexivity|].
  change (List.last (b :: l) d = List.last (b :: l) d'). apply IH.
Qed.

(** X2.  While a running scheduler is paused, ticks make no [update] and no
    [lateUpdate] call: each renders once, with the same alpha, and leaves
    the accumulator as it is, whatever their time stamps. *)
Theorem paused_ticks_only_render (fuel : nat) (stamps : list float) :
  forall g,
    isRunning g = true -> isPaused g = true ->
    exists g',
      run fuel (map Tick stamps) g
      = Some (g', map (fun _ => Render (accumulator g / fixedDeltaTime g))
                    stamps) /\
      accumulator g' = accumulator g /\
      fixedDeltaTime g' = fixedDeltaTime g /\
      isRunning g' = true /\ isPaused g' = true /\
      lastTime g' = List.last stamps (lastTime g).
Proof.
  induction stamps as [|t stamps IH]; intros g Hr Hp.
  - exists g. repeat split; assumption.
  - destruct (updateFPS_frame (t - lastTime g) (set_lastTime t g))
      as (Hr1 & Hp1 & Hl1 & Ha1 & Hf1 & _).
    cbn [isRunning isPaused lastTime accumulator fixedDeltaTime set_lastTime]
      in Hr1, Hp1, Hl1, Ha1, Hf1.
    destruct (IH (updateFPS (t - lastTime g) (set_lastTime t g)))
      as (g' & Hrun & Ha & Hf & Hr' & Hp' & Hl');
      [congruence|congruence|].
    exists g'. cbn [map run step]. unfold loop at 1.
    rewrite Hr, Hp1, Hp. cbn [negb]. rewrite Hrun, Ha1, Hf1.
    split; [reflexivity|].
    split; [congruence|]. split; [congruence|].
    split; [exact Hr'|]. split; [exact Hp'|].
    rewrite Hl', Hl1. destruct stamps as [|q stamps]; [reflexivity|].
    change (List.last (t :: q :: stamps) (lastTime g))
      with (List.last (q :: stamps) (lastTime g)).
    apply last_nonempty.
Qed.

Lemma paused_ticks_only_render_witness :
  exists g',
    run 0 (map Tick [100; 5000; 90000]) (pause (start 0 new))
    = Some (g', map (fun _ => Render (accumulator (pause (start 0 new))
                                      / fixedDeltaTime (pause (start 0 new))))
                  [100; 5000; 90000]) /\
    accumulator g' = accumulator (pause (start 0 new)) /\
    fixedDeltaTime g' = fixedDeltaTime (pause (start 0 new)) /\
    isRunning g' = true /\ isPaused g' = true /\
    lastTime g' = List.last [100; 5000; 90000]
                    (lastTime (pause (start 0 new))).
Proof.
  apply (paused_ticks_only_render 0 [100; 5000; 90000] (pause (start 0 new)));
    reflexivity.
Defined.

(** X3.  The time spent paused is not caught up: after [resume()] at [now],
    the first tick, at [t], starts from an empty accumulator and the delta
    [t - now]; it makes [n] [update] calls, at most five, and leaves
    [min(t - now, maxAccumulator)] less [n] fixed steps, however long ago
    the scheduler was paused and whatever its accumulator held. *)
Theorem resume_does_not_catch_up (fuel : nat) (g : GameLoop) (now t : float) :
  (5 <= fuel)%nat -> Bounded g ->
  isRunning g = true -> isPaused g = true ->
  exists g' n,
    loop fuel t (resume now g)
    = Some (g', repeat (Update (fixedDeltaTime g)) n
                ++ [LateUpdate; Render (accumulator g' / fixedDeltaTime g)]) /\
    (n <= 5)%nat /\
    accumulator g'
    = drain (fixedDeltaTime g) n (0 + Math_min (t - now) (maxAccumulator g)).
Proof.
  intros Hfuel Hb Hr Hp.
  assert (Hres : resume now g
                 = set_accumulator 0
                     (set_lastTime now (set_flags (isRunning g) false g))).
  { unfold resume. rewrite Hp. reflexivity. }
  assert (Hb' : Bounded (resume now g)).
  { rewrite Hres. destruct Hb as (Hhi & Hfix & Hmax).
    split; [|split; assumption].
    cbn [fixedDeltaTime accumulator set_accumulator set_lastTime set_flags].
    rewrite Hfix. reflexivity. }
  destruct (loop_inv fuel t (resume now g) Hfuel Hb')
    as (g' & calls' & Hl & _ & Hc & _ & _ & _ & Hacc & _).
  exists g', (countUpdates calls').
  destruct Hacc as [Hcalls Hdrain];
    [rewrite Hres; exact Hr|rewrite Hres; reflexivity|].
  rewrite Hres in Hcalls, Hdrain.
  cbn [fixedDeltaTime accumulator maxAccumulator lastTime accumulated
       set_accumulator set_lastTime set_flags] in Hcalls, Hdrain.
  split; [rewrite Hl; f_equal; f_equal; exact Hcalls|].
  split; [exact Hc|exact Hdrain].
Qed.

Lemma resume_does_not_catch_up_witness :
  exists g' n,
    loop 5 600040 (resume 600000 (pause (start 0 new)))
    = Some (g', repeat (Update (fixedDeltaTime (pause (start 0 new)))) n
                ++ [LateUpdate;
                    Render (accumulator g'
                            / fixedDeltaTime (pause (start 0 new)))]) /\
    (n <= 5)%nat /\
    accumulator g'
    = drain (fixedDeltaTime (pause (start 0 new))) n
        (0 + Math_min (600040 - 600000)
               (maxAccumulator (pause (start 0 new)))).
Proof.
  apply (resume_does_not_catch_up 5 (pause (start 0 new)) 600000 600040).
  - lia.
  - repeat split; reflexivity.
  - reflexivity.
  - reflexivity.
Defined.

Lemma indexOf_absent (c : nat) (cbs : list nat) :
  ~ In c cbs -> indexOf c cbs = None.
Proof.
  induction cbs as [|d cbs IH]; intros H; simpl; [reflexivity|].
  destruct (Nat.eqb d c) eqn:E.
  - apply Nat.eqb_eq in E. subst. exfalso. apply H. left. reflexivity.
  - rewrite IH; [reflexivity|]. intros Hin. apply H. right. exact Hin.
Qed.

Lemma unsubscribe_first (c : nat) (pre post : list nat) :
  ~ In c pre -> unsubscribe c (pre ++ c :: post) = pre ++ post.
Proof.
  unfold unsubscribe. induction pre as [|d pre IH]; intros H; simpl.
  - rewrite Nat.eqb_refl. reflexivity.
  - destruct (Nat.eqb d c) eqn:E.
    + apply Nat.eqb_eq in E. subst. exfalso. apply H. left. reflexivity.
    + assert (Hpre : ~ In c pre) by (intros Hin; apply H; right; exact Hin).
      specialize (IH Hpre).
      destruct (indexOf c (pre ++ c :: post)) as [i|]; simpl.
      * f_equal. exact IH.
      * f_equal. exact IH.
Qed.

(** X4.  The handle of a registration is bound to the callback, not to the
    registration.  It removes the first entry equal to the callback and
    leaves the others in their order: unsubscribing a callback that was
    registered once gives back the array as it was, a handle used when the
    callback is not in the array does nothing, and when a callback was
    registered twice, each use of either handle removes one of the two
    entries. *)
Theorem unsubscribe_removes_first_entry
  (callback : nat) (callbacks : list nat) :
  ~ In callback callbacks ->
  unsubscribe callback (register callback callbacks) = callbacks /\
  unsubscribe callback callbacks = callbacks /\
  (forall others,
      unsubscribe callback (callbacks ++ callback :: others)
      = callbacks ++ others) /\
  unsubscribe callback (register callback (register callback callbacks))
  = register callback callbacks /\
  unsubscribe callback
    (unsubscribe callback (register callback (register callback callbacks)))
  = callbacks.
Proof.
  intros H.
  assert (H1 : unsubscribe callback (register callback callbacks)
               = callbacks).
  { unfold register. rewrite unsubscribe_first by exact H.
    apply app_nil_r. }
  split; [exact H1|].
  split; [unfold unsubscribe; rewrite indexOf_absent by exact H;
          reflexivity|].
  split; [intros others; apply unsubscribe_first; exact H|].
  assert (H2 : unsubscribe callback
                 (register callback (register callback callbacks))
               = register callback callbacks).
  { unfold register. rewrite <- app_assoc. simpl.
    apply unsubscribe_first. exact H. }
  split; [exact H2|]. rewrite H2. exact H1.
Qed.

Lemma unsubscribe_removes_first_entry_witness :
  (unsubscribe 7 (register 7 [3; 5]) = [3; 5] /\
   unsubscribe 7 [3; 5] = [3; 5] /\
   (forall others,
       unsubscribe 7 ([3; 5] ++ 7 :: others) = [3; 5] ++ others) /\
   unsubscribe 7 (register 7 (register 7 [3; 5])) = register 7 [3; 5] /\
   unsubscribe 7 (unsubscribe 7 (register 7 (register 7 [3; 5])))
   = [3; 5])%nat.
Proof.
  apply (unsubscribe_removes_first_entry 7%nat [3; 5]%nat).
  simpl. intros [H|[H|[]]]; discriminate.
Defined.

(** [fpsTime] after frames of the given durations: [fpsTime += deltaTime]
    for each, in their order. *)
Definition measured (ds : list float) (fpsTime : float) : float :=
  fold_left (fun s d => s + d) ds fpsTime.

(** [frameCount] after [n] frames: [frameCount++] for each. *)
Fixpoint counted (n : nat) (frameCount : float) : float :=
  match n with
  | O => frameCount
  | S n' => counted n' (frameCount + 1)
  end.

(** No frame of [ds] brings the measured time to a second. *)
Fixpoint stillOpen (fpsTime : float) (ds : list float) : bool :=
  match ds with
  | [] => true
  | d :: rest => negb (1000 <=? fpsTime + d) && stillOpen (fpsTime + d) rest
  end.

(** [updateFPS] over the frames of a sequence of ticks, given their
    [deltaTime]s. *)
Definition frames (ds : list float) (g : GameLoop) : GameLoop :=
  fold_left (fun g d => updateFPS d g) ds g.

Lemma counted_succ (n : nat) :
  forall c, counted (S n) c = counted n c + 1.
Proof.
  induction n as [|n IH]; intros c; [reflexivity|].
  change (counted (S (S n)) c) with (counted (S n) (c + 1)).
  rewrite IH. reflexivity.
Qed.

(** While the measured time stays below one second the counter only
    counts. *)
Lemma frames_open (ds : list float) :
  forall g,
    stillOpen (fpsTime g) ds = true ->
    frameCount (frames ds g) = counted (length ds) (frameCount g) /\
    fpsTime (frames ds g) = measured ds (fpsTime g) /\
    currentFPS (frames ds g) = currentFPS g.
Proof.
  induction ds as [|x ds IH]; intros g Hopen; [repeat split|].
  cbn [stillOpen] in Hopen. apply andb_prop in Hopen.
  destruct Hopen as [Hx Hrest]. apply negb_true_iff in Hx.
  assert (E : updateFPS x g
              = {| isRunning := isRunning g; isPaused := isPaused g;
                   lastTime := lastTime g; accumulator := accumulator g;
                   fixedDeltaTime := fixedDeltaTime g;
                   maxAccumulator := maxAccumulator g;
                   frameCount := frameCount g + 1;
                   fpsTime := fpsTime g + x;
                   currentFPS := currentFPS g |}).
  { unfold updateFPS. rewrite Hx. reflexivity. }
  change (frames (x :: ds) g) with (frames ds (updateFPS x g)).
  rewrite E. clear E.
  match goal with |- context [frames ds ?g1] =>
    destruct (IH g1) as (Hc & Ht & Hf); [exact Hrest|]
  end.
  cbn [frameCount fpsTime currentFPS] in Hc, Ht, Hf.
  split; [exact Hc|]. split; [exact Ht|exact Hf].
Qed.

(** X21.  The FPS counter reports frames per second of the measuring
    window that has just closed.  Starting from an empty window, frames
    that keep the measured time below a second leave [currentFPS] alone;
    the frame that brings it to a second or more sets [currentFPS] to the
    number of frames of the window times 1000 over the measured time,
    rounded as [Math.round] does, and empties the window. *)
Theorem fps_counts_frames_of_window
  (g : GameLoop) (ds : list float) (d : float) :
  frameCount g = 0 -> fpsTime g = 0 ->
  stillOpen 0 ds = true -> (1000 <=? measured (ds ++ [d]) 0) = true ->
  let g' := updateFPS d (frames ds g) in
  currentFPS (frames ds g) = currentFPS g /\
  currentFPS g'
  = Math_round (counted (S (length ds)) 0 * 1000 / measured (ds ++ [d]) 0) /\
  frameCount g' = 0 /\ fpsTime g' = 0.
Proof.
  intros Hc Ht Hopen Hclose g'.
  destruct (frames_open ds g) as (Hc' & Ht' & Hf'); [rewrite Ht; exact Hopen|].
  split; [exact Hf'|].
  assert (Em : measured (ds ++ [d]) 0 = fpsTime (frames ds g) + d).
  { unfold measured. rewrite fold_left_app. cbn [fold_left].
    rewrite Ht', Ht. reflexivity. }
  rewrite Em in Hclose |- *.
  unfold g', updateFPS. rewrite Hclose.
  cbn [currentFPS frameCount fpsTime].
  split; [|split; reflexivity].
  rewrite Hc', Hc, counted_succ. reflexivity.
Qed.

Lemma fps_counts_frames_of_window_witness :
  let g' := updateFPS 400 (frames [400; 400] new) in
  currentFPS (frames [400; 400] new) = currentFPS new /\
  currentFPS g'
  = Math_round (counted 3 0 * 1000 / measured ([400; 400] ++ [400]) 0) /\
  frameCount g' = 0 /\ fpsTime g' = 0.
Proof.
  apply (fps_counts_frames_of_window new [400; 400] 400); reflexivity.
Defined.

End GameLoop.


(* ===================================================================== *)
(** * The hierarchical state machine (src/core/StateMachine.js) *)
(* ===================================================================== *)

Module StateMachine.

Local Open Scope string_scope.

(** Embedded: [State] with [addChild], [enterChild] and [exitChild];
    [StateMachine] with [addState], [start], [transition],
    [enterNestedState], [exitCurrentState], [recordHistory],
    [processEventQueue] and [getCurrentStatePath].  Left out: [onUpdate] and
    [onEvent] with [update], [sendEvent] and [isInState], which no property
    below involves. *)

(** The [params] object handed to [onEnter]: its own properties.  The
    machine only passes it on. *)
Definition Params := list (string * string).

(** An entry of [eventQueue]: [{ type: 'transition', statePath, params }].
    [transition] is the only producer, so the type tag is left out. *)
Record Request := mkRequest {
  statePath : string;
  params : Params
}.

(** A [State] object.  State objects are shared and mutated in place, so
    they live in a store (the [heap] of a machine) and refer to one another
    by address.

    The hooks [onEnter] and [onExit] are user code.  A hook is modelled by
    what it asks of the machine: the [machine.transition] calls it makes, in
    order.  Hooks return normally and touch the machine in no other way. *)
Record State := mkState {
  name : string;
  parent : option nat;
  children : gmap string nat;
  activeChild : option nat;
  onEnter : Params -> list Request;
  onExit : list Request
}.

Inductive Level := Log | Warn | Error.

(** What the machine does that the outside can see: hook invocations and
    console output. *)
Inductive Event :=
| Entered (s : nat) (p : Params)        (* s.onEnter(p) *)
| Exited (s : nat)                      (* s.onExit()   *)
| Console (level : Level) (msg : string).

(** A [StateMachine] object, with the store of state objects and the trace
    of events so far.  History entries keep the path; their wall-clock
    time stamp is left out. *)
Record Machine := mkMachine {
  heap : list State;
  states : gmap string nat;
  rootState : option nat;
  currentState : option nat;
  history : list string;
  maxHistory : nat;
  transitioning : bool;
  eventQueue : list Request;
  trace : list Event
}.

(** [constructor()] *)
Definition new : Machine :=
  {| heap := []; states := ∅; rootState := None; currentState := None;
     history := []; maxHistory := 20; transitioning := false;
     eventQueue := []; trace := [] |}.

Definition set_heap (h : list State) (m : Machine) : Machine :=
  {| heap := h; states := states m; rootState := rootState m;
     currentState := currentState m; history := history m;
     maxHistory := maxHistory m; transitioning := transitioning m;
     eventQueue := eventQueue m; trace := trace m |}.

Definition set_currentState (c : option nat) (m : Machine) : Machine :=
  {| heap := heap m; states := states m; rootState := rootState m;
     currentState := c; history := history m;
     maxHistory := maxHistory m; transitioning := transitioning m;
     eventQueue := eventQueue m; trace := trace m |}.

Definition set_history (h : list string) (m : Machine) : Machine :=
  {| heap := heap m; states := states m; rootState := rootState m;
     currentState := currentState m; history := h;
     maxHistory := maxHistory m; transitioning := transitioning m;
     eventQueue := eventQueue m; trace := trace m |}.

Definition set_transitioning (b : bool) (m : Machine) : Machine :=
  {| heap := heap m; states := states m; rootState := rootState m;
     currentState := currentState m; history := history m;
     maxHistory := maxHistory m; transitioning := b;
     eventQueue := eventQueue m; trace := trace m |}.

Definition set_eventQueue (q : list Request) (m : Machine) : Machine :=
  {| heap := heap m; states := states m; rootState := rootState m;
     currentState := currentState m; history := history m;
     maxHistory := maxHistory m; transitioning := transitioning m;
     eventQueue := q; trace := trace m |}.

(** Append an event to the trace. *)
Definition emit (e : Event) (m : Machine) : Machine :=
  {| heap := heap m; states := states m; rootState := rootState m;
     currentState := currentState m; history := history m;
     maxHistory := maxHistory m; transitioning := transitioning m;
     eventQueue := eventQueue m; trace := (trace m ++ [e])%list |}.

Definition with_activeChild (c : option nat) (st : State) : State :=
  {| name := name st; parent := parent st; children := children st;
     activeChild := c; onEnter := onEnter st; onExit := onExit st |}.

Definition with_parent (p : option nat) (st : State) : State :=
  {| name := name st; parent := p; children := children st;
     activeChild := activeChild st; onEnter := onEnter st;
     onExit := onExit st |}.

Definition with_children (cs : gmap string nat) (st : State) : State :=
  {| name := name st; parent := parent st; children := cs;
     activeChild := activeChild st; onEnter := onEnter st;
     onExit := onExit st |}.

(** [s.activeChild = c] *)
Definition set_activeChild (s : nat) (c : option nat) (m : Machine)
  : Machine :=
  set_heap (alter (with_activeChild c) s (heap m)) m.

(** The double-quote character, for console messages. *)
Definition dq : string := String (Ascii.ascii_of_nat 34) EmptyString.

(** [str.split(sep)] for a one-character separator. *)
Fixpoint split (sep : Ascii.ascii) (s : string) : list string :=
  match s with
  | EmptyString => [EmptyString]
  | String c rest =>
      if Ascii.eqb c sep then EmptyString :: split sep rest
      else match split sep rest with
           | [] => [String c EmptyString]
           | seg :: segs => String c seg :: segs
           end
  end.

Definition dot : Ascii.ascii := Ascii.ascii_of_nat 46.

(** How a hook reaches the machine: [machine.transition(statePath, params)]. *)
Definition Callback := Machine -> Request -> option Machine.

(** Run the body of a hook: its [machine.transition] calls, in order. *)
Fixpoint runHook (call : Callback) (reqs : list Request) (m : Machine)
  : option Machine :=
  match reqs with
  | [] => Some m
  | r :: rest => m' ← call m r; runHook call rest m'
  end.

(** [s.onEnter(params)] *)
Definition invokeOnEnter (call : Callback) (s : nat) (p : Params)
  (m : Machine) : option Machine :=
  st ← heap m !! s;
  runHook call (onEnter st p) (emit (Entered s p) m).

(** [s.onExit()] *)
Definition invokeOnExit (call : Callback) (s : nat) (m : Machine)
  : option Machine :=
  st ← heap m !! s;
  runHook call (onExit st) (emit (Exited s) m).

(** [while (state.activeChild) state = state.activeChild;] from [s].
    [None] when the walk does not end within [fuel] hops. *)
Fixpoint deepestActive (fuel : nat) (h : list State) (s : nat)
  : option nat :=
  st ← h !! s;
  match activeChild st with
  | None => Some s
  | Some c =>
      match fuel with
      | O => None
      | S fuel' => deepestActive fuel' h c
      end
  end.

(** The second loop of [exitCurrentState]:
    [while (state && state !== this.currentState.parent)
       { state.onExit(); state = state.parent; }] *)
Fixpoint exitUp (fuel : nat) (call : Callback) (state : option nat)
  (m : Machine) : option Machine :=
  match state with
  | None => Some m
  | Some s =>
      c ← currentState m;
      cur ← heap m !! c;
      if decide (parent cur = Some s) then Some m
      else
        match fuel with
        | O => None
        | S fuel' =>
            m' ← invokeOnExit call s m;
            st ← heap m' !! s;
            exitUp fuel' call (parent st) m'
        end
  end.

(** [exitCurrentState()].  A walk over pointers that visits more states than
    the store holds has entered a cycle and never ends; the size of the
    store (and one more step, to leave the walk) is therefore all the fuel a
    walk that ends can need. *)
Definition exitCurrentState (call : Callback) (m : Machine)
  : option Machine :=
  match currentState m with
  | None => Some m
  | Some c =>
      leaf ← deepestActive (length (heap m)) (heap m) c;
      m1 ← exitUp (S (length (heap m))) call (Some leaf) m;
      match currentState m1 with
      | Some c' => invokeOnExit call c' m1
      | None => Some m1
      end
  end.

(** [State.exitChild()] on the state at address [s]. *)
Fixpoint exitChild (fuel : nat) (call : Callback) (s : nat) (m : Machine)
  : option Machine :=
  st ← heap m !! s;
  match activeChild st with
  | None => Some m
  | Some c =>
      cst ← heap m !! c;
      m1 ← match activeChild cst with
            | Some _ =>
                match fuel with
                | O => None
                | S fuel' => exitChild fuel' call c m
                end
            | None => Some m
            end;
      m2 ← invokeOnExit call c m1;
      Some (set_activeChild s None m2)
  end.

(** [State.enterChild(stateName, params)] on the state at address [s]. *)
Definition enterChild (call : Callback) (s : nat) (stateName : string)
  (p : Params) (m : Machine) : option Machine :=
  st ← heap m !! s;
  m1 ← match activeChild st with
        | Some _ => exitChild (length (heap m)) call s m
        | None => Some m
        end;
  st1 ← heap m1 !! s;
  match children st1 !! stateName with
  | Some child =>
      invokeOnEnter call child p (set_activeChild s (Some child) m1)
  | None =>
      Some (emit (Console Warn
                    ("State " ++ dq ++ name st1 ++ dq ++ " has no child "
                     ++ dq ++ stateName ++ dq)) m1)
  end.

(** [enterNestedState(parentState, pathParts, params)] *)
Fixpoint enterNestedState (call : Callback) (current : nat)
  (pathParts : list string) (p : Params) (m : Machine) : option Machine :=
  match pathParts with
  | [] => Some m
  | part :: rest =>
      st ← heap m !! current;
      match children st !! part with
      | Some _ =>
          m1 ← enterChild call current part p m;
          st1 ← heap m1 !! current;
          next ← activeChild st1;
          enterNestedState call next rest p m1
      | None =>
          Some (emit (Console Warn
                        ("Child state " ++ dq ++ part ++ dq
                         ++ " not found in " ++ dq ++ name st ++ dq)) m)
      end
  end.

(** [recordHistory(statePath)] *)
Definition recordHistory (path : string) (m : Machine) : Machine :=
  let h := (history m ++ [path])%list in
  set_history (if decide (maxHistory m < length h) then drop 1 h else h) m.

(** The [try] block of [transition]. *)
Definition transitionBody (call : Callback) (r : Request) (m : Machine)
  : option Machine :=
  let pathParts := split dot (statePath r) in
  let targetStateName := hd EmptyString pathParts in
  match currentState m with
  | None => Some m
  | Some c =>
      cur ← heap m !! c;
      if decide (name cur ≠ targetStateName) then
        m1 ← exitCurrentState call m;
        match states m1 !! targetStateName with
        | Some newState =>
            m2 ← invokeOnEnter call newState (params r)
                   (set_currentState (Some newState) m1);
            m3 ← (if decide (1 < length pathParts)
                   then enterNestedState call newState (drop 1 pathParts)
                          (params r) m2
                   else Some m2);
            Some (emit (Console Log
                          ("StateMachine transitioned to: " ++ statePath r))
                    (recordHistory (statePath r) m3))
        | None =>
            Some (emit (Console Error
                          ("State not found: " ++ targetStateName)) m1)
        end
      else if decide (1 < length pathParts) then
        m1 ← enterNestedState call c (drop 1 pathParts) (params r) m;
        Some (recordHistory (statePath r) m1)
      else Some m
  end.

(** The guard of [transition]: a request made while a transition is in
    flight is pushed on [eventQueue]. *)
Definition enqueue (m : Machine) (r : Request) : Machine :=
  set_eventQueue (eventQueue m ++ [r])%list m.

(** [transition(statePath, params)] and [processEventQueue()], which call
    each other.  Hooks run by the body reach the machine through
    [transition] itself.  [None] when [fuel] nested calls do not reach the
    end. *)
Fixpoint transition (fuel : nat) (m : Machine) (r : Request)
  : option Machine :=
  if transitioning m then Some (enqueue m r)
  else
    match fuel with
    | O => None
    | S fuel' =>
        m1 ← transitionBody (transition fuel') r (set_transitioning true m);
        processEventQueue fuel' (set_transitioning false m1)
    end
with processEventQueue (fuel : nat) (m : Machine) : option Machine :=
  match eventQueue m with
  | [] => Some m
  | item :: rest =>
      if transitioning m then Some m
      else
        match fuel with
        | O => None
        | S fuel' =>
            m1 ← transition fuel' (set_eventQueue rest m) item;
            processEventQueue fuel' m1
        end
  end.

(** [new State(name, machine)] with the given hooks: allocates the object
    and returns its address. *)
Definition newState (nm : string) (enter : Params -> list Request)
  (exit : list Request) (m : Machine) : nat * Machine :=
  (length (heap m),
   set_heap (heap m ++ [{| name := nm; parent := None; children := ∅;
                           activeChild := None; onEnter := enter;
                           onExit := exit |}])%list m).

(** [p.addChild(c)] *)
Definition addChild (p c : nat) (m : Machine) : option Machine :=
  cst ← heap m !! c;
  let h1 := alter (with_parent (Some p)) c (heap m) in
  pst ← h1 !! p;
  Some (set_heap
          (alter (with_children (<[name cst := c]> (children pst))) p h1) m).

(** [addState(state)] *)
Definition addState (s : nat) (m : Machine) : option Machine :=
  st ← heap m !! s;
  Some {| heap := heap m; states := <[name st := s]> (states m);
          rootState := match rootState m with
                       | Some r => Some r
                       | None => Some s
                       end;
          currentState := currentState m; history := history m;
          maxHistory := maxHistory m; transitioning := transitioning m;
          eventQueue := eventQueue m; trace := trace m |}.

(** [start(stateName, params)] *)
Definition start (fuel : nat) (stateName : string) (p : Params)
  (m : Machine) : option Machine :=
  match states m !! stateName with
  | Some s =>
      m1 ← invokeOnEnter (transition fuel) s p
             (set_currentState (Some s) m);
      Some (emit (Console Log
                    ("StateMachine started in state: " ++ stateName))
              (recordHistory stateName m1))
  | None =>
      Some (emit (Console Error
                    ("Cannot start StateMachine: state " ++ dq ++ stateName
                     ++ dq ++ " not found")) m)
  end.

(** The names along the active chain below [s], [s] first. *)
Fixpoint activeNames (fuel : nat) (h : list State) (s : nat)
  : option (list string) :=
  st ← h !! s;
  match activeChild st with
  | None => Some [name st]
  | Some c =>
      match fuel with
      | O => None
      | S fuel' => rest ← activeNames fuel' h c; Some (name st :: rest)
      end
  end.

(** [getCurrentStatePath()] *)
Definition getCurrentStatePath (m : Machine) : option string :=
  match currentState m with
  | None => Some EmptyString
  | Some c =>
      parts ← activeNames (length (heap m)) (heap m) c;
      Some (String.concat "." parts)
  end.

(** The name of the state at an address. *)
Definition nameAt (h : list State) (s : nat) : string :=
  default EmptyString (name <$> h !! s).

(** ** Hooks inside a transition *)

(** The callback that only pushes, and the callbacks that push whenever a
    transition is in flight. *)
Definition pushCall : Callback := fun m r => Some (enqueue m r).

Definition Pushes (call : Callback) : Prop :=
  forall m r, transitioning m = true -> call m r = Some (enqueue m r).

(** One transition on its own, without the replay of the queue: the flag is
    raised, the body runs with hooks that push, the flag is lowered. *)
Definition applyOne (r : Request) (m : Machine) : option Machine :=
  m1 ← transitionBody pushCall r (set_transitioning true m);
  Some (set_transitioning false m1).

(** The replay the specification describes: deferred requests are taken
    from the front of the queue and applied one by one, until the queue is
    empty; requests made meanwhile join the back of the queue. *)
Fixpoint replayFIFO (n : nat) (m : Machine) : option Machine :=
  match eventQueue m with
  | [] => Some m
  | r :: rest =>
      match n with
      | O => None
      | S n' => m1 ← applyOne r (set_eventQueue rest m); replayFIFO n' m1
      end
  end.

(** The addresses along the active chain below [s], [s] first. *)
Fixpoint activeChain (fuel : nat) (h : list State) (s : nat)
  : option (list nat) :=
  st ← h !! s;
  match activeChild st with
  | None => Some [s]
  | Some c =>
      match fuel with
      | O => None
      | S fuel' => rest ← activeChain fuel' h c; Some (s :: rest)
      end
  end.

(** Walking up from the first state of [l] along [parent] visits the
    states of [l] in order and then arrives at [final]. *)
Fixpoint ascends (h : list State) (l : list nat) (final : option nat)
  : bool :=
  match l with
  | [] => true
  | x :: rest =>
      match h !! x with
      | Some st =>
          bool_decide (parent st = match rest with
                                   | [] => final
                                   | y :: _ => Some y
                                   end)
          && ascends h rest final
      | None => false
      end
  end.

(** The active chain below the root [r] is finite, the parent pointers
    lead from its leaf back to [r], as [addChild] leaves them, and the parent
    of [r], if any, is outside the chain. *)
Definition wellLinked (h : list State) (r : nat) (chain : list nat)
  : Prop :=
  activeChain (length h) h r = Some chain /\
  exists rst,
    h !! r = Some rst /\
    ascends h (rev chain) (parent rst) = true /\
    forallb (fun x => bool_decide (parent rst ≠ Some x)) chain = true.

(** Append events to the trace. *)
Definition emits (es : list Event) (m : Machine) : Machine :=
  {| heap := heap m; states := states m; rootState := rootState m;
     currentState := currentState m; history := history m;
     maxHistory := maxHistory m; transitioning := transitioning m;
     eventQueue := eventQueue m; trace := (trace m ++ es)%list |}.

(** No hook of the machine asks for a transition. *)
Definition quiet (m : Machine) : Prop :=
  Forall (fun st => onExit st = [] /\ forall p, onEnter st p = []) (heap m).

Definition isEntered (e : Event) : bool :=
  match e with Entered _ _ => true | _ => false end.

(** ** Three machines to run *)

Definition noRequests : Params -> list Request := fun _ => [].

Definition request (path : string) : Request :=
  {| statePath := path; params := [] |}.

(** Roots [attract] (address 0) and [game] (address 1); [game] has the
    children [normalPlay] (2) and [ballEnd] (3).  Started in [attract], with
    the given [onExit] hook on [attract]; all other hooks ask for nothing. *)
Definition build (attractExit : list Request) : option Machine :=
  let '(attract, m) := newState "attract" noRequests attractExit new in
  let '(game, m) := newState "game" noRequests [] m in
  let '(normalPlay, m) := newState "normalPlay" noRequests [] m in
  let '(ballEnd, m) := newState "ballEnd" noRequests [] m in
  m ← addChild game normalPlay m;
  m ← addChild game ballEnd m;
  m ← addState attract m;
  m ← addState game m;
  start 1 "attract" [] m.

(** The machine above with quiet hooks, taken to [game.normalPlay]. *)
Definition playing : Machine :=
  default new (m ← build []; transition 1 m (request "game.normalPlay")).

(** The machine above, in [attract], whose [attract.onExit] asks for a
    transition to [game]. *)
Definition eager : Machine :=
  default new (build [request "game"]).

(** Five roots [a] to [e] and a root [z]; [a.onEnter] asks for [b], [c] and
    [d], and [b.onEnter] asks for [e].  Started in [z]. *)
Definition chatty : Machine :=
  default new
    (let '(a, m) :=
       newState "a" (fun _ => [request "b"; request "c"; request "d"]) []
         new in
     let '(b, m) := newState "b" (fun _ => [request "e"]) [] m in
     let '(c, m) := newState "c" noRequests [] m in
     let '(d, m) := newState "d" noRequests [] m in
     let '(e, m) := newState "e" noRequests [] m in
     let '(z, m) := newState "z" noRequests [] m in
     m ← addState a m; m ← addState b m; m ← addState c m;
     m ← addState d m; m ← addState e m; m ← addState z m;
     start 1 "z" [] m).

(** The four states of [build], with a [game.onEnter] that asks for
    [game.normalPlay] as the hooks of the repository start a ball; taken to
    [game] and then to [game.ballEnd]. *)
Definition relaunching : Machine :=
  default new
    (let '(attract, m) := newState "attract" noRequests [] new in
     let '(game, m) :=
       newState "game" (fun _ => [request "game.normalPlay"]) [] m in
     let '(normalPlay, m) := newState "normalPlay" noRequests [] m in
     let '(ballEnd, m) := newState "ballEnd" noRequests [] m in
     m ← addChild game normalPlay m;
     m ← addChild game ballEnd m;
     m ← addState attract m;
     m ← addState game m;
     m ← start 1 "attract" [] m;
     m ← transition 4 m (request "game");
     transition 4 m (request "game.ballEnd")).

(** ** Properties of the state machine *)

Lemma transition_pushes (fuel : nat) : Pushes (transition fuel).
Proof. intros m r H. destruct fuel; simpl; rewrite H; reflexivity. Qed.

(** A hook run with the pushing callback appends its requests to the
    queue and changes nothing else. *)
Lemma runHook_push (reqs : list Request) :
  forall m,
    runHook pushCall reqs m
    = Some (set_eventQueue (eventQueue m ++ reqs)%list m).
Proof.
  induction reqs as [|r reqs IH]; intros m; simpl.
  - rewrite app_nil_r. destruct m; reflexivity.
  - rewrite IH. unfold enqueue, set_eventQueue; simpl.
    rewrite <- app_assoc. reflexivity.
Qed.

Lemma runHook_tame (call : Callback) (reqs : list Request) :
  Pushes call ->
  forall m, transitioning m = true ->
            runHook call reqs m = runHook pushCall reqs m.
Proof.
  intros Hc. induction reqs as [|r reqs IH]; intros m Hm; simpl.
  - reflexivity.
  - rewrite (Hc m r Hm). simpl. apply IH. exact Hm.
Qed.

Lemma invokeOnExit_push (s : nat) (m : Machine) :
  invokeOnExit pushCall s m
  = st ← heap m !! s;
    Some (set_eventQueue (eventQueue m ++ onExit st)%list
            (emit (Exited s) m)).
Proof.
  unfold invokeOnExit. destruct (heap m !! s); simpl; [|reflexivity].
  rewrite runHook_push. reflexivity.
Qed.

Lemma invokeOnEnter_push (s : nat) (p : Params) (m : Machine) :
  invokeOnEnter pushCall s p m
  = st ← heap m !! s;
    Some (set_eventQueue (eventQueue m ++ onEnter st p)%list
            (emit (Entered s p) m)).
Proof.
  unfold invokeOnEnter. destruct (heap m !! s); simpl; [|reflexivity].
  rewrite runHook_push. reflexivity.
Qed.

Lemma invokeOnExit_tame (call : Callback) (s : nat) (m : Machine) :
  Pushes call -> transitioning m = true ->
  invokeOnExit call s m = invokeOnExit pushCall s m.
Proof.
  intros Hc Hm. unfold invokeOnExit.
  destruct (heap m !! s); simpl; [|reflexivity].
  apply runHook_tame; assumption.
Qed.

Lemma invokeOnEnter_tame (call : Callback) (s : nat) (p : Params)
  (m : Machine) :
  Pushes call -> transitioning m = true ->
  invokeOnEnter call s p m = invokeOnEnter pushCall s p m.
Proof.
  intros Hc Hm. unfold invokeOnEnter.
  destruct (heap m !! s); simpl; [|reflexivity].
  apply runHook_tame; assumption.
Qed.

Lemma invokeOnExit_flag (s : nat) (m m' : Machine) :
  invokeOnExit pushCall s m = Some m' ->
  transitioning m' = transitioning m.
Proof.
  rewrite invokeOnExit_push. destruct (heap m !! s); simpl; [|discriminate].
  intros [= <-]. reflexivity.
Qed.

Lemma invokeOnEnter_flag (s : nat) (p : Params) (m m' : Machine) :
  invokeOnEnter pushCall s p m = Some m' ->
  transitioning m' = transitioning m.
Proof.
  rewrite invokeOnEnter_push. destruct (heap m !! s); simpl; [|discriminate].
  intros [= <-]. reflexivity.
Qed.

(** Take apart the hypotheses [(x ← e; k) = Some _] along their binds and
    matches. *)
Ltac breaks :=
  repeat
    match goal with
    | H : mbind _ ?e = Some _ |- _ =>
        let E := fresh "E" in
        destruct e eqn:E; simpl in H; [|discriminate H]
    | H : match ?e with _ => _ end = Some _ |- _ =>
        let E := fresh "E" in
        destruct e eqn:E; simpl in H; try discriminate H
    | H : Some _ = Some _ |- _ => injection H as H
    end.

Lemma exitUp_flag (fuel : nat) :
  forall state m m',
    exitUp fuel pushCall state m = Some m' ->
    transitioning m' = transitioning m.
Proof.
  induction fuel as [|fuel IH]; intros state m m' H;
    destruct state as [s|]; simpl in H; breaks; subst; try reflexivity.
  apply IH in H. rewrite H. eapply invokeOnExit_flag; eassumption.
Qed.

Lemma exitUp_tame (call : Callback) (fuel : nat) :
  Pushes call ->
  forall state m,
    transitioning m = true ->
    exitUp fuel call state m = exitUp fuel pushCall state m.
Proof.
  intros Hc. induction fuel as [|fuel IH]; intros state m Hm;
    destruct state as [s|]; simpl; try reflexivity.
  destruct (currentState m) as [c|]; simpl; [|reflexivity].
  destruct (heap m !! c) as [cur|]; simpl; [|reflexivity].
  destruct (decide (parent cur = Some s)); [reflexivity|].
  rewrite (invokeOnExit_tame call) by assumption.
  destruct (invokeOnExit pushCall s m) as [m1|] eqn:E; simpl; [|reflexivity].
  destruct (heap m1 !! s) as [st|]; simpl; [|reflexivity].
  apply IH. rewrite (invokeOnExit_flag _ _ _ E). exact Hm.
Qed.

Lemma exitCurrentState_flag (m m' : Machine) :
  exitCurrentState pushCall m = Some m' ->
  transitioning m' = transitioning m.
Proof.
  unfold exitCurrentState. generalize (S (length (heap m))).
  intros fuel H. breaks; subst; try reflexivity.
  - apply invokeOnExit_flag in H. rewrite H.
    eapply exitUp_flag; eassumption.
  - eapply exitUp_flag; eassumption.
Qed.

Lemma exitCurrentState_tame (call : Callback) (m : Machine) :
  Pushes call -> transitioning m = true ->
  exitCurrentState call m = exitCurrentState pushCall m.
Proof.
  intros Hc Hm. unfold exitCurrentState. generalize (S (length (heap m))).
  intros fuel.
  destruct (currentState m) as [c|]; [|reflexivity].
  destruct (deepestActive _ _ c) as [leaf|]; cbn [mbind option_bind];
    [|reflexivity].
  rewrite (exitUp_tame call) by assumption.
  destruct (exitUp _ pushCall _ m) as [m1|] eqn:E; simpl; [|reflexivity].
  destruct (currentState m1); [|reflexivity].
  apply invokeOnExit_tame; [assumption|].
  rewrite (exitUp_flag _ _ _ _ E). exact Hm.
Qed.

Lemma exitChild_flag (fuel : nat) :
  forall s m m',
    exitChild fuel pushCall s m = Some m' ->
    transitioning m' = transitioning m.
Proof.
  induction fuel as [|fuel IH]; intros s m m' H; simpl in H; breaks;
    subst; simpl;
    repeat match goal with
           | E : invokeOnExit _ _ _ = Some _ |- _ =>
               apply invokeOnExit_flag in E; rewrite E; clear E
           | E : exitChild _ _ _ _ = Some _ |- _ =>
               apply IH in E; rewrite E; clear E
           end; reflexivity.
Qed.

Lemma exitChild_tame (call : Callback) (fuel : nat) :
  Pushes call ->
  forall s m,
    transitioning m = true ->
    exitChild fuel call s m = exitChild fuel pushCall s m.
Proof.
  intros Hc. induction fuel as [|fuel IH]; intros s m Hm; simpl.
  - destruct (heap m !! s) as [st|]; simpl; [|reflexivity].
    destruct (activeChild st) as [c|]; [|reflexivity].
    destruct (heap m !! c) as [cst|]; simpl; [|reflexivity].
    destruct (activeChild cst); simpl; [reflexivity|].
    rewrite (invokeOnExit_tame call) by assumption. reflexivity.
  - destruct (heap m !! s) as [st|]; simpl; [|reflexivity].
    destruct (activeChild st) as [c|]; [|reflexivity].
    destruct (heap m !! c) as [cst|]; simpl; [|reflexivity].
    destruct (activeChild cst); simpl.
    + rewrite IH by assumption.
      destruct (exitChild fuel pushCall c m) as [m1|] eqn:E; simpl;
        [|reflexivity].
      rewrite (invokeOnExit_tame call); [reflexivity|assumption|].
      rewrite (exitChild_flag _ _ _ _ E). exact Hm.
    + rewrite (invokeOnExit_tame call) by assumption. reflexivity.
Qed.

Lemma enterChild_flag (s : nat) (nm : string) (p : Params)
  (m m' : Machine) :
  enterChild pushCall s nm p m = Some m' ->
  transitioning m' = transitioning m.
Proof.
  unfold enterChild. intros H. breaks; subst;
    repeat match goal with
           | E : invokeOnEnter _ _ _ _ = Some _ |- _ =>
               apply invokeOnEnter_flag in E; simpl in E
           | E : exitChild _ _ _ _ = Some _ |- _ =>
               apply exitChild_flag in E
           end; simpl; congruence.
Qed.

Lemma enterChild_tame (call : Callback) (s : nat) (nm : string)
  (p : Params) (m : Machine) :
  Pushes call -> transitioning m = true ->
  enterChild call s nm p m = enterChild pushCall s nm p m.
Proof.
  intros Hc Hm. unfold enterChild.
  destruct (heap m !! s) as [st|]; simpl; [|reflexivity].
  assert (Hx : forall m1,
             transitioning m1 = true ->
             (st1 ← heap m1 !! s;
              match children st1 !! nm with
              | Some child =>
                  invokeOnEnter call child p
                    (set_activeChild s (Some child) m1)
              | None =>
                  Some (emit (Console Warn
                                ("State " ++ dq ++ name st1 ++ dq ++
                                 " has no child " ++ dq ++ nm ++ dq)) m1)
              end)
             = (st1 ← heap m1 !! s;
                match children st1 !! nm with
                | Some child =>
                    invokeOnEnter pushCall child p
                      (set_activeChild s (Some child) m1)
                | None =>
                    Some (emit (Console Warn
                                  ("State " ++ dq ++ name st1 ++ dq ++
                                   " has no child " ++ dq ++ nm ++ dq)) m1)
                end)).
  { intros m1 Hm1. destruct (heap m1 !! s) as [st1|]; simpl; [|reflexivity].
    destruct (children st1 !! nm); [|reflexivity].
    apply invokeOnEnter_tame; assumption. }
  destruct (activeChild st); simpl.
  - rewrite (exitChild_tame call) by assumption.
    destruct (exitChild _ pushCall s m) as [m1|] eqn:E; simpl; [|reflexivity].
    apply Hx. rewrite (exitChild_flag _ _ _ _ E). exact Hm.
  - apply Hx. exact Hm.
Qed.

Lemma enterNestedState_flag (parts : list string) (p : Params) :
  forall cur m m',
    enterNestedState pushCall cur parts p m = Some m' ->
    transitioning m' = transitioning m.
Proof.
  induction parts as [|part parts IH]; intros cur m m' H; simpl in H;
    breaks; subst; try reflexivity.
  apply IH in H. rewrite H. eapply enterChild_flag; eassumption.
Qed.

Lemma enterNestedState_tame (call : Callback) (parts : list string)
  (p : Params) :
  Pushes call ->
  forall cur m,
    transitioning m = true ->
    enterNestedState call cur parts p m
    = enterNestedState pushCall cur parts p m.
Proof.
  intros Hc. induction parts as [|part parts IH]; intros cur m Hm; simpl.
  - reflexivity.
  - destruct (heap m !! cur) as [st|]; simpl; [|reflexivity].
    destruct (children st !! part); [|reflexivity].
    rewrite (enterChild_tame call) by assumption.
    destruct (enterChild pushCall cur part p m) as [m1|] eqn:E; simpl;
      [|reflexivity].
    destruct (heap m1 !! cur) as [st1|]; simpl; [|reflexivity].
    destruct (activeChild st1); simpl; [|reflexivity].
    apply IH. rewrite (enterChild_flag _ _ _ _ _ E). exact Hm.
Qed.

Lemma transitionBody_flag (r : Request) (m m' : Machine) :
  transitionBody pushCall r m = Some m' ->
  transitioning m' = transitioning m.
Proof.
  unfold transitionBody. intros H. breaks; subst;
    repeat match goal with
           | E : invokeOnEnter _ _ _ _ = Some _ |- _ =>
               apply invokeOnEnter_flag in E; simpl in E
           | E : enterNestedState _ _ _ _ _ = Some _ |- _ =>
               apply enterNestedState_flag in E
           | E : exitCurrentState _ _ = Some _ |- _ =>
               apply exitCurrentState_flag in E
           end; simpl; congruence.
Qed.

Lemma transitionBody_tame (call : Callback) (r : Request) (m : Machine) :
  Pushes call -> transitioning m = true ->
  transitionBody call r m = transitionBody pushCall r m.
Proof.
  intros Hc Hm. unfold transitionBody.
  destruct (currentState m) as [c|]; [|reflexivity].
  destruct (heap m !! c) as [cur|]; simpl; [|reflexivity].
  destruct (decide (name cur ≠ _)).
  - rewrite (exitCurrentState_tame call) by assumption.
    destruct (exitCurrentState pushCall m) as [m1|] eqn:E1; simpl;
      [|reflexivity].
    apply exitCurrentState_flag in E1.
    destruct (states m1 !! _) as [ns|]; [|reflexivity].
    rewrite (invokeOnEnter_tame call); [|assumption|simpl; congruence].
    destruct (invokeOnEnter pushCall ns _ _) as [m2|] eqn:E2; simpl;
      [|reflexivity].
    apply invokeOnEnter_flag in E2. simpl in E2.
    destruct (decide (1 < _)); [|reflexivity].
    rewrite (enterNestedState_tame call); [reflexivity|assumption|congruence].
  - destruct (decide (1 < _)); [|reflexivity].
    rewrite (enterNestedState_tame call) by assumption. reflexivity.
Qed.

Lemma transition_S (fuel : nat) (m : Machine) (r : Request) :
  transitioning m = false ->
  transition (S fuel) m r
  = m1 ← applyOne r m; processEventQueue fuel m1.
Proof.
  intros H. simpl. rewrite H. unfold applyOne.
  rewrite (transitionBody_tame (transition fuel));
    [|apply transition_pushes|reflexivity].
  destruct (transitionBody pushCall r _); reflexivity.
Qed.

Lemma processEventQueue_nil (fuel : nat) (m : Machine) :
  eventQueue m = [] -> processEventQueue fuel m = Some m.
Proof. intros H. destruct fuel; simpl; rewrite H; reflexivity. Qed.

Lemma processEventQueue_S (fuel : nat) (m : Machine) (r : Request)
  (rest : list Request) :
  eventQueue m = r :: rest -> transitioning m = false ->
  processEventQueue (S fuel) m
  = m1 ← transition fuel (set_eventQueue rest m) r;
    processEventQueue fuel m1.
Proof. intros Hq Hf. simpl. rewrite Hq, Hf. reflexivity. Qed.

Lemma applyOne_flag (r : Request) (m m' : Machine) :
  applyOne r m = Some m' -> transitioning m' = false.
Proof. unfold applyOne. intros H. breaks. subst. reflexivity. Qed.

(** A transition that returns leaves the queue empty and the flag down. *)
Lemma transition_drains (fuel : nat) :
  (forall m r m',
      transitioning m = false -> transition fuel m r = Some m' ->
      eventQueue m' = [] /\ transitioning m' = false) /\
  (forall m m',
      transitioning m = false -> processEventQueue fuel m = Some m' ->
      eventQueue m' = [] /\ transitioning m' = false).
Proof.
  induction fuel as [|fuel [IHt IHp]]; split.
  - intros m r m' Hf H. simpl in H. rewrite Hf in H. discriminate.
  - intros m m' Hf H. simpl in H. rewrite Hf in H.
    destruct (eventQueue m) eqn:Hq; [|discriminate].
    injection H as <-. auto.
  - intros m r m' Hf H. rewrite transition_S in H by assumption.
    destruct (applyOne r m) as [m1|] eqn:E; simpl in H; [|discriminate].
    apply (IHp m1 m'); [|assumption].
    eapply applyOne_flag; eassumption.
  - intros m m' Hf H.
    destruct (eventQueue m) as [|r rest] eqn:Hq.
    + rewrite processEventQueue_nil in H by assumption.
      injection H as <-. auto.
    + rewrite (processEventQueue_S _ _ _ _ Hq Hf) in H.
      destruct (transition fuel _ r) as [m1|] eqn:E; simpl in H;
        [|discriminate].
      apply IHt in E; [|exact Hf]. destruct E as [Hq1 Hf1].
      apply (IHp m1 m'); assumption.
Qed.

(** The nested calls of [transition] and [processEventQueue] amount to the
    replay of the queue front to back. *)
Lemma transition_replays (fuel : nat) :
  (forall m r m',
      transitioning m = false -> transition fuel m r = Some m' ->
      exists n, (m1 ← applyOne r m; replayFIFO n m1) = Some m') /\
  (forall m m',
      transitioning m = false -> processEventQueue fuel m = Some m' ->
      exists n, replayFIFO n m = Some m').
Proof.
  induction fuel as [|fuel [IHt IHp]]; split.
  - intros m r m' Hf H. simpl in H. rewrite Hf in H. discriminate.
  - intros m m' Hf H. simpl in H. rewrite Hf in H.
    destruct (eventQueue m) eqn:Hq; [|discriminate].
    injection H as <-. exists O. simpl. rewrite Hq. reflexivity.
  - intros m r m' Hf H. rewrite transition_S in H by assumption.
    destruct (applyOne r m) as [m1|] eqn:E; simpl in H; [|discriminate].
    destruct (IHp m1 m') as [n Hn]; [|assumption|].
    + eapply applyOne_flag; eassumption.
    + exists n. simpl. exact Hn.
  - intros m m' Hf H.
    destruct (eventQueue m) as [|r rest] eqn:Hq.
    + rewrite processEventQueue_nil in H by assumption.
      injection H as <-. exists O. simpl. rewrite Hq. reflexivity.
    + rewrite (processEventQueue_S _ _ _ _ Hq Hf) in H.
      destruct (transition fuel _ r) as [m1|] eqn:E; simpl in H;
        [|discriminate].
      destruct (proj1 (transition_drains fuel) (set_eventQueue rest m) _ _ Hf E)
        as [Hq1 Hf1].
      rewrite processEventQueue_nil in H by assumption.
      injection H as <-.
      destruct (IHt (set_eventQueue rest m) _ _ Hf E) as [n Hn].
      exists (S n). simpl. rewrite Hq. exact Hn.
Qed.

(** Conversely, when the replay front to back comes to an end, so do the
    nested calls, with the same machine. *)
Lemma replay_is_reached (n : nat) :
  forall m m',
    transitioning m = false -> replayFIFO n m = Some m' ->
    exists fuel, processEventQueue fuel m = Some m'.
Proof.
  induction n as [|n IH]; intros m m' Hf H; simpl in H.
  - destruct (eventQueue m) eqn:Hq; [|discriminate].
    injection H as <-. exists O. apply processEventQueue_nil. exact Hq.
  - destruct (eventQueue m) as [|r rest] eqn:Hq.
    + injection H as <-. exists O. apply processEventQueue_nil. exact Hq.
    + destruct (applyOne r (set_eventQueue rest m)) as [m1|] eqn:E;
        simpl in H; [|discriminate].
      destruct (IH m1 m') as [fuel Hfuel]; [|assumption|].
      { eapply applyOne_flag; eassumption. }
      exists (S (S fuel)).
      rewrite (processEventQueue_S _ _ _ _ Hq Hf).
      rewrite transition_S by exact Hf. rewrite E.
      cbn [mbind option_bind]. rewrite Hfuel. cbn [mbind option_bind].
      apply processEventQueue_nil.
      apply (proj2 (transition_drains fuel) m1 m'); [|assumption].
      eapply applyOne_flag; eassumption.
Qed.

(** *** Machines whose hooks ask for nothing *)

Lemma emits_emits (es1 es2 : list Event) (m : Machine) :
  emits es2 (emits es1 m) = emits (es1 ++ es2) m.
Proof. unfold emits; simpl. rewrite <- app_assoc. reflexivity. Qed.

Lemma invokeOnExit_quiet (s : nat) (st : State) (m : Machine) :
  quiet m -> heap m !! s = Some st ->
  invokeOnExit pushCall s m = Some (emits [Exited s] m).
Proof.
  intros Hq Hs. rewrite invokeOnExit_push, Hs. simpl.
  unfold quiet in Hq. rewrite Forall_lookup in Hq.
  destruct (Hq s st Hs) as [-> _].
  unfold set_eventQueue, emit, emits; simpl. rewrite app_nil_r.
  reflexivity.
Qed.

Lemma invokeOnEnter_quiet (s : nat) (st : State) (p : Params)
  (m : Machine) :
  quiet m -> heap m !! s = Some st ->
  invokeOnEnter pushCall s p m = Some (emits [Entered s p] m).
Proof.
  intros Hq Hs. rewrite invokeOnEnter_push, Hs. simpl.
  unfold quiet in Hq. rewrite Forall_lookup in Hq.
  destruct (Hq s st Hs) as [_ ->].
  unfold set_eventQueue, emit, emits; simpl. rewrite app_nil_r.
  reflexivity.
Qed.

(** The walk up of [exitCurrentState] along well-kept parent pointers: every
    state of [l] gets [onExit], in order, and nothing else changes. *)
Lemma exitUp_ascends (r : nat) (rst : State) (l : list nat) :
  forall (fuel : nat) (x : nat) (m : Machine),
    quiet m ->
    currentState m = Some r -> heap m !! r = Some rst ->
    forallb (fun y => bool_decide (parent rst ≠ Some y)) (x :: l) = true ->
    ascends (heap m) (x :: l) (parent rst) = true ->
    length (x :: l) <= fuel ->
    exitUp fuel pushCall (Some x) m
    = Some (emits (map Exited (x :: l)) m).
Proof.
  induction l as [|y l IH]; intros fuel x m Hq Hc Hr Hout Hasc Hfuel;
    (destruct fuel as [|fuel]; [simpl in Hfuel; lia|]);
    simpl in Hout, Hasc;
    destruct (heap m !! x) as [st|] eqn:Hx; try discriminate;
    apply andb_prop in Hout as [Hout1 Hout2];
    apply andb_prop in Hasc as [Hasc1 Hasc2];
    apply bool_decide_eq_true in Hout1, Hasc1;
    simpl; rewrite Hc; simpl; rewrite Hr; simpl;
    (destruct (decide (parent rst = Some x)); [contradiction|]);
    rewrite (invokeOnExit_quiet x st m Hq Hx); simpl; rewrite Hx; simpl;
    rewrite Hasc1.
  - destruct (parent rst) as [q|] eqn:Hp.
    + destruct fuel; simpl; rewrite Hc; simpl; rewrite Hr; simpl;
        rewrite Hp; (destruct (decide (Some q = Some q)); [|contradiction]);
        reflexivity.
    + destruct fuel; reflexivity.
  - rewrite (IH fuel y (emits [Exited x] m) Hq Hc Hr Hout2 Hasc2).
    + rewrite emits_emits. reflexivity.
    + simpl in Hfuel |- *. lia.
Qed.

Lemma activeChain_length (fuel : nat) (h : list State) :
  forall s chain,
    activeChain fuel h s = Some chain -> length chain <= S fuel.
Proof.
  induction fuel as [|fuel IH]; intros s chain H; simpl in H; breaks;
    subst; simpl; try lia.
  apply IH in E1. lia.
Qed.

Lemma activeChain_leaf (fuel : nat) (h : list State) :
  forall s chain,
    activeChain fuel h s = Some chain ->
    chain <> [] /\ head chain = Some s /\
    deepestActive fuel h s = head (rev chain).
Proof.
  induction fuel as [|fuel IH]; intros s chain H; simpl in H; breaks;
    subst; simpl; rewrite ?E; simpl; rewrite ?E0; auto.
  destruct (IH _ _ E1) as (Hne & Hhd & Hdeep).
  split; [discriminate|]. split; [reflexivity|].
  rewrite Hdeep. destruct (rev l) eqn:Hrev; [|reflexivity].
  apply (f_equal (@rev nat)) in Hrev. rewrite rev_involutive in Hrev.
  contradiction.
Qed.

Lemma activeNames_defined (fuel : nat) (h : list State) :
  forall s chain,
    activeChain fuel h s = Some chain ->
    exists names, activeNames fuel h s = Some names.
Proof.
  induction fuel as [|fuel IH]; intros s chain H; simpl in H; breaks;
    subst; simpl; rewrite ?E; simpl; rewrite ?E0; eauto.
  destruct (IH _ _ E1) as [names ->]. simpl. eauto.
Qed.

(** The names along the active chain are the names of its states. *)
Lemma activeNames_chain (fuel : nat) (h : list State) :
  forall s chain,
    activeChain fuel h s = Some chain ->
    activeNames fuel h s = Some (map (nameAt h) chain).
Proof.
  induction fuel as [|fuel IH]; intros s chain H; simpl in H |- *;
    destruct (h !! s) as [st|] eqn:Es; simpl in H |- *; try discriminate;
    destruct (activeChild st) as [c|]; try discriminate.
  - injection H as <-. simpl. unfold nameAt. rewrite Es. reflexivity.
  - destruct (activeChain fuel h c) as [rest|] eqn:E; simpl in H;
      [|discriminate].
    injection H as <-. rewrite (IH c rest E). simpl.
    unfold nameAt at 2. rewrite Es. reflexivity.
  - injection H as <-. simpl. unfold nameAt. rewrite Es. reflexivity.
Qed.

(** [exitCurrentState] on a machine whose hooks ask for nothing: [onExit]
    is invoked on every state of the active chain, leaf first, and once more
    on the root; no state object changes, no [activeChild] is cleared. *)
Lemma exitCurrentState_quiet (m : Machine) (r : nat) (chain : list nat) :
  quiet m -> currentState m = Some r -> wellLinked (heap m) r chain ->
  exitCurrentState pushCall m
  = Some (emits (map Exited (rev chain ++ [r])) m).
Proof.
  intros Hq Hc (Hchain & rst & Hr & Hasc & Hout).
  unfold exitCurrentState. rewrite Hc.
  destruct (activeChain_leaf _ _ _ _ Hchain) as (Hne & _ & ->).
  pose proof (activeChain_length _ _ _ _ Hchain) as Hlen.
  assert (Hout' : forallb (fun y => bool_decide (parent rst ≠ Some y))
                    (rev chain) = true).
  { rewrite forallb_forall in Hout |- *. intros y Hy.
    apply Hout. apply in_rev. exact Hy. }
  rewrite <- length_rev in Hlen.
  destruct (rev chain) as [|x l] eqn:Hrev.
  { apply (f_equal (@rev nat)) in Hrev. rewrite rev_involutive in Hrev.
    contradiction. }
  change (head (x :: l)) with (Some x). cbn [mbind option_bind].
  rewrite (exitUp_ascends r rst l _ x m Hq Hc Hr Hout' Hasc Hlen).
  cbn [mbind option_bind]. change (currentState (emits _ m))
    with (currentState m). rewrite Hc.
  rewrite (invokeOnExit_quiet r rst (emits (map Exited (x :: l)) m) Hq Hr),
    emits_emits.
  rewrite map_app. reflexivity.
Qed.

(** A transition by bare name to another registered root, on a machine at
    rest whose hooks ask for nothing: the active chain gets [onExit], the new
    root gets [onEnter], and no state object changes. *)
Lemma root_change_quiet (fuel : nat) (m : Machine) (r ns : nat)
  (rst nst : State) (chain : list nat) (target : string) (p : Params) :
  transitioning m = false -> eventQueue m = [] -> quiet m ->
  currentState m = Some r -> heap m !! r = Some rst ->
  wellLinked (heap m) r chain ->
  split dot target = [target] -> name rst ≠ target ->
  states m !! target = Some ns -> heap m !! ns = Some nst ->
  exists m',
    transition (S fuel) m (mkRequest target p) = Some m' /\
    heap m' = heap m /\ states m' = states m /\
    currentState m' = Some ns /\
    transitioning m' = false /\ eventQueue m' = [] /\
    trace m' = (trace m ++ map Exited (rev chain ++ [r])
                ++ [Entered ns p;
                    Console Log ("StateMachine transitioned to: "
                                 ++ target)])%list.
Proof.
  intros Hf Hqueue Hq Hc Hr Hwl Hsplit Hname Hns Hnst.
  rewrite transition_S by exact Hf.
  unfold applyOne, transitionBody.
  cbn [statePath params currentState set_transitioning heap].
  rewrite Hc, Hr, Hsplit. cbn [mbind option_bind hd].
  destruct (decide (name rst ≠ target)) as [_|]; [|contradiction].
  rewrite (exitCurrentState_quiet (set_transitioning true m) r chain Hq Hc Hwl).
  cbn [mbind option_bind states emits set_transitioning].
  rewrite Hns.
  rewrite (invokeOnEnter_quiet ns nst p
             (set_currentState (Some ns)
                (emits (map Exited (rev chain ++ [r]))
                   (set_transitioning true m))) Hq Hnst).
  cbn [mbind option_bind].
  destruct (decide (1 < length [target])) as [Hlt|_];
    [simpl in Hlt; lia|].
  cbn [mbind option_bind].
  eexists. split.
  - apply processEventQueue_nil. simpl. exact Hqueue.
  - simpl. repeat split; try assumption.
    rewrite <- !app_assoc. reflexivity.
Qed.

(** A transition to a root that is not registered, on a machine at rest
    whose hooks ask for nothing: the pointers and the history stay, but the
    whole active chain has been given [onExit] before the target is looked
    up. *)
Lemma unknown_root_quiet (fuel : nat) (m : Machine) (r : nat)
  (rst : State) (chain : list nat) (path : string) (p : Params) :
  transitioning m = false -> eventQueue m = [] -> quiet m ->
  currentState m = Some r -> heap m !! r = Some rst ->
  wellLinked (heap m) r chain ->
  name rst ≠ hd EmptyString (split dot path) ->
  states m !! hd EmptyString (split dot path) = None ->
  exists m',
    transition (S fuel) m (mkRequest path p) = Some m' /\
    heap m' = heap m /\ currentState m' = currentState m /\
    history m' = history m /\
    trace m' = (trace m ++ map Exited (rev chain ++ [r])
                ++ [Console Error ("State not found: "
                                   ++ hd EmptyString (split dot path))])%list.
Proof.
  intros Hf Hqueue Hq Hc Hr Hwl Hname Hns.
  rewrite transition_S by exact Hf.
  unfold applyOne, transitionBody.
  cbn [statePath params currentState set_transitioning heap].
  rewrite Hc, Hr. cbn [mbind option_bind].
  destruct (decide (name rst ≠ hd EmptyString (split dot path)))
    as [_|]; [|contradiction].
  rewrite (exitCurrentState_quiet (set_transitioning true m) r chain Hq Hc Hwl).
  cbn [mbind option_bind states emits set_transitioning].
  rewrite Hns. cbn [mbind option_bind].
  eexists. split.
  - apply processEventQueue_nil. simpl. exact Hqueue.
  - simpl. repeat split; try assumption.
    rewrite <- !app_assoc. reflexivity.
Qed.

(** C2 (the code departs from the claim).  [transition] exits the current
    hierarchy before it looks the target root up.  On [playing], at rest in
    [game.normalPlay] with hooks that ask for nothing, a transition to the
    unregistered root [bogus] invokes [onExit] on [normalPlay] and twice on
    [game], then logs the error; the machine still reports
    [game.normalPlay].  On [eager], at rest in [attract], the same call runs
    [attract.onExit], whose request is queued and replayed: the machine ends
    in [game]. *)
Theorem unknown_root_exits_current_hierarchy :
  (exists m',
      transition 1 playing (request "bogus") = Some m' /\
      trace m' = (trace playing
                  ++ [Exited 2; Exited 1; Exited 1;
                      Console Error "State not found: bogus"])%list /\
      getCurrentStatePath m' = Some "game.normalPlay") /\
  (exists m',
      transition 12 eager (request "bogus") = Some m' /\
      getCurrentStatePath eager = Some "attract" /\
      currentState eager = Some 0 /\
      currentState m' = Some 1 /\
      getCurrentStatePath m' = Some "game").
Proof.
  split.
  - eexists. split; [vm_compute; reflexivity|]. split; vm_compute; reflexivity.
  - eexists. split; [vm_compute; reflexivity|].
    repeat split; vm_compute; reflexivity.
Qed.

(** C8.  A [transition] called while another is in flight is appended to
    the back of [eventQueue] and nothing else happens.  A [transition] called
    at rest that returns has done what the replay front to back of the queue
    does, requests made by replayed transitions included, and has left the
    queue empty and the flag down; and it does return whenever that replay
    comes to an end. *)
Theorem queued_transitions_replay_in_order
  (fuel : nat) (m : Machine) (r : Request) :
  (transitioning m = true ->
   transition fuel m r = Some (enqueue m r) /\
   eventQueue (enqueue m r) = (eventQueue m ++ [r])%list) /\
  (transitioning m = false ->
   forall m',
     transition fuel m r = Some m' ->
     (exists n, (m1 ← applyOne r m; replayFIFO n m1) = Some m') /\
     eventQueue m' = [] /\ transitioning m' = false) /\
  (transitioning m = false ->
   forall n m',
     (m1 ← applyOne r m; replayFIFO n m1) = Some m' ->
     exists fuel', transition fuel' m r = Some m').
Proof.
  split; [|split].
  - intros Hf. split; [apply transition_pushes; exact Hf|reflexivity].
  - intros Hf m' H. split.
    + apply (proj1 (transition_replays fuel) m r m' Hf H).
    + apply (proj1 (transition_drains fuel) m r m' Hf H).
  - intros Hf n m' H.
    destruct (applyOne r m) as [m1|] eqn:E; simpl in H; [|discriminate].
    destruct (replay_is_reached n m1 m') as [f Hfuel]; [|assumption|].
    { eapply applyOne_flag; eassumption. }
    exists (S f). rewrite transition_S by exact Hf. rewrite E. exact Hfuel.
Qed.

Lemma queued_transitions_replay_in_order_witness :
  match transition 12 chatty (request "a") with
  | Some m' =>
      (exists n,
          (m1 ← applyOne (request "a") chatty; replayFIFO n m1) = Some m') /\
      eventQueue m' = [] /\ transitioning m' = false
  | None => False
  end.
Proof.
  destruct (transition 12 chatty (request "a")) as [m'|] eqn:E.
  - apply (proj1 (proj2 (queued_transitions_replay_in_order
                           12 chatty (request "a")))).
    + reflexivity.
    + exact E.
  - vm_compute in E. discriminate E.
Defined.

(** Three transitions requested by [a.onEnter] while the transition to [a]
    is in flight are applied afterwards in the order requested, and the one
    requested meanwhile by [b.onEnter] after them. *)
Example three_requests_in_flight :
  exists m',
    transition 12 chatty (request "a") = Some m' /\
    history m' = ["z"; "a"; "b"; "c"; "d"; "e"] /\
    getCurrentStatePath m' = Some "e" /\
    filter (fun e => isEntered e = true) (trace m')
    = [Entered 5 []; Entered 0 []; Entered 1 []; Entered 2 [];
       Entered 3 []; Entered 4 []].
Proof.
  eexists. split; [vm_compute; reflexivity|].
  repeat split; vm_compute; reflexivity.
Qed.

(** C10, as it holds.  [exitCurrentState] invokes [onExit] on every state
    of the active chain and clears no [activeChild].  On a machine at rest
    in root [r] whose hooks ask for no transition, a transition by bare
    name to another root [s] invokes [onExit] on every state of the active
    chain of [r] (leaf first, [r] twice) and leaves the store of state
    objects unchanged.  A later transition by bare name back to [r] invokes
    [onEnter] on [r] and on no other state, and [getCurrentStatePath]
    reports the names along the chain that was active before the machine
    left [r], joined by dots, as it did before. *)
Theorem reentered_root_reports_stale_path
  (fuel : nat) (m : Machine) (r s : nat) (rn sn : string)
  (chain chainS : list nat) (p1 p2 : Params) :
  transitioning m = false -> eventQueue m = [] -> quiet m ->
  currentState m = Some r ->
  name <$> heap m !! r = Some rn -> name <$> heap m !! s = Some sn ->
  states m !! rn = Some r -> states m !! sn = Some s ->
  rn ≠ sn -> split dot rn = [rn] -> split dot sn = [sn] ->
  wellLinked (heap m) r chain -> wellLinked (heap m) s chainS ->
  exists m1 m2,
    transition (S fuel) m (mkRequest sn p1) = Some m1 /\
    transition (S fuel) m1 (mkRequest rn p2) = Some m2 /\
    trace m1 = (trace m ++ map Exited (rev chain ++ [r])
                ++ [Entered s p1;
                    Console Log ("StateMachine transitioned to: " ++ sn)])%list /\
    heap m1 = heap m /\ heap m2 = heap m /\
    currentState m1 = Some s /\ currentState m2 = Some r /\
    trace m2 = (trace m1 ++ map Exited (rev chainS ++ [s])
                ++ [Entered r p2;
                    Console Log ("StateMachine transitioned to: " ++ rn)])%list /\
    getCurrentStatePath m
    = Some (String.concat "." (map (nameAt (heap m)) chain)) /\
    getCurrentStatePath m1
    = Some (String.concat "." (map (nameAt (heap m)) chainS)) /\
    getCurrentStatePath m2
    = Some (String.concat "." (map (nameAt (heap m)) chain)).
Proof.
  intros Hf Hqueue Hq Hc Hrn Hsn Hr Hs Hne Hsplitr Hsplits Hwr Hws.
  destruct (heap m !! r) as [rst|] eqn:Hrst; [|discriminate].
  destruct (heap m !! s) as [sst|] eqn:Hsst; [|discriminate].
  simpl in Hrn, Hsn. injection Hrn as Hrn. injection Hsn as Hsn.
  destruct (root_change_quiet fuel m r s rst sst chain sn p1)
    as (m1 & Ht1 & Hh1 & Hst1 & Hc1 & Hf1 & Hq1 & Htr1);
    try assumption; [congruence|].
  destruct (root_change_quiet fuel m1 s r sst rst chainS rn p2)
    as (m2 & Ht2 & Hh2 & Hst2 & Hc2 & Hf2 & Hq2 & Htr2);
    try assumption; try (rewrite Hh1; assumption);
    try (unfold quiet; rewrite Hh1; exact Hq); try congruence.
  exists m1, m2. repeat (split; [assumption || congruence|]).
  destruct Hwr as (Hchain & _). destruct Hws as (HchainS & _).
  pose proof (activeNames_chain _ _ _ _ Hchain) as Hn.
  pose proof (activeNames_chain _ _ _ _ HchainS) as HnS.
  unfold getCurrentStatePath.
  rewrite Hc, Hc1, Hc2, Hh2, Hh1, Hn, HnS. repeat split.
Qed.

Lemma reentered_root_reports_stale_path_witness :
  exists m1 m2,
    transition 2 playing (mkRequest "attract" []) = Some m1 /\
    transition 2 m1 (mkRequest "game" []) = Some m2 /\
    trace m1 = (trace playing ++ map Exited (rev [1; 2] ++ [1])
                ++ [Entered 0 [];
                    Console Log ("StateMachine transitioned to: "
                                 ++ "attract")])%list /\
    heap m1 = heap playing /\ heap m2 = heap playing /\
    currentState m1 = Some 0 /\ currentState m2 = Some 1 /\
    trace m2 = (trace m1 ++ map Exited (rev [0] ++ [0])
                ++ [Entered 1 [];
                    Console Log ("StateMachine transitioned to: "
                                 ++ "game")])%list /\
    getCurrentStatePath playing
    = Some (String.concat "." (map (nameAt (heap playing)) [1; 2])) /\
    getCurrentStatePath m1
    = Some (String.concat "." (map (nameAt (heap playing)) [0])) /\
    getCurrentStatePath m2
    = Some (String.concat "." (map (nameAt (heap playing)) [1; 2])).
Proof.
  apply (reentered_root_reports_stale_path
           1 playing 1 0 "game" "attract" [1; 2] [0] [] []);
    try (vm_compute; reflexivity).
  - unfold quiet. vm_compute heap.
    repeat constructor.
  - vm_compute. discriminate.
  - split; [vm_compute; reflexivity|].
    eexists. split; [vm_compute; reflexivity|].
    split; vm_compute; reflexivity.
  - split; [vm_compute; reflexivity|].
    eexists. split; [vm_compute; reflexivity|].
    split; vm_compute; reflexivity.
Defined.

(** C10, as the specification words it, fails.  It makes no exception for
    hooks that act: the hooks of the repository do, [game.onEnter] starts a
    ball.  [relaunching] is at rest in [game.ballEnd], and its
    [game.onEnter] asks for [game.normalPlay].  After a transition to
    [attract] and one back to [game] by its bare name, the path reported is
    not the one that was active before the exit, [game.ballEnd], but
    [game.normalPlay], and [onEnter] has been invoked on the descendant
    [normalPlay] (address 2) as well as on [game] (address 1). *)
Theorem reentered_root_restarts_its_child :
  getCurrentStatePath relaunching = Some "game.ballEnd" /\
  transitioning relaunching = false /\ eventQueue relaunching = [] /\
  match transition 4 relaunching (request "attract") with
  | Some m1 =>
      getCurrentStatePath m1 = Some "attract" /\
      match transition 4 m1 (request "game") with
      | Some m2 =>
          getCurrentStatePath m2 = Some "game.normalPlay" /\
          filter (fun e => isEntered e = true)
            (drop (length (trace m1)) (trace m2))
          = [Entered 1 []; Entered 2 []]
      | None => False
      end
  | None => False
  end.
Proof. vm_compute. repeat split; reflexivity. Qed.

(** The path reported after the round trip of the witness above. *)
Example stale_path_after_round_trip :
  exists m1 m2,
    transition 2 playing (request "attract") = Some m1 /\
    transition 2 m1 (request "game") = Some m2 /\
    getCurrentStatePath m1 = Some "attract" /\
    getCurrentStatePath m2 = Some "game.normalPlay".
Proof.
  eexists. eexists. split; [vm_compute; reflexivity|].
  split; [vm_compute; reflexivity|]. split; vm_compute; reflexivity.
Qed.

(** ** More of the state machine: idle transitions, history, partial
       paths, queries and events *)

(** [State.isInState(stateName)] on the state at address [s]. *)
Fixpoint State_isInState (fuel : nat) (h : list State) (s : nat)
  (stateName : string) : option bool :=
  st ← h !! s;
  if decide (name st = stateName) then Some true
  else
    match activeChild st with
    | Some c =>
        match fuel with
        | O => None
        | S fuel' => State_isInState fuel' h c stateName
        end
    | None => Some false
    end.

(** [StateMachine.isInState(stateName)] *)
Definition isInState (m : Machine) (stateName : string) : option bool :=
  match currentState m with
  | None => Some false
  | Some c => State_isInState (length (heap m)) (heap m) c stateName
  end.

(** The loop of [State.getPath()]:
    [while (current) { parts.unshift(current.name);
                       current = current.parent; }] *)
Fixpoint unshiftAncestors (fuel : nat) (h : list State)
  (current : option nat) (parts : list string) : option (list string) :=
  match current with
  | None => Some parts
  | Some c =>
      match fuel with
      | O => None
      | S fuel' =>
          st ← h !! c;
          unshiftAncestors fuel' h (parent st) (name st :: parts)
      end
  end.

(** [State.getPath()] on the state at address [s]. *)
Definition getPath (h : list State) (s : nat) : option string :=
  st ← h !! s;
  parts ← unshiftAncestors (length h) h (parent st) [name st];
  Some (String.concat "." parts).

(** [getHistory()]: a copy of the history. *)
Definition getHistory (m : Machine) : list string := history m.

(** X5.  A transition that has nothing to do does nothing at all.  On a
    machine at rest that has not been started, every transition returns the
    machine as it is: no hook, no history entry, no log.  So does a
    transition to the current root by its bare name: the root is not
    entered again. *)
Theorem idle_transition_changes_nothing
  (fuel : nat) (m : Machine) (r : Request) :
  transitioning m = false -> eventQueue m = [] ->
  currentState m = None \/
  (exists c cur,
      currentState m = Some c /\ heap m !! c = Some cur /\
      split dot (statePath r) = [name cur]) ->
  transition (S fuel) m r = Some m.
Proof.
  intros Hf Hq Hcases. rewrite transition_S by exact Hf.
  assert (Hm : set_transitioning false (set_transitioning true m) = m).
  { destruct m; simpl in *. subst. reflexivity. }
  unfold applyOne, transitionBody.
  cbn [currentState set_transitioning heap].
  destruct Hcases as [Hnone|(c & cur & Hc & Hcur & Hsplit)].
  - rewrite Hnone. cbn [mbind option_bind]. rewrite Hm.
    apply processEventQueue_nil. exact Hq.
  - rewrite Hc, Hcur, Hsplit. cbn [mbind option_bind hd].
    destruct (decide (name cur ≠ name cur)) as [Hne|_]; [contradiction|].
    destruct (decide (1 < length [name cur])) as [Hlt|_];
      [simpl in Hlt; lia|].
    cbn [mbind option_bind]. rewrite Hm.
    apply processEventQueue_nil. exact Hq.
Qed.

Lemma idle_transition_changes_nothing_witness :
  transition 1 playing (request "game") = Some playing /\
  transition 1 new (request "game") = Some new.
Proof.
  split.
  - apply (idle_transition_changes_nothing 0 playing (request "game"));
      [reflexivity|reflexivity|].
    right. eexists _, _.
    split; [reflexivity|]. split; vm_compute; reflexivity.
  - apply (idle_transition_changes_nothing 0 new (request "game"));
      [reflexivity|reflexivity|]. left. reflexivity.
Defined.

Lemma recordHistory_bound (path : string) (m : Machine) :
  length (history m) <= maxHistory m ->
  length (history (recordHistory path m)) <= maxHistory m /\
  maxHistory (recordHistory path m) = maxHistory m.
Proof.
  intros H. unfold recordHistory. simpl. split; [|reflexivity].
  destruct (decide _) as [Hlt|Hge].
  - rewrite length_drop, length_app. simpl. lia.
  - lia.
Qed.

(** The history of a machine and its bound. *)
Definition sameHistory (m m' : Machine) : Prop :=
  history m' = history m /\ maxHistory m' = maxHistory m.

Lemma sameHistory_trans (m1 m2 m3 : Machine) :
  sameHistory m1 m2 -> sameHistory m2 m3 -> sameHistory m1 m3.
Proof. unfold sameHistory. intros [? ?] [? ?]. split; congruence. Qed.

Lemma invokeOnExit_history (s : nat) (m m' : Machine) :
  invokeOnExit pushCall s m = Some m' -> sameHistory m m'.
Proof.
  rewrite invokeOnExit_push. destruct (heap m !! s); simpl; [|discriminate].
  intros [= <-]. split; reflexivity.
Qed.

Lemma invokeOnEnter_history (s : nat) (p : Params) (m m' : Machine) :
  invokeOnEnter pushCall s p m = Some m' -> sameHistory m m'.
Proof.
  rewrite invokeOnEnter_push. destruct (heap m !! s); simpl; [|discriminate].
  intros [= <-]. split; reflexivity.
Qed.

Lemma exitUp_history (fuel : nat) :
  forall state m m',
    exitUp fuel pushCall state m = Some m' -> sameHistory m m'.
Proof.
  induction fuel as [|fuel IH]; intros state m m' H;
    destruct state as [s|]; simpl in H; breaks; subst;
    try (split; reflexivity).
  apply IH in H. apply invokeOnExit_history in E2.
  eapply sameHistory_trans; eassumption.
Qed.

Lemma exitCurrentState_history (m m' : Machine) :
  exitCurrentState pushCall m = Some m' -> sameHistory m m'.
Proof.
  unfold exitCurrentState. generalize (S (length (heap m))).
  intros fuel H. breaks; subst; try (split; reflexivity).
  - apply invokeOnExit_history in H. apply exitUp_history in E1.
    eapply sameHistory_trans; eassumption.
  - eapply exitUp_history; eassumption.
Qed.

Lemma exitChild_history (fuel : nat) :
  forall s m m',
    exitChild fuel pushCall s m = Some m' -> sameHistory m m'.
Proof.
  induction fuel as [|fuel IH]; intros s m m' H; simpl in H; breaks;
    subst; try (split; reflexivity);
    repeat match goal with
           | E : invokeOnExit _ _ _ = Some _ |- _ =>
               apply invokeOnExit_history in E
           | E : exitChild _ _ _ _ = Some _ |- _ => apply IH in E
           end;
    unfold sameHistory in *; simpl; intuition congruence.
Qed.

Lemma enterChild_history (s : nat) (nm : string) (p : Params)
  (m m' : Machine) :
  enterChild pushCall s nm p m = Some m' -> sameHistory m m'.
Proof.
  unfold enterChild. intros H. breaks; subst;
    repeat match goal with
           | E : invokeOnEnter _ _ _ _ = Some _ |- _ =>
               apply invokeOnEnter_history in E
           | E : exitChild _ _ _ _ = Some _ |- _ =>
               apply exitChild_history in E
           end;
    unfold sameHistory in *; simpl in *; intuition congruence.
Qed.

Lemma enterNestedState_history (parts : list string) (p : Params) :
  forall cur m m',
    enterNestedState pushCall cur parts p m = Some m' -> sameHistory m m'.
Proof.
  induction parts as [|part parts IH]; intros cur m m' H; simpl in H;
    breaks; subst; try (split; reflexivity).
  apply IH in H. apply enterChild_history in E1.
  eapply sameHistory_trans; eassumption.
Qed.

Lemma transitionBody_bound (r : Request) (m m' : Machine) :
  length (history m) <= maxHistory m ->
  transitionBody pushCall r m = Some m' ->
  length (history m') <= maxHistory m' /\ maxHistory m' = maxHistory m.
Proof.
  intros Hb. unfold transitionBody. intros H. breaks; subst;
    repeat match goal with
           | E : invokeOnEnter _ _ _ _ = Some _ |- _ =>
               apply invokeOnEnter_history in E; simpl in E
           | E : enterNestedState _ _ _ _ _ = Some _ |- _ =>
               apply enterNestedState_history in E
           | E : exitCurrentState _ _ = Some _ |- _ =>
               apply exitCurrentState_history in E
           end;
    unfold sameHistory in *; simpl in *;
    repeat match goal with
           | H : _ /\ _ |- _ => destruct H
           end;
    try (split; [lia|reflexivity]);
    try (split; congruence);
    repeat match goal with
           | H : history _ = history _ |- _ => apply (f_equal length) in H
           end;
    (split; [|lia]);
    match goal with
    | |- context [decide (?a < ?b)] =>
        destruct (decide (a < b)) as [Hlt|Hge]
    end;
    rewrite ?length_drop, ?length_app in *; simpl in *; lia.
Qed.

(** The bound on the history is kept through a transition and the replay
    it starts. *)
Lemma transition_bound (fuel : nat) :
  (forall m r m',
      length (history m) <= maxHistory m ->
      transition fuel m r = Some m' ->
      length (history m') <= maxHistory m' /\ maxHistory m' = maxHistory m) /\
  (forall m m',
      transitioning m = false ->
      length (history m) <= maxHistory m ->
      processEventQueue fuel m = Some m' ->
      length (history m') <= maxHistory m' /\ maxHistory m' = maxHistory m).
Proof.
  induction fuel as [|fuel [IHt IHp]]; split.
  - intros m r m' Hb H. simpl in H.
    destruct (transitioning m); [|discriminate].
    injection H as <-. simpl. auto.
  - intros m m' Hf Hb H. simpl in H. rewrite Hf in H.
    destruct (eventQueue m); [|discriminate]. injection H as <-. auto.
  - intros m r m' Hb H.
    destruct (transitioning m) eqn:Hf.
    + rewrite (transition_pushes (S fuel) m r Hf) in H.
      injection H as <-. simpl. auto.
    + rewrite transition_S in H by exact Hf.
      unfold applyOne in H.
      destruct (transitionBody pushCall r _) as [m1|] eqn:E; simpl in H;
        [|discriminate].
      apply transitionBody_bound in E; [|exact Hb]. simpl in E.
      destruct E as [E1 E2].
      destruct (IHp (set_transitioning false m1) m') as [H1 H2];
        [reflexivity|exact E1|exact H|].
      simpl in H2. split; [exact H1|congruence].
  - intros m m' Hf Hb H.
    destruct (eventQueue m) as [|r rest] eqn:Hq.
    + rewrite processEventQueue_nil in H by exact Hq.
      injection H as <-. auto.
    + rewrite (processEventQueue_S _ _ _ _ Hq Hf) in H.
      destruct (transition fuel _ r) as [m1|] eqn:E; simpl in H;
        [|discriminate].
      destruct (proj1 (transition_drains fuel)
                  (set_eventQueue rest m) _ _ Hf E) as [_ Hf1].
      apply IHt in E; [|exact Hb]. simpl in E. destruct E as [E1 E2].
      destruct (IHp m1 m' Hf1 E1 H) as [H1 H2].
      split; [exact H1|congruence].
Qed.

(** X6.  The history never outgrows [maxHistory]: if it is within the
    bound before a [transition] or a [start], it is within the same bound
    after it, whatever the hooks request and however many queued
    transitions are replayed.  A new machine has an empty history and the
    bound 20. *)
Theorem history_stays_bounded (fuel : nat) (m : Machine) :
  length (history m) <= maxHistory m ->
  (forall r m',
      transition fuel m r = Some m' ->
      length (history m') <= maxHistory m' /\ maxHistory m' = maxHistory m) /\
  (forall stateName p m',
      start fuel stateName p m = Some m' ->
      length (history m') <= maxHistory m' /\ maxHistory m' = maxHistory m) /\
  length (history new) = 0 /\ maxHistory new = 20.
Proof.
  intros Hb. split; [|split; [|split; reflexivity]].
  - intros r m' H. exact (proj1 (transition_bound fuel) m r m' Hb H).
  - intros stateName p m' H. unfold start in H.
    destruct (states m !! stateName) as [s|]; [|injection H as <-; auto].
    destruct (invokeOnEnter (transition fuel) s p _) as [m1|] eqn:E;
      simpl in H; [|discriminate].
    injection H as <-.
    assert (Hhook : forall reqs m0 m0',
               length (history m0) <= maxHistory m0 ->
               runHook (transition fuel) reqs m0 = Some m0' ->
               length (history m0') <= maxHistory m0' /\
               maxHistory m0' = maxHistory m0).
    { induction reqs as [|r reqs IH]; intros m0 m0' Hb0 Hrun;
        simpl in Hrun.
      - injection Hrun as <-. auto.
      - destruct (transition fuel m0 r) as [m2|] eqn:E2; simpl in Hrun;
          [|discriminate].
        destruct (proj1 (transition_bound fuel) m0 r m2 Hb0 E2)
          as [H1 H2].
        destruct (IH m2 m0' H1 Hrun) as [H3 H4].
        split; [exact H3|congruence]. }
    unfold invokeOnEnter in E.
    destruct (heap _ !! s) as [st|]; simpl in E; [|discriminate].
    apply Hhook in E; [|exact Hb]. simpl in E. destruct E as [E1 E2].
    destruct (recordHistory_bound stateName m1 E1) as [H1 H2].
    split; [exact H1|exact (eq_trans H2 E2)].
Qed.

Lemma history_stays_bounded_witness :
  (forall r m',
      transition 12 chatty r = Some m' ->
      length (history m') <= maxHistory m' /\
      maxHistory m' = maxHistory chatty) /\
  (forall stateName p m',
      start 12 stateName p chatty = Some m' ->
      length (history m') <= maxHistory m' /\
      maxHistory m' = maxHistory chatty) /\
  length (history new) = 0 /\ maxHistory new = 20.
Proof.
  apply (history_stays_bounded 12 chatty). vm_compute. lia.
Defined.

(** X7.  A path whose first nested segment is not a child of the current
    root: the transition warns and stops; no hook is invoked and the active
    child, if any, stays active, yet the requested path is put in the
    history, so the history can hold a path the machine was never in. *)
Theorem unknown_child_is_recorded
  (fuel : nat) (m : Machine) (c : nat) (cur : State) (r : Request)
  (part : string) (rest : list string) :
  transitioning m = false -> eventQueue m = [] ->
  currentState m = Some c -> heap m !! c = Some cur ->
  split dot (statePath r) = name cur :: part :: rest ->
  children cur !! part = None ->
  exists m',
    transition (S fuel) m r = Some m' /\
    heap m' = heap m /\ currentState m' = currentState m /\
    getCurrentStatePath m' = getCurrentStatePath m /\
    trace m' = (trace m
                ++ [Console Warn ("Child state " ++ dq ++ part ++ dq
                                  ++ " not found in " ++ dq ++ name cur
                                  ++ dq)])%list /\
    history m' = history (recordHistory (statePath r) m).
Proof.
  intros Hf Hq Hc Hcur Hsplit Hchild.
  rewrite transition_S by exact Hf.
  unfold applyOne, transitionBody.
  cbn [currentState set_transitioning heap].
  rewrite Hc, Hcur, Hsplit. cbn [mbind option_bind hd].
  destruct (decide (name cur ≠ name cur)) as [Hne|_]; [contradiction|].
  destruct (decide (1 < length (name cur :: part :: rest))) as [_|Hge];
    [|simpl in Hge; lia].
  cbn [drop enterNestedState heap set_transitioning].
  rewrite Hcur. cbn [mbind option_bind]. rewrite Hchild.
  cbn [mbind option_bind].
  eexists. split; [apply processEventQueue_nil; simpl; exact Hq|].
  unfold getCurrentStatePath. simpl. rewrite Hc. repeat split.
Qed.

Lemma unknown_child_is_recorded_witness :
  exists m',
    transition 1 playing (request "game.tilt.warning") = Some m' /\
    heap m' = heap playing /\ currentState m' = currentState playing /\
    getCurrentStatePath m' = getCurrentStatePath playing /\
    trace m' = (trace playing
                ++ [Console Warn ("Child state " ++ dq ++ "tilt" ++ dq
                                  ++ " not found in " ++ dq ++ "game"
                                  ++ dq)])%list /\
    history m'
    = history (recordHistory (statePath (request "game.tilt.warning"))
                 playing).
Proof.
  destruct (heap playing !! 1) as [cur|] eqn:E; [|vm_compute in E; discriminate].
  assert (Hname : name cur = "game").
  { vm_compute in E. injection E as <-. reflexivity. }
  assert (Hch : children cur !! "tilt" = None).
  { vm_compute in E. injection E as <-. vm_compute. reflexivity. }
  rewrite <- Hname.
  apply (unknown_child_is_recorded 0 playing 1 cur
           (request "game.tilt.warning") "tilt" ["warning"]);
    try reflexivity; try assumption.
  rewrite Hname. vm_compute. reflexivity.
Defined.

Lemma State_isInState_names (fuel : nat) (h : list State)
  (stateName : string) :
  forall s names,
    activeNames fuel h s = Some names ->
    State_isInState fuel h s stateName
    = Some (bool_decide (stateName ∈ names)).
Proof.
  induction fuel as [|fuel IH]; intros s names H; simpl in H |- *;
    destruct (h !! s) as [st|]; simpl in H |- *; try discriminate;
    destruct (decide (name st = stateName)) as [Heq|Hne];
    destruct (activeChild st) as [c|]; try discriminate.
  - injection H as <-. rewrite bool_decide_eq_true_2; [reflexivity|].
    subst. apply list_elem_of_here.
  - injection H as <-. rewrite bool_decide_eq_false_2; [reflexivity|].
    intros Hin. apply list_elem_of_singleton in Hin. congruence.
  - destruct (activeNames fuel h c) as [rest|]; simpl in H; [|discriminate].
    injection H as <-. rewrite bool_decide_eq_true_2; [reflexivity|].
    subst. apply list_elem_of_here.
  - injection H as <-. rewrite bool_decide_eq_true_2; [reflexivity|].
    subst. apply list_elem_of_here.
  - destruct (activeNames fuel h c) as [rest|] eqn:E; simpl in H;
      [|discriminate].
    injection H as <-. rewrite (IH c rest E). f_equal.
    apply bool_decide_ext. rewrite elem_of_cons. intuition congruence.
  - injection H as <-. rewrite bool_decide_eq_false_2; [reflexivity|].
    intros Hin. apply list_elem_of_singleton in Hin. congruence.
Qed.

(** X8.  [isInState] answers for every level of the active hierarchy:
    when the current path is made of the names [names], root first,
    [isInState(n)] is true exactly when [n] is one of them. *)
Theorem isInState_matches_path_parts
  (m : Machine) (c : nat) (names : list string) (stateName : string) :
  currentState m = Some c ->
  activeNames (length (heap m)) (heap m) c = Some names ->
  getCurrentStatePath m = Some (String.concat "." names) /\
  isInState m stateName = Some (bool_decide (stateName ∈ names)).
Proof.
  intros Hc Hn. unfold getCurrentStatePath, isInState. rewrite Hc, Hn.
  split; [reflexivity|]. apply State_isInState_names. exact Hn.
Qed.

Lemma isInState_matches_path_parts_witness :
  getCurrentStatePath playing
  = Some (String.concat "." ["game"; "normalPlay"]) /\
  isInState playing "normalPlay"
  = Some (bool_decide ("normalPlay" ∈ ["game"; "normalPlay"])).
Proof.
  apply (isInState_matches_path_parts playing 1 ["game"; "normalPlay"]
           "normalPlay"); vm_compute; reflexivity.
Defined.

Lemma unshiftAncestors_ascends (h : list State) (l : list nat) :
  forall fuel x st parts,
    h !! x = Some st ->
    ascends h (x :: l) None = true ->
    length l <= fuel ->
    unshiftAncestors fuel h (parent st) (name st :: parts)
    = Some (rev (map (nameAt h) l) ++ name st :: parts)%list.
Proof.
  induction l as [|y l IH]; intros fuel x st parts Hx Hasc Hfuel;
    simpl in Hasc; rewrite Hx in Hasc;
    apply andb_prop in Hasc; destruct Hasc as [Hp Hrest];
    apply bool_decide_eq_true in Hp; rewrite Hp.
  - destruct fuel; reflexivity.
  - destruct fuel as [|fuel]; [simpl in Hfuel; lia|].
    cbn [unshiftAncestors].
    change (ascends h (y :: l) None = true) in Hrest.
    destruct (h !! y) as [sty|] eqn:Ey;
      [|simpl in Hrest; rewrite Ey in Hrest; discriminate].
    cbn [mbind option_bind].
    rewrite (IH fuel y sty (name st :: parts) Ey Hrest)
      by (simpl in Hfuel; lia).
    assert (Hy : nameAt h y = name sty)
      by (unfold nameAt; rewrite Ey; reflexivity).
    cbn [map rev]. rewrite Hy, <- app_assoc. reflexivity.
Qed.

(** X9.  The two ways to a path agree.  When the parent pointers along the
    active chain lead from its leaf back to the current root and the root
    has no parent, [getPath()] of the deepest active state is the string
    [getCurrentStatePath()] returns. *)
Theorem leaf_path_is_current_path
  (m : Machine) (r : nat) (rst : State) (chain : list nat) (leaf : nat) :
  currentState m = Some r -> heap m !! r = Some rst -> parent rst = None ->
  wellLinked (heap m) r chain ->
  deepestActive (length (heap m)) (heap m) r = Some leaf ->
  exists path,
    getPath (heap m) leaf = Some path /\
    getCurrentStatePath m = Some path.
Proof.
  intros Hc Hr Hp [Hchain (rst' & Hr' & Hasc & _)] Hleaf.
  rewrite Hr in Hr'. injection Hr' as <-. rewrite Hp in Hasc.
  pose proof (activeChain_length _ _ _ _ Hchain) as Hlen.
  destruct (activeChain_leaf _ _ _ _ Hchain) as (_ & _ & Hdeep).
  rewrite Hleaf in Hdeep.
  destruct (rev chain) as [|x l] eqn:Hrev; [discriminate|].
  injection Hdeep as ->.
  assert (Hch : chain = rev (x :: l)).
  { rewrite <- Hrev, rev_involutive. reflexivity. }
  assert (Hl : length l <= length (heap m)).
  { rewrite Hch, length_rev in Hlen. simpl in Hlen. lia. }
  destruct (heap m !! x) as [st|] eqn:Ex;
    [|simpl in Hasc; rewrite Ex in Hasc; discriminate].
  exists (String.concat "." (map (nameAt (heap m)) chain)).
  split.
  - unfold getPath. rewrite Ex. cbn [mbind option_bind].
    rewrite (unshiftAncestors_ascends _ l _ x st [] Ex Hasc Hl).
    assert (Hx : nameAt (heap m) x = name st)
      by (unfold nameAt; rewrite Ex; reflexivity).
    cbn [mbind option_bind]. rewrite Hch. cbn [rev].
    rewrite map_app. cbn [map]. rewrite map_rev, Hx. reflexivity.
  - unfold getCurrentStatePath. rewrite Hc.
    rewrite (activeNames_chain _ _ _ _ Hchain). reflexivity.
Qed.

Lemma leaf_path_is_current_path_witness :
  exists path,
    getPath (heap playing) 2 = Some path /\
    getCurrentStatePath playing = Some path.
Proof.
  destruct (heap playing !! 1) as [rst|] eqn:E;
    [|vm_compute in E; discriminate].
  apply (leaf_path_is_current_path playing 1 rst [1; 2] 2);
    try (vm_compute; reflexivity); try exact E.
  - vm_compute in E. injection E as <-. reflexivity.
  - split; [vm_compute; reflexivity|].
    eexists. split; [vm_compute; reflexivity|].
    split; vm_compute; reflexivity.
Defined.

(** The listeners an event bubbles through, up to and including the first
    one that handles it. *)
Fixpoint upTo {A : Type} (p : A -> bool) (l : list A) : list A :=
  match l with
  | [] => []
  | x :: rest => if p x then [x] else x :: upTo p rest
  end.

Section Events.

(** [state.onEvent(event, data)] of the state at an address: whether it
    reports the event as handled, and the [machine.transition] calls it
    makes before it returns. *)
Variable onEvent : nat -> string -> Params -> bool * list Request.

(** The fuel of the transitions the handlers ask for. *)
Variable tfuel : nat.

(** The second loop of [sendEvent]:
    [while (state) { if (state.onEvent(event, data)) return true;
                     state = state.parent; }].
    [asked] lists the states whose handler has run. *)
Fixpoint bubble (fuel : nat) (state : option nat) (event : string)
  (data : Params) (m : Machine) (asked : list nat)
  : option (Machine * bool * list nat) :=
  match state with
  | None => Some (m, false, asked)
  | Some s =>
      match fuel with
      | O => None
      | S fuel' =>
          let '(handled, reqs) := onEvent s event data in
          m1 ← runHook (transition tfuel) reqs m;
          if handled then Some (m1, true, (asked ++ [s])%list)
          else
            st ← heap m1 !! s;
            bubble fuel' (parent st) event data m1 (asked ++ [s])%list
      end
  end.

(** [sendEvent(event, data)]: the machine afterwards, the value returned and
    the states whose handler has run, in order. *)
Definition sendEvent (event : string) (data : Params) (m : Machine)
  : option (Machine * bool * list nat) :=
  match currentState m with
  | None => Some (m, false, [])
  | Some c =>
      leaf ← deepestActive (length (heap m)) (heap m) c;
      bubble (S (length (heap m))) (Some leaf) event data m []
  end.

Definition handles (event : string) (data : Params) (s : nat) : bool :=
  fst (onEvent s event data).

Definition requests (event : string) (data : Params) (s : nat)
  : list Request :=
  snd (onEvent s event data).

Lemma bubble_step (event : string) (data : Params) (m : Machine)
  (fuel x : nat) (st : State) (asked : list nat) :
  heap m !! x = Some st ->
  (handles event data x = false -> requests event data x = []) ->
  bubble (S fuel) (Some x) event data m asked
  = if handles event data x
    then m' ← runHook (transition tfuel) (requests event data x) m;
         Some (m', true, (asked ++ [x])%list)
    else bubble fuel (parent st) event data m (asked ++ [x])%list.
Proof.
  intros Hst Hx. unfold handles, requests in *. cbn [bubble].
  destruct (onEvent x event data) as [handled reqs]. cbn [fst snd] in *.
  destruct handled; [reflexivity|].
  rewrite (Hx eq_refl). cbn [runHook mbind option_bind]. rewrite Hst.
  reflexivity.
Qed.

Lemma bubble_ascends (event : string) (data : Params) (m : Machine)
  (l : list nat) :
  forall fuel x asked,
    ascends (heap m) (x :: l) None = true ->
    length (x :: l) <= fuel ->
    (forall s, In s (x :: l) ->
               handles event data s = false -> requests event data s = []) ->
    bubble fuel (Some x) event data m asked
    = match List.find (handles event data) (x :: l) with
      | Some s =>
          m' ← runHook (transition tfuel) (requests event data s) m;
          Some (m', true, (asked ++ upTo (handles event data) (x :: l))%list)
      | None => Some (m, false, (asked ++ x :: l)%list)
      end.
Proof.
  induction l as [|y l IH]; intros fuel x asked Hasc Hfuel Hdecl;
    (destruct fuel as [|fuel]; [simpl in Hfuel; lia|]);
    simpl in Hasc;
    (destruct (heap m !! x) as [st|] eqn:Hst; [|discriminate]);
    apply andb_prop in Hasc; destruct Hasc as [Hp Hrest];
    apply bool_decide_eq_true in Hp;
    rewrite (bubble_step event data m fuel x st asked Hst
               (Hdecl x (or_introl eq_refl)));
    rewrite Hp.
  - cbn [List.find upTo].
    destruct (handles event data x); [reflexivity|].
    destruct fuel; reflexivity.
  - change (ascends (heap m) (y :: l) None = true) in Hrest.
    change (List.find (handles event data) (x :: y :: l))
      with (if handles event data x then Some x
            else List.find (handles event data) (y :: l)).
    change (upTo (handles event data) (x :: y :: l))
      with (if handles event data x then [x]
            else x :: upTo (handles event data) (y :: l)).
    destruct (handles event data x); [reflexivity|].
    rewrite (IH fuel y (asked ++ [x])%list Hrest)
      by first [simpl in Hfuel |- *; lia
               |intros s Hs; apply Hdecl; right; exact Hs].
    destruct (List.find (handles event data) (y :: l));
      rewrite <- app_assoc; reflexivity.
Qed.

(** X10.  An event bubbles from the deepest active state to the root and
    stops at the first handler that reports it handled.  Along well-kept
    parent pointers, with a root that has no parent and handlers that ask
    for no transition when they decline: the handlers asked are the states
    from the leaf up to and including the first one that handles the event,
    the machine afterwards is the one its transitions produce, and the
    value is [true]; if no state of the chain handles the event, every state
    of the chain is asked, the machine is unchanged and the value is
    [false]. *)
Theorem event_bubbles_to_first_handler
  (event : string) (data : Params) (m : Machine) (r : nat) (rst : State)
  (chain : list nat) :
  currentState m = Some r -> heap m !! r = Some rst -> parent rst = None ->
  wellLinked (heap m) r chain ->
  (forall s, In s chain ->
             handles event data s = false -> requests event data s = []) ->
  sendEvent event data m
  = match List.find (handles event data) (rev chain) with
    | Some s =>
        m' ← runHook (transition tfuel) (requests event data s) m;
        Some (m', true, upTo (handles event data) (rev chain))
    | None => Some (m, false, rev chain)
    end.
Proof.
  intros Hc Hr Hp [Hchain (rst' & Hr' & Hasc & _)] Hdecl.
  rewrite Hr in Hr'. injection Hr' as <-. rewrite Hp in Hasc.
  pose proof (activeChain_length _ _ _ _ Hchain) as Hlen.
  destruct (activeChain_leaf _ _ _ _ Hchain) as (Hne & _ & Hdeep).
  unfold sendEvent. rewrite Hc, Hdeep.
  assert (Hdecl' : forall s, In s (rev chain) ->
             handles event data s = false -> requests event data s = []).
  { intros s Hs. apply Hdecl. apply in_rev. exact Hs. }
  rewrite <- (length_rev chain) in Hlen.
  destruct (rev chain) as [|x l] eqn:Hrev.
  { apply (f_equal (@rev nat)) in Hrev. rewrite rev_involutive in Hrev.
    contradiction. }
  cbn [head mbind option_bind].
  rewrite (bubble_ascends event data m l _ x [] Hasc Hlen Hdecl').
  reflexivity.
Qed.

End Events.

(** The handler of [normalPlay] for a drained ball, with ball save off: it
    asks for [game.ballEnd] and reports the event handled.  No other state
    handles anything. *)
Definition drainHandlers (s : nat) (event : string) (data : Params)
  : bool * list Request :=
  if decide (s = 2 /\ event = "ballDrained")
  then (true, [request "game.ballEnd"]) else (false, []).

Lemma event_bubbles_to_first_handler_witness :
  sendEvent drainHandlers 12 "ballDrained" [] playing
  = match List.find (handles drainHandlers "ballDrained" []) (rev [1; 2])
    with
    | Some s =>
        m' ← runHook (transition 12)
               (requests drainHandlers "ballDrained" [] s) playing;
        Some (m', true, upTo (handles drainHandlers "ballDrained" [])
                          (rev [1; 2]))
    | None => Some (playing, false, rev [1; 2])
    end /\
  sendEvent drainHandlers 12 "startGame" [] playing
  = Some (playing, false, [2; 1]).
Proof.
  assert (Hw : wellLinked (heap playing) 1 [1; 2]).
  { split; [vm_compute; reflexivity|].
    eexists. split; [vm_compute; reflexivity|].
    split; vm_compute; reflexivity. }
  destruct (heap playing !! 1) as [rst|] eqn:E;
    [|vm_compute in E; discriminate].
  assert (Hp : parent rst = None).
  { vm_compute in E. injection E as <-. reflexivity. }
  split.
  - apply (event_bubbles_to_first_handler drainHandlers 12 "ballDrained" []
             playing 1 rst [1; 2]); try assumption; try reflexivity.
    intros s [<-|[<-|[]]]; vm_compute; intros; try reflexivity;
      discriminate.
  - rewrite (event_bubbles_to_first_handler drainHandlers 12 "startGame" []
               playing 1 rst [1; 2]); try assumption; try reflexivity.
    intros s [<-|[<-|[]]]; vm_compute; intros; reflexivity.
Defined.

(** The hooks [enterChild] invokes on the child it leaves. *)
Definition exitsOf (old : option nat) : list Event :=
  match old with
  | Some o => [Exited o]
  | None => []
  end.

Lemma quiet_set_activeChild (s : nat) (c : option nat) (m : Machine) :
  quiet m -> quiet (set_activeChild s c m).
Proof.
  unfold quiet, set_activeChild. simpl. intros H.
  apply Forall_alter; [exact H|]. intros st _ Hst. exact Hst.
Qed.

Lemma lookup_set_activeChild (s : nat) (c : option nat) (m : Machine)
  (x : nat) (st : State) :
  heap m !! x = Some st ->
  heap (set_activeChild s c m) !! x
  = Some (if decide (s = x) then with_activeChild c st else st).
Proof.
  intros Hx. unfold set_activeChild. simpl.
  rewrite list_lookup_alter.
  destruct (decide (s = x)) as [->|Hne]; rewrite Hx; reflexivity.
Qed.

Lemma set_activeChild_twice (s : nat) (c c' : option nat) (m : Machine) :
  set_activeChild s c (set_activeChild s c' m) = set_activeChild s c m.
Proof.
  unfold set_activeChild, set_heap. simpl.
  rewrite list_alter_alter_eq. reflexivity.
Qed.

(** [enterChild] where the active child, if there is one, has no active
    child of its own and no hook asks for a transition. *)
Lemma enterChild_quiet (m : Machine) (s : nat) (st : State)
  (part : string) (child : nat) (cst : State) (p : Params) :
  quiet m -> heap m !! s = Some st ->
  children st !! part = Some child -> heap m !! child = Some cst ->
  (forall o, activeChild st = Some o ->
             exists ost, heap m !! o = Some ost /\ activeChild ost = None) ->
  enterChild pushCall s part p m
  = Some (emits (exitsOf (activeChild st) ++ [Entered child p])
            (set_activeChild s (Some child) m)).
Proof.
  intros Hq Hs Hpart Hchild Hold. unfold enterChild.
  rewrite Hs. cbn [mbind option_bind].
  destruct (activeChild st) as [o|] eqn:Hact.
  - destruct (Hold o eq_refl) as (ost & Ho & Hleaf).
    assert (Hexit : exitChild (length (heap m)) pushCall s m
                    = Some (set_activeChild s None (emits [Exited o] m))).
    { generalize (length (heap m)). intros n.
      destruct n; cbn [exitChild]; rewrite Hs; cbn [mbind option_bind];
        rewrite Hact, Ho; cbn [mbind option_bind]; rewrite Hleaf;
        cbn [mbind option_bind];
        rewrite (invokeOnExit_quiet o ost m Hq Ho); reflexivity. }
    rewrite Hexit. cbn [mbind option_bind].
    rewrite (lookup_set_activeChild s None (emits [Exited o] m) s st Hs).
    cbn [mbind option_bind].
    set (m1 := set_activeChild s None (emits [Exited o] m)).
    assert (Hq1 : quiet m1) by (apply quiet_set_activeChild; exact Hq).
    destruct (decide (s = s)) as [_|Hne]; [|contradiction].
    change (children (with_activeChild None st)) with (children st).
    rewrite Hpart.
    rewrite (invokeOnEnter_quiet child _ p (set_activeChild s (Some child) m1)
               (quiet_set_activeChild _ _ _ Hq1)
               (lookup_set_activeChild s (Some child) m1 child _
                  (lookup_set_activeChild s None (emits [Exited o] m)
                     child cst Hchild))).
    unfold m1. rewrite set_activeChild_twice.
    change (set_activeChild s (Some child) (emits [Exited o] m))
      with (emits [Exited o] (set_activeChild s (Some child) m)).
    rewrite emits_emits. reflexivity.
  - cbn [mbind option_bind]. rewrite Hs. cbn [mbind option_bind].
    rewrite Hpart.
    rewrite (invokeOnEnter_quiet child _ p (set_activeChild s (Some child) m)
               (quiet_set_activeChild _ _ _ Hq)
               (lookup_set_activeChild s (Some child) m child cst Hchild)).
    reflexivity.
Qed.

(** X11.  Switching between children of the current root.  A path
    [root.part] requested while [root] is current, where [part] is a child
    of the root, the active child (if any) has no active child of its own
    and no hook asks for a transition: the active child gets [onExit], the
    new child [onEnter] with the parameters of the request, the root's own
    hooks are not invoked, the root's [activeChild] is the new child and the
    path is put in the history. *)
Theorem sibling_switch_spares_root
  (fuel : nat) (m : Machine) (r : nat) (rst : State) (req : Request)
  (part : string) (child : nat) (cst : State) :
  transitioning m = false -> eventQueue m = [] -> quiet m ->
  currentState m = Some r -> heap m !! r = Some rst ->
  split dot (statePath req) = [name rst; part] ->
  children rst !! part = Some child -> heap m !! child = Some cst ->
  (forall o, activeChild rst = Some o ->
             exists ost, heap m !! o = Some ost /\ activeChild ost = None) ->
  exists m',
    transition (S fuel) m req = Some m' /\
    currentState m' = Some r /\
    heap m' = alter (with_activeChild (Some child)) r (heap m) /\
    trace m' = (trace m ++ exitsOf (activeChild rst)
                ++ [Entered child (params req)])%list /\
    history m' = history (recordHistory (statePath req) m) /\
    transitioning m' = false /\ eventQueue m' = [].
Proof.
  intros Hf Hqu Hq Hc Hr Hsplit Hpart Hchild Hold.
  rewrite transition_S by exact Hf.
  unfold applyOne, transitionBody.
  cbn [currentState set_transitioning heap].
  rewrite Hc, Hr, Hsplit. cbn [mbind option_bind hd].
  destruct (decide (name rst ≠ name rst)) as [Hne|_]; [contradiction|].
  destruct (decide (1 < length [name rst; part])) as [_|Hge];
    [|simpl in Hge; lia].
  cbn [drop enterNestedState]. 
  change (heap (set_transitioning true m)) with (heap m).
  rewrite Hr. cbn [mbind option_bind]. rewrite Hpart.
  rewrite (enterChild_quiet (set_transitioning true m) r rst part child cst
             (params req) Hq Hr Hpart Hchild Hold).
  cbn [mbind option_bind].
  change (heap (emits _ (set_activeChild r (Some child)
                           (set_transitioning true m))))
    with (heap (set_activeChild r (Some child) m)).
  rewrite (lookup_set_activeChild r (Some child) m r rst Hr).
  destruct (decide (r = r)) as [_|Hne]; [|contradiction].
  cbn [mbind option_bind activeChild with_activeChild].
  eexists. split; [apply processEventQueue_nil; simpl; exact Hqu|].
  simpl. repeat split; assumption.
Qed.

Lemma sibling_switch_spares_root_witness :
  exists m',
    transition 1 playing (request "game.ballEnd") = Some m' /\
    currentState m' = Some 1 /\
    heap m' = alter (with_activeChild (Some 3)) 1 (heap playing) /\
    trace m' = (trace playing ++ exitsOf (Some 2) ++ [Entered 3 []])%list /\
    history m'
    = history (recordHistory (statePath (request "game.ballEnd")) playing) /\
    transitioning m' = false /\ eventQueue m' = [].
Proof.
  destruct (heap playing !! 1) as [rst|] eqn:E;
    [|vm_compute in E; discriminate].
  destruct (heap playing !! 3) as [cst|] eqn:E3;
    [|vm_compute in E3; discriminate].
  assert (Hact : activeChild rst = Some 2).
  { vm_compute in E. injection E as <-. reflexivity. }
  rewrite <- Hact.
  apply (sibling_switch_spares_root 0 playing 1 rst (request "game.ballEnd")
           "ballEnd" 3 cst); try reflexivity; try assumption.
  - unfold quiet. vm_compute heap. repeat constructor.
  - vm_compute in E. injection E as <-. vm_compute. reflexivity.
  - vm_compute in E. injection E as <-. vm_compute. reflexivity.
  - intros o Ho. rewrite Hact in Ho. injection Ho as <-.
    eexists. split; vm_compute; reflexivity.
Defined.

End StateMachine.

(* ===================================================================== *)
(** * Balls, flippers and the collision resolver
      (physics/PhysicsEngine.js) *)
(* ===================================================================== *)

Module Physics.

Local Open Scope float_scope.

(** ** JavaScript numbers

    A JavaScript number is an IEEE 754 binary64 value; so is a [float].
    [+ - * /], [Math.sqrt] and [Math.abs] are the primitive operations. *)

Definition Math_sqrt : float -> float := PrimFloat.sqrt.
Definition Math_abs : float -> float := PrimFloat.abs.
Definition Math_PI : float := 0x1.921fb54442d18p+1.

(** [Math.min(a, b)] and [Math.max(a, b)]: NaN when an argument is NaN,
    and [-0] is below [+0]. *)
Definition Math_min (a b : float) : float :=
  if is_nan a || is_nan b then nan
  else if a <? b then a
  else if b <? a then b
  else if get_sign a then a else b.

Definition Math_max (a b : float) : float :=
  if is_nan a || is_nan b then nan
  else if a <? b then b
  else if b <? a then a
  else if get_sign a then b else a.

(** [a || b] on numbers: [a] when it is truthy (neither zero nor NaN). *)
Definition orElse (a b : float) : float :=
  if is_nan a || is_zero a then b else a.

(** ** Constants of config/HardwareConfig.js *)

Definition GRAVITY : float := 0.12.
Definition BALL_RADIUS : float := 12.
Definition FLIPPER_LENGTH : float := 65.
Definition FLIPPER_WIDTH : float := 12.
Definition FLIPPER_ANGULAR_VEL : float := 18.
Definition FLIPPER_MAX_ANGLE : float := 45.
Definition FLIPPER_REST_ANGLE : float := -25.
Definition BALL_FRICTION : float := 0.998.
Definition BOUNCE_DAMPING : float := 0.65.
Definition BUMPER_KICK : float := 10.
Definition SLING_KICK : float := 7.
Definition FLIPPER_KICK : float := 14.
Definition MAX_VELOCITY : float := 28.
Definition LAUNCH_VELOCITY_MIN : float := 12.
Definition LAUNCH_VELOCITY_MAX : float := 22.

Definition WIDTH : float := 800.
Definition HEIGHT : float := 1200.
Definition SHOOTER_LANE_x : float := 750.
Definition SHOOTER_LANE_y : float := 1100.
Definition SHOOTER_LANE_width : float := 40.
Definition LEFT_FLIPPER_x : float := 280.
Definition LEFT_FLIPPER_y : float := 1050.
Definition RIGHT_FLIPPER_x : float := 520.
Definition RIGHT_FLIPPER_y : float := 1050.
Definition DRAIN_x : float := 300.
Definition DRAIN_y : float := 1180.
Definition DRAIN_width : float := 200.

(** ** Balls *)

Record Ball := mkBall {
  id : nat;
  x : float;
  y : float;
  prevX : float;
  prevY : float;
  vx : float;
  vy : float;
  radius : float;
  active : bool;
  captured : bool;
  capturedBy : option string
}.

(** [new Ball(x, y, id)] *)
Definition Ball_new (x0 y0 : float) (id0 : nat) : Ball :=
  {| id := id0; x := x0; y := y0; prevX := x0; prevY := y0;
     vx := 0; vy := 0; radius := BALL_RADIUS;
     active := true; captured := false; capturedBy := None |}.

Definition set_pos (x' y' : float) (b : Ball) : Ball :=
  {| id := id b; x := x'; y := y'; prevX := prevX b; prevY := prevY b;
     vx := vx b; vy := vy b; radius := radius b;
     active := active b; captured := captured b;
     capturedBy := capturedBy b |}.

Definition set_vel (vx' vy' : float) (b : Ball) : Ball :=
  {| id := id b; x := x b; y := y b; prevX := prevX b; prevY := prevY b;
     vx := vx'; vy := vy'; radius := radius b;
     active := active b; captured := captured b;
     capturedBy := capturedBy b |}.

(** The velocity part of [Ball.update]: gravity, friction, and the clamp of
    the speed by scaling the vector. *)
Definition nextVelocity (vx0 vy0 : float) : float * float :=
  let vy1 := vy0 + GRAVITY in
  let vx2 := vx0 * BALL_FRICTION in
  let vy2 := vy1 * BALL_FRICTION in
  let speed := Math_sqrt (vx2 * vx2 + vy2 * vy2) in
  if MAX_VELOCITY <? speed then
    let scale := MAX_VELOCITY / speed in
    (vx2 * scale, vy2 * scale)
  else (vx2, vy2).

(** [Ball.update(dt)] *)
Definition Ball_update (b : Ball) : Ball :=
  if negb (active b) || captured b then b
  else
    let '(vx', vy') := nextVelocity (vx b) (vy b) in
    {| id := id b; x := x b + vx'; y := y b + vy';
       prevX := x b; prevY := y b;
       vx := vx'; vy := vy'; radius := radius b;
       active := active b; captured := captured b;
       capturedBy := capturedBy b |}.

(** [Ball.applyImpulse(ix, iy)] *)
Definition applyImpulse (ix iy : float) (b : Ball) : Ball :=
  set_vel (vx b + ix) (vy b + iy) b.

(** [Ball.capture(captor)] *)
Definition capture (captor : string) (b : Ball) : Ball :=
  {| id := id b; x := x b; y := y b; prevX := prevX b; prevY := prevY b;
     vx := 0; vy := 0; radius := radius b;
     active := active b; captured := true; capturedBy := Some captor |}.

(** [Ball.release(vx, vy)] *)
Definition release (vx' vy' : float) (b : Ball) : Ball :=
  {| id := id b; x := x b; y := y b; prevX := prevX b; prevY := prevY b;
     vx := vx'; vy := vy'; radius := radius b;
     active := active b; captured := false; capturedBy := None |}.

(** ** Flippers *)

Record Flipper := mkFlipper {
  fx : float;
  fy : float;
  isLeft : bool;
  length : float;
  width : float;
  restAngle : float;
  maxAngle : float;
  angle : float;
  targetAngle : float;
  angularVelocity : float;
  isPressed : bool
}.

(** [new Flipper(x, y, isLeft)] *)
Definition Flipper_new (x0 y0 : float) (left : bool) : Flipper :=
  let rest :=
    if left then FLIPPER_REST_ANGLE * Math_PI / 180
    else Math_PI - FLIPPER_REST_ANGLE * Math_PI / 180 in
  let max :=
    if left then (FLIPPER_REST_ANGLE + FLIPPER_MAX_ANGLE) * Math_PI / 180
    else Math_PI
         - (FLIPPER_REST_ANGLE + FLIPPER_MAX_ANGLE) * Math_PI / 180 in
  {| fx := x0; fy := y0; isLeft := left;
     length := FLIPPER_LENGTH; width := FLIPPER_WIDTH;
     restAngle := rest; maxAngle := max;
     angle := rest; targetAngle := rest;
     angularVelocity := 0; isPressed := false |}.

Definition set_target (pressed : bool) (target : float) (f : Flipper)
  : Flipper :=
  {| fx := fx f; fy := fy f; isLeft := isLeft f;
     length := length f; width := width f;
     restAngle := restAngle f; maxAngle := maxAngle f;
     angle := angle f; targetAngle := target;
     angularVelocity := angularVelocity f; isPressed := pressed |}.

Definition set_motion (a av : float) (f : Flipper) : Flipper :=
  {| fx := fx f; fy := fy f; isLeft := isLeft f;
     length := length f; width := width f;
     restAngle := restAngle f; maxAngle := maxAngle f;
     angle := a; targetAngle := targetAngle f;
     angularVelocity := av; isPressed := isPressed f |}.

(** [Flipper.press()] *)
Definition press (f : Flipper) : Flipper := set_target true (maxAngle f) f.

(** [Flipper.release()] *)
Definition Flipper_release (f : Flipper) : Flipper :=
  set_target false (restAngle f) f.

(** [Flipper.update(dt)] *)
Definition Flipper_update (f : Flipper) : Flipper :=
  let angleDiff := targetAngle f - angle f in
  let angularSpeed := FLIPPER_ANGULAR_VEL * Math_PI / 180 in
  if Math_abs angleDiff <? 0.01 then
    set_motion (targetAngle f) 0 f
  else if 0 <? angleDiff then
    let av := if isLeft f then angularSpeed else - angularSpeed in
    let a := angle f + av in
    if (isLeft f && (targetAngle f <? a))
       || (negb (isLeft f) && (a <? targetAngle f))
    then set_motion (targetAngle f) av f
    else set_motion a av f
  else
    let av := if isLeft f then - angularSpeed * 0.6
              else angularSpeed * 0.6 in
    let a := angle f + av in
    if (isLeft f && (a <? targetAngle f))
       || (negb (isLeft f) && (targetAngle f <? a))
    then set_motion (targetAngle f) av f
    else set_motion a av f.

(** [Flipper.isMovingUp()] *)
Definition isMovingUp (f : Flipper) : bool :=
  if isLeft f then 0.1 <? angularVelocity f
  else angularVelocity f <? -0.1.

(** ** Collision zones (physics/CollisionSystem.js) *)

Inductive Shape :=
| Circle (cx cy r : float)          (* type: 'circle', x, y, radius *)
| Rect (rx ry w h : float)          (* type: 'rect', x, y, w, h     *)
| Line (x1 y1 x2 y2 : float).       (* type: 'line', x1, y1, x2, y2 *)

(** An entry of [CollisionZones].  A property the entry does not have is
    [None], [false], or NaN for [kickStrength]. *)
Record Zone := mkZone {
  zname : string;
  shape : Shape;
  switchId : option nat;
  kicks : bool;
  kickStrength : float;
  capturesBall : bool;
  normal : option (float * float)
}.

(** Three entries of the table [CollisionZones]. *)
Definition bumper_left : Zone :=
  {| zname := "bumper_left"; shape := Circle 250 280 28;
     switchId := Some 41%nat; kicks := true; kickStrength := BUMPER_KICK;
     capturesBall := false; normal := None |}.

Definition left_bank_1 : Zone :=
  {| zname := "left_bank_1"; shape := Rect 70 500 18 35;
     switchId := Some 25%nat; kicks := false; kickStrength := nan;
     capturesBall := false; normal := Some (1, 0) |}.

Definition scoop : Zone :=
  {| zname := "scoop"; shape := Circle 150 550 25;
     switchId := Some 50%nat; kicks := false; kickStrength := nan;
     capturesBall := true; normal := None |}.

(** The table [CollisionZones], in its order. *)
Definition CollisionZones : list Zone := [
  bumper_left;
  mkZone "bumper_bottom" (Circle 350 350 28)
    (Some 42%nat) true BUMPER_KICK false None;
  mkZone "bumper_right" (Circle 450 280 28)
    (Some 43%nat) true BUMPER_KICK false None;
  mkZone "top_lane_left" (Rect 200 80 60 30)
    (Some 53%nat) false nan false (Some (0, 1));
  mkZone "top_lane_mid" (Rect 300 70 60 30)
    (Some 52%nat) false nan false (Some (0, 1));
  mkZone "top_lane_right" (Rect 400 80 60 30)
    (Some 51%nat) false nan false (Some (0, 1));
  left_bank_1;
  mkZone "left_bank_2" (Rect 70 455 18 35)
    (Some 26%nat) false nan false (Some (1, 0));
  mkZone "left_bank_3" (Rect 70 410 18 35)
    (Some 27%nat) false nan false (Some (1, 0));
  mkZone "left_bank_4" (Rect 70 365 18 35)
    (Some 28%nat) false nan false (Some (1, 0));
  mkZone "left_bank_5" (Rect 70 320 18 35)
    (Some 29%nat) false nan false (Some (1, 0));
  mkZone "right_bank_1" (Rect 712 500 18 35)
    (Some 44%nat) false nan false (Some ((-1), 0));
  mkZone "right_bank_2" (Rect 712 455 18 35)
    (Some 45%nat) false nan false (Some ((-1), 0));
  mkZone "right_bank_3" (Rect 712 410 18 35)
    (Some 46%nat) false nan false (Some ((-1), 0));
  mkZone "right_bank_4" (Rect 712 365 18 35)
    (Some 47%nat) false nan false (Some ((-1), 0));
  mkZone "right_bank_5" (Rect 712 320 18 35)
    (Some 48%nat) false nan false (Some ((-1), 0));
  mkZone "center_target_1" (Rect 340 200 40 15)
    (Some 33%nat) false nan false (Some (0, 1));
  mkZone "center_target_2" (Rect 390 200 40 15)
    (Some 34%nat) false nan false (Some (0, 1));
  mkZone "center_target_3" (Rect 440 200 40 15)
    (Some 35%nat) false nan false (Some (0, 1));
  mkZone "left_sling" (Line 180 950 230 880)
    (Some 61%nat) true SLING_KICK false None;
  mkZone "right_sling" (Line 620 950 570 880)
    (Some 62%nat) true SLING_KICK false None;
  scoop;
  mkZone "left_ramp_enter" (Rect 120 650 50 20)
    (Some 22%nat) false nan false (Some (0, 1));
  mkZone "center_ramp_enter" (Rect 370 450 60 20)
    (Some 54%nat) false nan false (Some (0, 1));
  mkZone "right_ramp_enter" (Rect 620 650 50 20)
    (Some 19%nat) false nan false (Some (0, 1));
  mkZone "left_ramp_made" (Rect 200 750 40 15)
    (Some 32%nat) false nan false (Some (0, 1));
  mkZone "center_ramp_exit" (Rect 380 550 40 15)
    (Some 18%nat) false nan false (Some (0, 1));
  mkZone "right_ramp_exit" (Rect 550 750 40 15)
    (Some 17%nat) false nan false (Some (0, 1));
  mkZone "left_orbit" (Rect 90 200 30 40)
    (Some 23%nat) false nan false (Some (1, 0));
  mkZone "right_orbit" (Rect 680 200 30 40)
    (Some 24%nat) false nan false (Some ((-1), 0));
  mkZone "spinner" (Rect 550 250 25 50)
    (Some 40%nat) false nan false (Some ((-1), 0));
  mkZone "left_standup" (Rect 100 700 20 40)
    (Some 30%nat) false nan false (Some (1, 0));
  mkZone "center_standup" (Rect 390 600 20 30)
    (Some 39%nat) false nan false (Some (0, 1));
  mkZone "tank_entrance" (Rect 580 550 40 20)
    (Some 36%nat) false nan false (Some (0, 1));
  mkZone "tank_lock_1" (Circle 620 500 15) (Some 37%nat) false nan true None;
  mkZone "tank_lock_2" (Circle 660 480 15) (Some 38%nat) false nan true None;
  mkZone "satellite_shot" (Circle 400 150 30)
    (Some 55%nat) false nan false None;
  mkZone "satellite_lock" (Circle 130 250 18)
    (Some 56%nat) false nan true None;
  mkZone "left_lock" (Circle 150 700 18) (Some 31%nat) false nan true None;
  mkZone "left_outlane" (Rect 100 1000 30 80)
    (Some 57%nat) false nan false (Some (1, 0));
  mkZone "right_outlane" (Rect 670 1000 30 80)
    (Some 58%nat) false nan false (Some ((-1), 0));
  mkZone "left_return" (Rect 160 980 30 50)
    (Some 59%nat) false nan false (Some (1, 0));
  mkZone "right_return" (Rect 610 980 30 50)
    (Some 60%nat) false nan false (Some ((-1), 0));
  mkZone "shooter_lane" (Rect 740 900 40 30)
    (Some 16%nat) false nan false (Some ((-1), 0));
  mkZone "wall_upper_left" (Line 50 200 150 60) None false nan false None;
  mkZone "wall_upper_right" (Line 650 60 750 200) None false nan false None;
  mkZone "wall_left" (Line 50 200 50 900) None false nan false None;
  mkZone "wall_right_upper" (Line 750 200 750 850) None false nan false None;
  mkZone "wall_left_outlane_guide" (Line 50 900 130 1080)
    None false nan false None;
  mkZone "wall_right_outlane_guide" (Line 700 900 670 1080)
    None false nan false None;
  mkZone "wall_left_divider" (Line 140 950 180 1050)
    None false nan false None;
  mkZone "wall_right_divider" (Line 660 950 620 1050)
    None false nan false None
].

(** What the engine emits on the event bus. *)
Inductive Event :=
| BallPosition (ballId : nat) (px py pvx pvy : float)
| ZoneCollision (sw : option nat) (zoneName : string)
    (px py pvx pvy : float)
| FlipperHit (left : bool)
| BallDrained (ballId : nat).

(** ** The collision resolver *)

(** The response every [check*Collision] of the source writes out: push the
    ball out along the normal by the overlap, reflect the velocity about the
    normal, damp it. *)
Definition bounce (nx ny overlap : float) (b : Ball) : Ball :=
  let x' := x b + nx * overlap in
  let y' := y b + ny * overlap in
  let dot := vx b * nx + vy b * ny in
  let vx1 := vx b - 2 * dot * nx in
  let vy1 := vy b - 2 * dot * ny in
  set_vel (vx1 * BOUNCE_DAMPING) (vy1 * BOUNCE_DAMPING) (set_pos x' y' b).

(** [checkCircleCollision(ball, zone)] for a zone of shape
    [Circle cx cy r]. *)
Definition checkCircleCollision (b : Ball) (z : Zone) (cx cy r : float)
  : bool * Ball :=
  let dx := x b - cx in
  let dy := y b - cy in
  let dist := Math_sqrt (dx * dx + dy * dy) in
  let minDist := radius b + r in
  if dist <? minDist then
    let overlap := minDist - dist in
    let nx := dx / dist in
    let ny := dy / dist in
    let b1 := bounce nx ny overlap b in
    (true,
     if kicks z
     then set_vel (vx b1 + nx * kickStrength z)
            (vy b1 + ny * kickStrength z) b1
     else b1)
  else (false, b).

(** [checkRectCollision(ball, zone)] for a zone of shape [Rect rx ry w h]. *)
Definition checkRectCollision (b : Ball) (z : Zone) (rx ry w h : float)
  : bool * Ball :=
  let closestX := Math_max rx (Math_min (x b) (rx + w)) in
  let closestY := Math_max ry (Math_min (y b) (ry + h)) in
  let dx := x b - closestX in
  let dy := y b - closestY in
  let dist := Math_sqrt (dx * dx + dy * dy) in
  if dist <? radius b then
    let overlap := radius b - dist in
    let nx := if 0 <? dist then dx / dist
              else match normal z with
                   | Some n => orElse (fst n) 0
                   | None => 0
                   end in
    let ny := if 0 <? dist then dy / dist
              else match normal z with
                   | Some n => orElse (snd n) (-1)
                   | None => -1
                   end in
    (true, bounce nx ny overlap b)
  else (false, b).

(** [checkLineCollision(ball, zone)] for a zone of shape
    [Line x1 y1 x2 y2]. *)
Definition checkLineCollision (b : Ball) (x1 y1 x2 y2 : float)
  : bool * Ball :=
  let dx := x2 - x1 in
  let dy := y2 - y1 in
  let len := Math_sqrt (dx * dx + dy * dy) in
  let nx := dx / len in
  let ny := dy / len in
  let bx := x b - x1 in
  let by' := y b - y1 in
  let proj := bx * nx + by' * ny in
  let clampedProj := Math_max 0 (Math_min len proj) in
  let closestX := x1 + nx * clampedProj in
  let closestY := y1 + ny * clampedProj in
  let distX := x b - closestX in
  let distY := y b - closestY in
  let dist := Math_sqrt (distX * distX + distY * distY) in
  if dist <? radius b then
    let overlap := radius b - dist in
    (true, bounce (distX / dist) (distY / dist) overlap b)
  else (false, b).

(** [checkZoneCollision(ball, zone)] *)
Definition checkZoneCollision (b : Ball) (z : Zone) : bool * Ball :=
  match shape z with
  | Circle cx cy r => checkCircleCollision b z cx cy r
  | Rect rx ry w h => checkRectCollision b z rx ry w h
  | Line x1 y1 x2 y2 => checkLineCollision b x1 y1 x2 y2
  end.

(** [zone.x] and [zone.y]; a line zone has neither, and a ball coordinate
    set to [undefined] behaves as NaN in all that follows. *)
Definition anchor (z : Zone) : float * float :=
  match shape z with
  | Circle cx cy _ => (cx, cy)
  | Rect rx ry _ _ => (rx, ry)
  | Line _ _ _ _ => (nan, nan)
  end.

(** [handleZoneHit(ball, zone)] *)
Definition handleZoneHit (b : Ball) (z : Zone) : Ball * list Event :=
  let ev := ZoneCollision (switchId z) (zname z) (x b) (y b) (vx b) (vy b) in
  if capturesBall z then
    let b1 := capture (zname z) b in
    (set_pos (fst (anchor z)) (snd (anchor z)) b1, [ev])
  else (b, [ev]).

(** [checkZoneCollisions(ball)] over the zone table. *)
Fixpoint checkZoneCollisions (zones : list Zone) (b : Ball)
  : Ball * list Event :=
  match zones with
  | [] => (b, [])
  | z :: rest =>
      let '(hit, b1) := checkZoneCollision b z in
      let '(b2, evs) := if hit then handleZoneHit b1 z else (b1, []) in
      let '(b3, evs') := checkZoneCollisions rest b2 in
      (b3, evs ++ evs')
  end.

Record Bounds := mkBounds {
  left : float;
  right : float;
  top : float;
  bottom : float
}.

(** [checkBoundaryCollision(ball)] *)
Definition checkBoundaryCollision (bd : Bounds) (b : Ball) : Ball :=
  let b1 :=
    if x b - radius b <? left bd
    then set_vel (Math_abs (vx b) * BOUNCE_DAMPING) (vy b)
           (set_pos (left bd + radius b) (y b) b)
    else b in
  let b2 :=
    if (right bd <? x b1 + radius b1) && (y b1 <? SHOOTER_LANE_y - 100)
    then set_vel (- Math_abs (vx b1) * BOUNCE_DAMPING) (vy b1)
           (set_pos (right bd - radius b1) (y b1) b1)
    else b1 in
  if y b2 - radius b2 <? top bd
  then set_vel (vx b2) (Math_abs (vy b2) * BOUNCE_DAMPING)
         (set_pos (x b2) (top bd + radius b2) b2)
  else b2.

(** [checkDrain(ball)] *)
Definition checkDrain (b : Ball) : Ball * list Event :=
  if (DRAIN_x <? x b) && (x b <? DRAIN_x + DRAIN_width) && (DRAIN_y <? y b)
  then ({| id := id b; x := x b; y := y b;
           prevX := prevX b; prevY := prevY b;
           vx := vx b; vy := vy b; radius := radius b;
           active := false; captured := captured b;
           capturedBy := capturedBy b |},
        [BallDrained (id b)])
  else (b, []).

(** ** The engine *)

(** A [PhysicsEngine] object.  [balls] is the array [this.balls]: each entry
    is a reference to a [Ball] object, written as the address of the object
    together with its current contents; [allocated] counts the [Ball]
    objects created so far and gives the next address. *)
Record Engine := mkEngine {
  balls : list (nat * Ball);
  allocated : nat;
  leftFlipper : option Flipper;
  rightFlipper : option Flipper;
  collisionZones : list Zone;
  bounds : Bounds;
  plungerPower : float;
  plungerCharging : bool
}.

(** [constructor()] *)
Definition Engine_new : Engine :=
  {| balls := []; allocated := 0;
     leftFlipper := None; rightFlipper := None; collisionZones := [];
     bounds := {| left := 50; right := WIDTH - 50; top := 50;
                  bottom := HEIGHT |};
     plungerPower := 0; plungerCharging := false |}.

Definition set_balls (bs : list (nat * Ball)) (e : Engine) : Engine :=
  {| balls := bs; allocated := allocated e;
     leftFlipper := leftFlipper e; rightFlipper := rightFlipper e;
     collisionZones := collisionZones e; bounds := bounds e;
     plungerPower := plungerPower e;
     plungerCharging := plungerCharging e |}.

Definition set_flippers (l r : option Flipper) (e : Engine) : Engine :=
  {| balls := balls e; allocated := allocated e;
     leftFlipper := l; rightFlipper := r;
     collisionZones := collisionZones e; bounds := bounds e;
     plungerPower := plungerPower e;
     plungerCharging := plungerCharging e |}.

Definition set_plunger (power : float) (charging : bool) (e : Engine)
  : Engine :=
  {| balls := balls e; allocated := allocated e;
     leftFlipper := leftFlipper e; rightFlipper := rightFlipper e;
     collisionZones := collisionZones e; bounds := bounds e;
     plungerPower := power; plungerCharging := charging |}.

(** [initialize()] *)
Definition initialize (e : Engine) : Engine :=
  {| balls := balls e; allocated := allocated e;
     leftFlipper := Some (Flipper_new LEFT_FLIPPER_x LEFT_FLIPPER_y true);
     rightFlipper := Some (Flipper_new RIGHT_FLIPPER_x RIGHT_FLIPPER_y false);
     collisionZones := CollisionZones; bounds := bounds e;
     plungerPower := plungerPower e;
     plungerCharging := plungerCharging e |}.

(** [createBall(x, y)]: the new ball takes the current size of the array as
    its id.  Returns the reference to the new ball. *)
Definition createBall (x0 y0 : float) (e : Engine) : nat * Engine :=
  let ball := Ball_new x0 y0 (List.length (balls e)) in
  (allocated e,
   {| balls := balls e ++ [(allocated e, ball)];
      allocated := S (allocated e);
      leftFlipper := leftFlipper e; rightFlipper := rightFlipper e;
      collisionZones := collisionZones e; bounds := bounds e;
      plungerPower := plungerPower e;
      plungerCharging := plungerCharging e |}).

(** [createBallInShooter()] *)
Definition createBallInShooter (e : Engine) : nat * Engine :=
  createBall (SHOOTER_LANE_x + SHOOTER_LANE_width / 2) SHOOTER_LANE_y e.

(** [this.balls.indexOf(ball)] *)
Fixpoint indexOf (ref : nat) (bs : list (nat * Ball)) : option nat :=
  match bs with
  | [] => None
  | (a, _) :: rest =>
      if Nat.eqb a ref then Some O else S <$> indexOf ref rest
  end.

(** [removeBall(ball)] *)
Definition removeBall (ref : nat) (e : Engine) : Engine :=
  match indexOf ref (balls e) with
  | Some i => set_balls (take i (balls e) ++ drop (S i) (balls e)) e
  | None => e
  end.

(** [getActiveBalls()] *)
Definition getActiveBalls (e : Engine) : list (nat * Ball) :=
  List.filter (fun rb => active (snd rb) && negb (captured (snd rb)))
    (balls e).

(** A method call [ball.f()] on the ball object at address [ref]. *)
Definition onBall (ref : nat) (f : Ball -> Ball) (e : Engine) : Engine :=
  set_balls
    (map (fun rb => if Nat.eqb (fst rb) ref then (fst rb, f (snd rb)) else rb)
       (balls e)) e.

(** The contents of the ball object at address [ref], if the array still
    refers to it. *)
Definition ballAt (ref : nat) (e : Engine) : option Ball :=
  snd <$> List.find (fun rb => Nat.eqb (fst rb) ref) (balls e).

(** [reset()] *)
Definition reset (e : Engine) : Engine :=
  {| balls := []; allocated := allocated e;
     leftFlipper := Flipper_release <$> leftFlipper e;
     rightFlipper := Flipper_release <$> rightFlipper e;
     collisionZones := collisionZones e; bounds := bounds e;
     plungerPower := 0; plungerCharging := false |}.

(** [pressLeftFlipper()], [releaseLeftFlipper()], [pressRightFlipper()],
    [releaseRightFlipper()] *)
Definition pressLeftFlipper (e : Engine) : Engine :=
  set_flippers (press <$> leftFlipper e) (rightFlipper e) e.
Definition releaseLeftFlipper (e : Engine) : Engine :=
  set_flippers (Flipper_release <$> leftFlipper e) (rightFlipper e) e.
Definition pressRightFlipper (e : Engine) : Engine :=
  set_flippers (leftFlipper e) (press <$> rightFlipper e) e.
Definition releaseRightFlipper (e : Engine) : Engine :=
  set_flippers (leftFlipper e) (Flipper_release <$> rightFlipper e) e.

(** The first ball of the array that satisfies [p] gets [f]:
    [const b = this.balls.find(p); if (b) f(b)]. *)
Fixpoint onFirst (p : Ball -> bool) (f : Ball -> Ball)
  (bs : list (nat * Ball)) : option (list (nat * Ball)) :=
  match bs with
  | [] => None
  | (a, b) :: rest =>
      if p b then Some ((a, f b) :: rest)
      else (fun rest' => (a, b) :: rest') <$> onFirst p f rest
  end.

(** [ejectCapturedBall(captor, power)] *)
Definition ejectCapturedBall (captor : string) (power : bool) (e : Engine)
  : Engine :=
  let ejectSpeed : float := if power then 15 else 10 in
  match onFirst (fun b => captured b
                          && bool_decide (capturedBy b = Some captor))
          (release 0 (- ejectSpeed)) (balls e) with
  | Some bs => set_balls bs e
  | None => e
  end.

(** [launchBall()] *)
Definition launchBall (e : Engine) : Engine :=
  let power := LAUNCH_VELOCITY_MIN
               + (LAUNCH_VELOCITY_MAX - LAUNCH_VELOCITY_MIN)
                 * plungerPower e in
  match onFirst (fun b => active b && (SHOOTER_LANE_x - 20 <? x b)
                          && (SHOOTER_LANE_y - 50 <? y b))
          (fun b => set_vel (-2) (- power) b) (balls e) with
  | Some bs => set_plunger 0 (plungerCharging e) (set_balls bs e)
  | None => e
  end.

(** [startPlungerCharge()] and [releasePlunger()] *)
Definition startPlungerCharge (e : Engine) : Engine := set_plunger 0 true e.
Definition releasePlunger (e : Engine) : Engine :=
  launchBall (set_plunger (plungerPower e) false e).

(** ** Flipper collisions and the tick

    [Math.cos] and [Math.sin] are taken as they come. *)
Section Trigonometry.

Variables Math_cos Math_sin : float -> float.

(** [Flipper.getTipPosition()] *)
Definition getTipPosition (f : Flipper) : float * float :=
  (fx f + Math_cos (angle f) * length f,
   fy f + Math_sin (angle f) * length f).

(** [checkFlipperCollision(ball, flipper)] *)
Definition checkFlipperCollision (b : Ball) (flipper : option Flipper)
  : Ball * list Event :=
  match flipper with
  | None => (b, [])
  | Some f =>
      let tip := getTipPosition f in
      let dx := fst tip - fx f in
      let dy := snd tip - fy f in
      let len := Math_sqrt (dx * dx + dy * dy) in
      let nx := dx / len in
      let ny := dy / len in
      let bx := x b - fx f in
      let by' := y b - fy f in
      let proj := bx * nx + by' * ny in
      let clampedProj := Math_max 0 (Math_min len proj) in
      let closestX := fx f + nx * clampedProj in
      let closestY := fy f + ny * clampedProj in
      let distX := x b - closestX in
      let distY := y b - closestY in
      let dist := Math_sqrt (distX * distX + distY * distY) in
      let collisionDist := radius b + width f / 2 in
      if dist <? collisionDist then
        let overlap := collisionDist - dist in
        let b1 := bounce (distX / dist) (distY / dist) overlap b in
        let b2 :=
          if isMovingUp f then
            let kickStrength := FLIPPER_KICK in
            let kickX := - ny * kickStrength
                         * (if isLeft f then 0.3 else -0.3) in
            let kickY := - Math_abs nx * kickStrength in
            applyImpulse kickX kickY b1
          else b1 in
        (b2, [FlipperHit (isLeft f)])
      else (b, [])
  end.

(** The body of the loop of [PhysicsEngine.update] for a ball that is
    active and not captured. *)
Definition stepBall (e : Engine) (b : Ball) : Ball * list Event :=
  let b1 := Ball_update b in
  let b2 := checkBoundaryCollision (bounds e) b1 in
  let '(b3, ev3) := checkFlipperCollision b2 (leftFlipper e) in
  let '(b4, ev4) := checkFlipperCollision b3 (rightFlipper e) in
  let '(b5, ev5) := checkZoneCollisions (collisionZones e) b4 in
  let '(b6, ev6) := checkDrain b5 in
  (b6, ev3 ++ ev4 ++ ev5 ++ ev6
       ++ [BallPosition (id b6) (x b6) (y b6) (vx b6) (vy b6)]).

(** The loop of [PhysicsEngine.update] over [this.balls]. *)
Fixpoint stepBalls (e : Engine) (bs : list (nat * Ball))
  : list (nat * Ball) * list Event :=
  match bs with
  | [] => ([], [])
  | (a, b) :: rest =>
      let '(b', evs) :=
        if negb (active b) || captured b then (b, [])
        else stepBall e b in
      let '(rest', evs') := stepBalls e rest in
      ((a, b') :: rest', evs ++ evs')
  end.

(** The first part of [PhysicsEngine.update]: the flippers move and the
    plunger charges. *)
Definition beforeBalls (e : Engine) : Engine :=
  let e1 := set_flippers (Flipper_update <$> leftFlipper e)
              (Flipper_update <$> rightFlipper e) e in
  if plungerCharging e1
  then set_plunger (Math_min 1 (plungerPower e1 + 0.02))
         (plungerCharging e1) e1
  else e1.

(** [PhysicsEngine.update(dt)] *)
Definition update (e : Engine) : Engine * list Event :=
  let e2 := beforeBalls e in
  let '(bs, evs) := stepBalls e2 (balls e2) in
  (set_balls bs e2, evs).

(** [n] ticks in a row. *)
Fixpoint ticks (n : nat) (e : Engine) : Engine :=
  match n with
  | O => e
  | S n' => ticks n' (fst (update e))
  end.

End Trigonometry.

(** ** Concrete objects *)

(** The two flippers [initialize()] creates. *)
Definition theLeftFlipper : Flipper :=
  Flipper_new LEFT_FLIPPER_x LEFT_FLIPPER_y true.
Definition theRightFlipper : Flipper :=
  Flipper_new RIGHT_FLIPPER_x RIGHT_FLIPPER_y false.

(** The angular speed of a strike, in radians per tick. *)
Definition angularSpeed : float := FLIPPER_ANGULAR_VEL * Math_PI / 180.

(** A ball of radius 12 whose center is the center of [bumper_left]. *)
Definition centered : Ball := Ball_new 250 280 0.

(** An engine with the zone table and no flippers, and a ball at rest that
    its first integration step puts on the center of [bumper_left]. *)
Definition falling : Engine :=
  snd (createBall 250 (280 - snd (nextVelocity 0 0))
         {| balls := []; allocated := 0;
            leftFlipper := None; rightFlipper := None;
            collisionZones := CollisionZones;
            bounds := bounds Engine_new;
            plungerPower := 0; plungerCharging := false |}).

(** Two balls are created, the first is removed, a third is created. *)
Definition afterRemoval : Engine :=
  let '(first, e) := createBall 100 100 Engine_new in
  let '(second, e) := createBall 200 200 e in
  let e := removeBall first e in
  let '(third, e) := createBall 300 300 e in
  e.

(** An initialized engine holding one ball in the shooter lane. *)
Definition oneBall : Engine :=
  snd (createBallInShooter (initialize Engine_new)).

(** Stand-ins for [Math.cos] and [Math.sin] where a run needs values: the
    first terms of their series. *)
Definition cosApprox (a : float) : float := 1 - a * a / 2.
Definition sinApprox (a : float) : float := a - a * a * a / 6.

(** The same flipper without angular velocity. *)
Definition still (f : Flipper) : Flipper := set_motion (angle f) 0 f.

(** The ids of the balls of the array, in its order. *)
Definition ids (e : Engine) : list nat := map (fun rb => id (snd rb)) (balls e).

Definition allNaN (b : Ball) : bool :=
  is_nan (x b) && is_nan (y b) && is_nan (vx b) && is_nan (vy b).

(** ** Properties of the physics engine *)

Lemma ballAt_onBall (ref : nat) (f : Ball -> Ball) (e : Engine) :
  ballAt ref (onBall ref f e) = f <$> ballAt ref e.
Proof.
  unfold ballAt, onBall; simpl.
  induction (balls e) as [|[a b] bs IH]; simpl; [reflexivity|].
  destruct (Nat.eqb a ref) eqn:E; simpl; rewrite E; [reflexivity|exact IH].
Qed.

(** In the tick in which a zone of the table captures a ball, the ball
    leaves [handleZoneHit] captured, with velocity (0,0), and neither the
    zones that follow in the table nor the drain check touch it. *)
Lemma capture_tick_ends_at_rest (i : nat) (z : Zone) (b : Ball) :
  CollisionZones !! i = Some z -> capturesBall z = true ->
  radius b = BALL_RADIUS ->
  captured (fst (handleZoneHit b z)) = true /\
  vx (fst (handleZoneHit b z)) = 0 /\
  vy (fst (handleZoneHit b z)) = 0 /\
  checkZoneCollisions (drop (S i) CollisionZones) (fst (handleZoneHit b z))
  = (fst (handleZoneHit b z), []) /\
  checkDrain (fst (handleZoneHit b z)) = (fst (handleZoneHit b z), []).
Proof.
  intros Hz Hc Hr.
  destruct b as [bid bx bY bpx bpy bvx bvy br bact bcap bby].
  simpl in Hr. subst br. unfold CollisionZones in Hz.
  do 52 (destruct i as [|i];
         [simpl in Hz; injection Hz as <-;
          first [discriminate Hc | vm_compute; repeat split]|]).
  discriminate Hz.
Qed.

Section Ticks.

Variables Math_cos Math_sin : float -> float.

(** No step of the tick changes the id of a ball. *)
Lemma stepBall_id (e : Engine) (b : Ball) :
  id (fst (stepBall Math_cos Math_sin e b)) = id b.
Proof.
  assert (Hzone : forall b z, id (snd (checkZoneCollision b z)) = id b).
  { intros b0 z.
    unfold checkZoneCollision, checkCircleCollision, checkRectCollision,
      checkLineCollision.
    destruct (shape z); cbv zeta;
      repeat match goal with
             | |- context [if ?c then _ else _] => destruct c
             end; reflexivity. }
  assert (Hzones : forall zs b,
             id (fst (checkZoneCollisions zs b)) = id b).
  { induction zs as [|z zs IH]; intros b0; simpl; [reflexivity|].
    pose proof (Hzone b0 z) as Hz.
    destruct (checkZoneCollision b0 z) as [hit b1]. simpl in Hz.
    assert (Hhit : id (fst (if hit then handleZoneHit b1 z
                            else (b1, []))) = id b0).
    { destruct hit; [|exact Hz]. unfold handleZoneHit.
      destruct (capturesBall z); exact Hz. }
    destruct (if hit then handleZoneHit b1 z else (b1, [])) as [b2 evs].
    pose proof (IH b2) as H2.
    destruct (checkZoneCollisions zs b2) as [b3 evs']. simpl in *.
    congruence. }
  assert (Hflip : forall b f,
             id (fst (checkFlipperCollision Math_cos Math_sin b f)) = id b).
  { intros b0 [f|]; [|reflexivity].
    unfold checkFlipperCollision. cbv zeta.
    repeat match goal with
           | |- context [if ?c then _ else _] => destruct c
           end; reflexivity. }
  assert (Hupd : forall b, id (Ball_update b) = id b).
  { intros b0. unfold Ball_update.
    destruct (negb (active b0) || captured b0); [reflexivity|].
    destruct (nextVelocity (vx b0) (vy b0)). reflexivity. }
  assert (Hbound : forall bd b, id (checkBoundaryCollision bd b) = id b).
  { intros bd b0. unfold checkBoundaryCollision. cbv zeta.
    repeat match goal with
           | |- context [if ?c then _ else _] => destruct c
           end; reflexivity. }
  assert (Hdrain : forall b, id (fst (checkDrain b)) = id b).
  { intros b0. unfold checkDrain.
    destruct (_ && _); reflexivity. }
  unfold stepBall.
  pose proof (Hflip (checkBoundaryCollision (bounds e) (Ball_update b))
                (leftFlipper e)) as H3.
  destruct (checkFlipperCollision _ _ _ (leftFlipper e)) as [b3 ev3].
  pose proof (Hflip b3 (rightFlipper e)) as H4.
  destruct (checkFlipperCollision _ _ b3 _) as [b4 ev4].
  pose proof (Hzones (collisionZones e) b4) as H5.
  destruct (checkZoneCollisions _ b4) as [b5 ev5].
  pose proof (Hdrain b5) as H6.
  destruct (checkDrain b5) as [b6 ev6]. simpl in *.
  rewrite H6, H5, H4, H3, Hbound, Hupd. reflexivity.
Qed.

(** A tick keeps the array of balls and their ids: a drained ball is
    deactivated, not removed. *)
Lemma update_ids (e : Engine) :
  ids (fst (update Math_cos Math_sin e)) = ids e.
Proof.
  unfold update, ids.
  assert (H : forall e' bs,
             map (fun rb => id (snd rb))
               (fst (stepBalls Math_cos Math_sin e' bs))
             = map (fun rb => id (snd rb)) bs).
  { intros e'. induction bs as [|[a b] bs IH]; simpl; [reflexivity|].
    pose proof (stepBall_id e' b) as Hb.
    destruct (stepBalls Math_cos Math_sin e' bs) as [rest' evs'].
    destruct (negb (active b) || captured b); simpl in *.
    - rewrite IH. reflexivity.
    - destruct (stepBall Math_cos Math_sin e' b) as [b' evs].
      simpl in *. rewrite IH, Hb. reflexivity. }
  specialize (H (beforeBalls e) (balls (beforeBalls e))).
  destruct (stepBalls _ _ _ (balls (beforeBalls e))) as [bs evs].
  simpl in *. rewrite H. unfold beforeBalls. simpl.
  destruct (plungerCharging e); reflexivity.
Qed.

(** As long as balls are only created and ticks only deactivate them, the
    ids of the array are 0, 1, 2, ... in order, hence distinct. *)
Lemma ids_without_removal (creations : list (float * float * nat)) :
  forall e,
    ids e = seq 0 (List.length (balls e)) ->
    let e' := fold_left
                (fun e c =>
                   ticks Math_cos Math_sin (snd c)
                     (snd (createBall (fst (fst c)) (snd (fst c)) e)))
                creations e in
    ids e' = seq 0 (List.length (balls e')) /\ NoDup (ids e').
Proof.
  assert (Hticks : forall n e,
             ids (ticks Math_cos Math_sin n e) = ids e).
  { induction n as [|n IH]; intros e; simpl; [reflexivity|].
    rewrite IH. apply update_ids. }
  assert (Hlen : forall e, List.length (balls e) = List.length (ids e)).
  { intros e. unfold ids. rewrite length_map. reflexivity. }
  assert (Hl : forall n e,
             List.length (balls (ticks Math_cos Math_sin n e))
             = List.length (balls e)).
  { intros n e. rewrite !Hlen, Hticks. reflexivity. }
  induction creations as [|[[x0 y0] n] cs IH]; intros e He; simpl.
  - split; [exact He|]. rewrite He. apply NoDup_seq.
  - apply IH. rewrite Hticks, Hl.
    unfold ids, createBall; simpl.
    rewrite map_app, length_app; simpl.
    fold (ids e). rewrite He, Nat.add_1_r, seq_S. reflexivity.
Qed.

(** The loop over the balls treats each entry on its own: the entry at
    [ref] after the loop is the entry before, stepped unless inactive or
    captured. *)
Lemma stepBalls_entry (e : Engine) (ref : nat) :
  forall bs,
    snd <$> List.find (fun rb => Nat.eqb (fst rb) ref)
              (fst (stepBalls Math_cos Math_sin e bs))
    = (fun b => if negb (active b) || captured b then b
                else fst (stepBall Math_cos Math_sin e b))
        <$> (snd <$> List.find (fun rb => Nat.eqb (fst rb) ref) bs).
Proof.
  induction bs as [|[a b] bs IH]; simpl; [reflexivity|].
  destruct (stepBalls Math_cos Math_sin e bs) as [rest' evs'] eqn:Erest.
  simpl in IH.
  destruct (negb (active b) || captured b) eqn:Eskip; simpl.
  - destruct (Nat.eqb a ref); simpl; [rewrite Eskip; reflexivity|exact IH].
  - destruct (stepBall Math_cos Math_sin e b) as [b' evs] eqn:Estep; simpl.
    destruct (Nat.eqb a ref); simpl;
      [rewrite Eskip, Estep; reflexivity|exact IH].
Qed.

Lemma ballAt_update (e : Engine) (ref : nat) :
  ballAt ref (fst (update Math_cos Math_sin e))
  = (fun b => if negb (active b) || captured b then b
              else fst (stepBall Math_cos Math_sin (beforeBalls e) b))
      <$> ballAt ref e.
Proof.
  unfold update, ballAt.
  pose proof (stepBalls_entry (beforeBalls e) ref (balls (beforeBalls e)))
    as H.
  destruct (stepBalls Math_cos Math_sin (beforeBalls e)
              (balls (beforeBalls e))) as [bs evs].
  simpl in H |- *. rewrite H.
  unfold beforeBalls. simpl.
  destruct (plungerCharging e); reflexivity.
Qed.

(** A captured ball is the same after any number of ticks. *)
Lemma captured_frozen (n : nat) :
  forall (e : Engine) (ref : nat) (b : Ball),
    ballAt ref e = Some b -> captured b = true ->
    ballAt ref (ticks Math_cos Math_sin n e) = Some b.
Proof.
  induction n as [|n IH]; intros e ref b Hb Hc; simpl; [exact Hb|].
  apply IH; [|exact Hc].
  rewrite ballAt_update, Hb. simpl. rewrite Hc, orb_true_r. reflexivity.
Qed.

(** C5, as it holds.  A ball captured by [capture] has velocity (0,0) and
    keeps its position, and as long as nothing but ticks happens it stays
    exactly so: the tick skips it, so it is neither integrated nor checked
    for collisions.  After [release(vx, vy)] the next tick runs the whole
    step on it again, from velocity (vx, vy): gravity 0.12 is added to vy,
    both components are multiplied by the friction 0.998 and the speed is
    clamped to 28; the ball moves from its held position by the new velocity;
    then the boundary, the two flippers, the zones and the drain are
    checked, in this order. *)
Theorem captured_ball_frozen_until_released
  (e : Engine) (ref : nat) (b : Ball) (captor : string) (n : nat)
  (rvx rvy : float) :
  ballAt ref e = Some b -> active b = true ->
  let held :=
    {| id := id b; x := x b; y := y b; prevX := prevX b; prevY := prevY b;
       vx := 0; vy := 0; radius := radius b;
       active := true; captured := true; capturedBy := Some captor |} in
  let released :=
    {| id := id b; x := x b; y := y b; prevX := prevX b; prevY := prevY b;
       vx := rvx; vy := rvy; radius := radius b;
       active := true; captured := false; capturedBy := None |} in
  let vx2 := rvx * 0.998 in
  let vy2 := (rvy + 0.12) * 0.998 in
  let speed := Math_sqrt (vx2 * vx2 + vy2 * vy2) in
  let vx' := if 28 <? speed then vx2 * (28 / speed) else vx2 in
  let vy' := if 28 <? speed then vy2 * (28 / speed) else vy2 in
  let integrated :=
    {| id := id b; x := x b + vx'; y := y b + vy';
       prevX := x b; prevY := y b;
       vx := vx'; vy := vy'; radius := radius b;
       active := true; captured := false; capturedBy := None |} in
  let e1 := ticks Math_cos Math_sin n (onBall ref (capture captor) e) in
  let e2 := onBall ref (release rvx rvy) e1 in
  let e3 := beforeBalls e2 in
  (forall k,
      ballAt ref (ticks Math_cos Math_sin k (onBall ref (capture captor) e))
      = Some held) /\
  ballAt ref e2 = Some released /\
  ballAt ref (fst (update Math_cos Math_sin e2))
  = Some (fst (let b2 := checkBoundaryCollision (bounds e3) integrated in
               let '(b3, _) :=
                 checkFlipperCollision Math_cos Math_sin b2 (leftFlipper e3) in
               let '(b4, _) :=
                 checkFlipperCollision Math_cos Math_sin b3 (rightFlipper e3) in
               let '(b5, _) := checkZoneCollisions (collisionZones e3) b4 in
               checkDrain b5)).
Proof.
  intros Hb Hact held released vx2 vy2 speed vx' vy' integrated e1 e2 e3.
  assert (Ec : capture captor b = held).
  { unfold capture, held. rewrite Hact. reflexivity. }
  assert (Er : release rvx rvy held = released) by reflexivity.
  assert (Hheld : forall k,
             ballAt ref (ticks Math_cos Math_sin k
                           (onBall ref (capture captor) e)) = Some held).
  { intros k. apply captured_frozen; [|reflexivity].
    rewrite ballAt_onBall, Hb, <- Ec. reflexivity. }
  assert (He2 : ballAt ref e2 = Some released).
  { unfold e2, e1. rewrite ballAt_onBall, Hheld, <- Er. reflexivity. }
  split; [exact Hheld|]. split; [exact He2|].
  assert (Hupd : Ball_update released = integrated).
  { unfold Ball_update, nextVelocity, released, integrated, vx', vy', speed,
      vx2, vy2, MAX_VELOCITY, GRAVITY, BALL_FRICTION.
    cbn [active captured vx vy x y id radius negb orb].
    destruct (28 <? _); reflexivity. }
  rewrite ballAt_update, He2. cbn [fmap option_fmap option_map].
  change (negb (active released) || captured released) with false.
  cbv iota. f_equal. unfold stepBall. fold e3. rewrite Hupd.
  destruct (checkFlipperCollision _ _ _ (leftFlipper e3)) as [b3 ev3].
  destruct (checkFlipperCollision _ _ b3 _) as [b4 ev4].
  destruct (checkZoneCollisions _ b4) as [b5 ev5].
  destruct (checkDrain b5) as [b6 ev6]. reflexivity.
Qed.

(** The kick of [checkFlipperCollision] is the only part that looks at the
    motion of the flipper: when [isMovingUp] is false, the outcome is that
    of a flipper standing still at the same angle, and when it is true, the
    outcome is that one with the kick impulse added. *)
Lemma kick_only_when_moving_up (b : Ball) (f : Flipper) :
  (isMovingUp f = false ->
   checkFlipperCollision Math_cos Math_sin b (Some f)
   = checkFlipperCollision Math_cos Math_sin b (Some (still f))) /\
  (isMovingUp f = true ->
   exists kx ky,
     checkFlipperCollision Math_cos Math_sin b (Some f)
     = let '(b', evs) :=
         checkFlipperCollision Math_cos Math_sin b (Some (still f)) in
       (match evs with
        | [] => b'
        | _ => applyImpulse kx ky b'
        end, evs)).
Proof.
  assert (Hstill : isMovingUp (still f) = false).
  { unfold isMovingUp, still; simpl. destruct (isLeft f); reflexivity. }
  split; intros Hup.
  - unfold checkFlipperCollision. rewrite Hup, Hstill. reflexivity.
  - unfold checkFlipperCollision. rewrite Hup, Hstill.
    cbn [getTipPosition still set_motion fx fy angle length width isLeft
         fst snd].
    eexists _, _.
    destruct (_ <? _); reflexivity.
Qed.

End Ticks.

Lemma captured_ball_frozen_until_released_witness :
  let b := Ball_new (SHOOTER_LANE_x + SHOOTER_LANE_width / 2)
             SHOOTER_LANE_y 0 in
  let held :=
    {| id := id b; x := x b; y := y b; prevX := prevX b; prevY := prevY b;
       vx := 0; vy := 0; radius := radius b;
       active := true; captured := true; capturedBy := Some "scoop" |} in
  let released :=
    {| id := id b; x := x b; y := y b; prevX := prevX b; prevY := prevY b;
       vx := 0; vy := -10; radius := radius b;
       active := true; captured := false; capturedBy := None |} in
  let vx2 := 0 * 0.998 in
  let vy2 := (-10 + 0.12) * 0.998 in
  let speed := Math_sqrt (vx2 * vx2 + vy2 * vy2) in
  let vx' := if 28 <? speed then vx2 * (28 / speed) else vx2 in
  let vy' := if 28 <? speed then vy2 * (28 / speed) else vy2 in
  let integrated :=
    {| id := id b; x := x b + vx'; y := y b + vy';
       prevX := x b; prevY := y b;
       vx := vx'; vy := vy'; radius := radius b;
       active := true; captured := false; capturedBy := None |} in
  let e1 := ticks cosApprox sinApprox 3
              (onBall 0 (capture "scoop") oneBall) in
  let e2 := onBall 0 (release 0 (-10)) e1 in
  let e3 := beforeBalls e2 in
  (forall k,
      ballAt 0 (ticks cosApprox sinApprox k
                  (onBall 0 (capture "scoop") oneBall))
      = Some held) /\
  ballAt 0 e2 = Some released /\
  ballAt 0 (fst (update cosApprox sinApprox e2))
  = Some (fst (let b2 := checkBoundaryCollision (bounds e3) integrated in
               let '(b3, _) :=
                 checkFlipperCollision cosApprox sinApprox b2 (leftFlipper e3) in
               let '(b4, _) :=
                 checkFlipperCollision cosApprox sinApprox b3 (rightFlipper e3) in
               let '(b5, _) := checkZoneCollisions (collisionZones e3) b4 in
               checkDrain b5)).
Proof.
  apply (captured_ball_frozen_until_released cosApprox sinApprox oneBall 0
           (Ball_new (SHOOTER_LANE_x + SHOOTER_LANE_width / 2)
              SHOOTER_LANE_y 0) "scoop" 3 0 (-10)).
  - reflexivity.
  - reflexivity.
Defined.

(** C5, as the specification words it, fails.  A captured ball is frozen
    for the tick only; other methods still write its velocity.  The ball of
    [oneBall] rests in the shooter lane.  Captured there, it is still the
    ball [launchBall()] finds, which gives it the velocity (-2, -12); and
    [applyImpulse(3, 4)] adds to its velocity.  In both cases the ball is
    captured and keeps that velocity, not (0,0), over the ticks that follow,
    with no [release] in between. *)
Theorem captured_ball_takes_velocity :
  ballAt 0 (ticks cosApprox sinApprox 3
              (launchBall (onBall 0 (capture "lock") oneBall)))
  = Some {| id := 0; x := 770; y := 1100; prevX := 770; prevY := 1100;
            vx := -2; vy := -12; radius := 12;
            active := true; captured := true; capturedBy := Some "lock" |} /\
  ballAt 0 (ticks cosApprox sinApprox 3
              (onBall 0 (applyImpulse 3 4)
                 (onBall 0 (capture "lock") oneBall)))
  = Some {| id := 0; x := 770; y := 1100; prevX := 770; prevY := 1100;
            vx := 3; vy := 4; radius := 12;
            active := true; captured := true; capturedBy := Some "lock" |}.
Proof. split; vm_compute; reflexivity. Qed.

(** C1 (the code departs from the claim).  [checkCircleCollision] has no
    fallback normal.  For a ball of radius 12 whose center is the center of
    [bumper_left], the distance is 0 and the normal is 0/0: position and
    velocity become NaN, and the next integration step keeps them NaN.  In
    a whole tick: the ball of [falling] lands on that center in its first
    tick, is NaN at the end of it, and is still NaN, and active, three ticks
    later.  [checkRectCollision] does fall back, yet for the zone
    [left_bank_1], whose declared normal is (1, 0), a ball centered inside
    the rectangle is pushed along (1, -1). *)
Theorem circle_center_overlap_leaves_nan :
  (let '(hit, b) := checkZoneCollision centered bumper_left in
   hit = true /\ allNaN b = true /\ allNaN (Ball_update b) = true) /\
  (forall Math_cos Math_sin : float -> float,
      (y <$> ballAt 0 falling = Some (280 - snd (nextVelocity 0 0))) /\
      (allNaN <$> ballAt 0 (ticks Math_cos Math_sin 1 falling)
       = Some true) /\
      ((fun b => allNaN b && active b)
         <$> ballAt 0 (ticks Math_cos Math_sin 4 falling) = Some true)) /\
  (let '(hit, b) := checkZoneCollision (Ball_new 80 510 0) left_bank_1 in
   hit = true /\ x b = 80 + 1 * 12 /\ y b = 510 + (-1) * 12).
Proof.
  split; [|split].
  - vm_compute. repeat split.
  - intros Math_cos Math_sin. repeat split; vm_compute; reflexivity.
  - vm_compute. repeat split.
Qed.

(** The left flipper does what is asked of a flipper: pressed at rest it
    sweeps up by [angularSpeed] per tick, [isMovingUp] all the while, lands
    on its max angle in the third tick and holds there with [isMovingUp]
    false; released, it returns by 0.6 [angularSpeed] per tick. *)
Example left_flipper_sweep :
  let f0 := press theLeftFlipper in
  let f1 := Flipper_update f0 in
  let f2 := Flipper_update f1 in
  let f3 := Flipper_update f2 in
  let f4 := Flipper_update f3 in
  let f5 := Flipper_update (Flipper_release f4) in
  (angle f1 = angle f0 + angularSpeed /\ isMovingUp f1 = true) /\
  (angle f2 = angle f1 + angularSpeed /\ isMovingUp f2 = true) /\
  (angle f3 = maxAngle f0 /\ isMovingUp f3 = true) /\
  (angle f4 = maxAngle f0 /\ isMovingUp f4 = false) /\
  (angle f5 = angle f4 + - angularSpeed * 0.6 /\ isMovingUp f5 = false).
Proof. vm_compute. repeat split. Qed.

(** C3 (the code departs from the claim).  On the right flipper the roles
    are swapped.  Pressed at rest, its next tick ends with [isMovingUp]
    false, although that tick is the whole sweep to the max angle; released
    at the max angle, its next tick ends with [isMovingUp] true, while it
    returns to rest. *)
Theorem right_flipper_moving_up_on_release :
  let pressed := Flipper_update (press theRightFlipper) in
  let released := Flipper_update (Flipper_release pressed) in
  angle theRightFlipper = restAngle theRightFlipper /\
  (angle pressed = maxAngle theRightFlipper /\
   isMovingUp pressed = false) /\
  (angle released = restAngle theRightFlipper /\
   isMovingUp released = true).
Proof. vm_compute. repeat split. Qed.

(** C4 (the code departs from the claim).  The right flipper does not move
    toward its target at a fixed angular speed.  Pressed at rest, 45 degrees
    from its max angle, it is on the max angle after one tick, with the
    angular velocity of a return, 0.6 [angularSpeed], pointing away from the
    target; released there, it is back on the rest angle after one tick,
    with the angular velocity of a strike. *)
Theorem right_flipper_snaps_in_one_tick :
  let pressed := Flipper_update (press theRightFlipper) in
  let released := Flipper_update (Flipper_release pressed) in
  (restAngle theRightFlipper - maxAngle theRightFlipper
   = FLIPPER_MAX_ANGLE * Math_PI / 180 /\
   (angularSpeed <? FLIPPER_MAX_ANGLE * Math_PI / 180) = true) /\
  (angle pressed = maxAngle theRightFlipper /\
   angularVelocity pressed = angularSpeed * 0.6) /\
  (angle released = restAngle theRightFlipper /\
   angularVelocity released = - angularSpeed).
Proof. vm_compute. repeat split. Qed.

(** [createBall] numbers a ball by the size of the array. *)
Lemma createBall_id (x0 y0 : float) (e : Engine) :
  balls (snd (createBall x0 y0 e))
  = balls e ++ [(allocated e, Ball_new x0 y0 (List.length (balls e)))].
Proof. reflexivity. Qed.

(** C9 (the code departs from the claim).  After two balls are created, the
    first is removed and a third is created, the array holds two distinct
    ball objects that both have id 1. *)
Theorem ball_id_reused_after_removal :
  map (fun rb => (fst rb, id (snd rb))) (balls afterRemoval)
  = [(1%nat, 1%nat); (2%nat, 1%nat)].
Proof. vm_compute. reflexivity. Qed.

(** ** More of the engine: balls out of play, the scoop, the plunger,
       removal, the zone table *)

(** The test of the loop of [update]: [if (!ball.active || ball.captured)
    continue;]. *)
Definition skipped (b : Ball) : bool := negb (active b) || captured b.

(** The test of [ejectCapturedBall]:
    [b.captured && b.capturedBy === captor]. *)
Definition heldBy (captor : string) (b : Ball) : bool :=
  captured b && bool_decide (capturedBy b = Some captor).

(** The test of [launchBall]. *)
Definition inShooterLane (b : Ball) : bool :=
  active b && (SHOOTER_LANE_x - 20 <? x b) && (SHOOTER_LANE_y - 50 <? y b).

(** The plunger power after [n] ticks of charging from [p]. *)
Fixpoint charge (n : nat) (p : float) : float :=
  match n with
  | O => p
  | S n' => charge n' (Math_min 1 (p + 0.02))
  end.

(** [getZoneByName(name)] and [getZoneBySwitchId(switchId)]; [None] is
    [null]. *)
Definition getZoneByName (nm : string) : option Zone :=
  List.find (fun z => bool_decide (zname z = nm)) CollisionZones.

Definition getZoneBySwitchId (sw : option nat) : option Zone :=
  List.find (fun z => bool_decide (switchId z = sw)) CollisionZones.

(** A ball let go by the scoop, after the integration and the boundary
    check of the next tick. *)
Definition ejected (power : bool) (b : Ball) : Ball :=
  checkBoundaryCollision (bounds Engine_new)
    (Ball_update (release 0 (- (if power then 15 else 10)) b)).

(** A ball held at the center of the scoop. *)
Definition inScoop (i : nat) : Ball :=
  {| id := i; x := 150; y := 550; prevX := 150; prevY := 550;
     vx := 0; vy := 0; radius := 12;
     active := true; captured := true; capturedBy := Some "scoop" |}.

(** The initialized engine with one ball, held by the scoop. *)
Definition scooped : Engine :=
  set_balls [(0%nat, inScoop 0)] (initialize Engine_new).

Lemma onFirst_split (p : Ball -> bool) (f : Ball -> Ball)
  (bs1 : list (nat * Ball)) (a : nat) (b : Ball) (bs2 : list (nat * Ball)) :
  Forall (fun rb => p (snd rb) = false) bs1 -> p b = true ->
  onFirst p f (bs1 ++ (a, b) :: bs2) = Some (bs1 ++ (a, f b) :: bs2).
Proof.
  intros H Hb. induction H as [|[a' b'] bs1 Hp _ IH]; simpl.
  - rewrite Hb. reflexivity.
  - simpl in Hp. rewrite Hp, IH. reflexivity.
Qed.

Lemma onFirst_none (p : Ball -> bool) (f : Ball -> Ball)
  (bs : list (nat * Ball)) :
  Forall (fun rb => p (snd rb) = false) bs -> onFirst p f bs = None.
Proof.
  intros H. induction H as [|[a' b'] bs Hp _ IH]; simpl; [reflexivity|].
  simpl in Hp. rewrite Hp, IH. reflexivity.
Qed.

Lemma ballAt_split (e : Engine) (bs1 : list (nat * Ball)) (a : nat)
  (b : Ball) (bs2 : list (nat * Ball)) :
  Forall (fun rb => fst rb <> a) bs1 ->
  balls e = bs1 ++ (a, b) :: bs2 -> ballAt a e = Some b.
Proof.
  intros H He. unfold ballAt. rewrite He. clear He.
  induction H as [|[a' b'] bs1 Hp _ IH]; simpl.
  - rewrite Nat.eqb_refl. reflexivity.
  - simpl in Hp. apply Nat.eqb_neq in Hp. rewrite Hp. exact IH.
Qed.

Lemma charge_add (n k : nat) : forall p, charge (n + k) p = charge k (charge n p).
Proof. induction n as [|n IH]; intros p; simpl; [reflexivity|apply IH]. Qed.

Lemma charge_full (n : nat) : (50 <= n)%nat -> charge n 0 = 1.
Proof.
  intros H. replace n with (50 + (n - 50))%nat by lia.
  rewrite charge_add.
  replace (charge 50 0) with 1%float by (vm_compute; reflexivity).
  induction (n - 50)%nat as [|k IH]; [reflexivity|]. exact IH.
Qed.

Section Play.

Variables Math_cos Math_sin : float -> float.

Lemma stepBalls_skipped (e : Engine) (bs : list (nat * Ball)) :
  Forall (fun rb => skipped (snd rb) = true) bs ->
  stepBalls Math_cos Math_sin e bs = (bs, []).
Proof.
  intros H. induction H as [|[a b] bs Hp _ IH]; simpl; [reflexivity|].
  unfold skipped in Hp. simpl in Hp. rewrite Hp, IH. reflexivity.
Qed.

Lemma update_balls_skipped (e : Engine) :
  Forall (fun rb => skipped (snd rb) = true) (balls e) ->
  balls (fst (update Math_cos Math_sin e)) = balls e /\
  snd (update Math_cos Math_sin e) = [].
Proof.
  intros H. unfold update.
  assert (Hb : balls (beforeBalls e) = balls e).
  { unfold beforeBalls. simpl. destruct (plungerCharging e); reflexivity. }
  rewrite Hb, (stepBalls_skipped (beforeBalls e) (balls e) H). simpl.
  split; reflexivity.
Qed.

(** X12.  With no ball in play, every ball drained or held, the ticks
    leave the balls alone: after any number of ticks the array holds the
    same balls, drained ones included (no tick removes a ball), the next
    tick reports nothing, not even a position, and [getActiveBalls()] is
    empty. *)
Theorem idle_table_stays_idle (e : Engine) (n : nat) :
  Forall (fun rb => skipped (snd rb) = true) (balls e) ->
  balls (ticks Math_cos Math_sin n e) = balls e /\
  snd (update Math_cos Math_sin (ticks Math_cos Math_sin n e)) = [] /\
  getActiveBalls (ticks Math_cos Math_sin n e) = [].
Proof.
  intros H.
  assert (Hn : balls (ticks Math_cos Math_sin n e) = balls e).
  { revert e H. induction n as [|n IH]; intros e H; simpl; [reflexivity|].
    destruct (update_balls_skipped e H) as [Hb _].
    rewrite IH by (rewrite Hb; exact H). exact Hb. }
  split; [exact Hn|]. split.
  - apply update_balls_skipped. rewrite Hn. exact H.
  - unfold getActiveBalls. rewrite Hn. clear Hn.
    induction H as [|[a b] bs Hp _ IH]; simpl; [reflexivity|].
    unfold skipped in Hp. simpl in Hp.
    destruct (active b), (captured b); simpl in *;
      try discriminate; exact IH.
Qed.

Lemma update_plunger (e : Engine) :
  plungerCharging (fst (update Math_cos Math_sin e)) = plungerCharging e /\
  plungerPower (fst (update Math_cos Math_sin e))
  = (if plungerCharging e then Math_min 1 (plungerPower e + 0.02)
     else plungerPower e).
Proof.
  unfold update.
  destruct (stepBalls _ _ _ _) as [bs evs]. unfold beforeBalls.
  change (plungerCharging (set_flippers _ _ e)) with (plungerCharging e).
  destruct (plungerCharging e) eqn:Hc; split; simpl; auto.
Qed.

Lemma ticks_plunger (n : nat) :
  forall e,
    plungerCharging e = true ->
    plungerCharging (ticks Math_cos Math_sin n e) = true /\
    plungerPower (ticks Math_cos Math_sin n e) = charge n (plungerPower e).
Proof.
  induction n as [|n IH]; intros e H; simpl; [auto|].
  destruct (update_plunger e) as [Hc Hp]. rewrite H in Hc, Hp.
  destruct (IH _ Hc) as [H1 H2]. rewrite H1, H2, Hp. auto.
Qed.

(** X13.  The plunger.  After [startPlungerCharge()] and 50 ticks or more
    the power is 1, whatever it was before, and stays 1.  [releasePlunger()]
    then launches the first ball of the array that is in the shooter lane
    with velocity (-2, -22), sets the power back to 0 and stops the charge.
    With no ball in the lane it only stops the charge: the power stays at 1
    and is there for the next [launchBall()]. *)
Theorem full_charge_launch (e : Engine) (n : nat) :
  (50 <= n)%nat ->
  let e1 := ticks Math_cos Math_sin n (startPlungerCharge e) in
  plungerPower e1 = 1 /\ plungerCharging e1 = true /\
  (forall bs1 a b bs2,
      balls e1 = bs1 ++ (a, b) :: bs2 ->
      Forall (fun rb => inShooterLane (snd rb) = false) bs1 ->
      inShooterLane b = true ->
      balls (releasePlunger e1) = bs1 ++ (a, set_vel (-2) (-22) b) :: bs2 /\
      plungerPower (releasePlunger e1) = 0 /\
      plungerCharging (releasePlunger e1) = false) /\
  (Forall (fun rb => inShooterLane (snd rb) = false) (balls e1) ->
   releasePlunger e1 = set_plunger 1 false e1).
Proof.
  intros Hn e1.
  destruct (ticks_plunger n (startPlungerCharge e) eq_refl) as [Hc Hp].
  fold e1 in Hc, Hp. simpl in Hp. rewrite (charge_full n Hn) in Hp.
  split; [exact Hp|]. split; [exact Hc|]. split.
  - intros bs1 a b bs2 Hb Hbefore Hin.
    unfold releasePlunger, launchBall.
    cbn [balls set_plunger plungerPower plungerCharging].
    rewrite Hb, Hp.
    rewrite (onFirst_split inShooterLane _ bs1 a b bs2 Hbefore Hin).
    cbn [balls set_plunger set_balls plungerPower plungerCharging].
    repeat split.
  - intros Hnone. unfold releasePlunger, launchBall.
    cbn [balls set_plunger plungerPower plungerCharging].
    rewrite (onFirst_none inShooterLane _ _ Hnone), Hp. reflexivity.
Qed.

Lemma stepBall_miss (e : Engine) (b : Ball) :
  let moved := checkBoundaryCollision (bounds e) (Ball_update b) in
  checkFlipperCollision Math_cos Math_sin moved (leftFlipper e)
  = (moved, []) ->
  checkFlipperCollision Math_cos Math_sin moved (rightFlipper e)
  = (moved, []) ->
  stepBall Math_cos Math_sin e b
  = let '(b5, ev5) := checkZoneCollisions (collisionZones e) moved in
    let '(b6, ev6) := checkDrain b5 in
    (b6, ev5 ++ ev6 ++ [BallPosition (id b6) (x b6) (y b6) (vx b6) (vy b6)]).
Proof.
  intros moved Hl Hr. unfold stepBall. fold moved. rewrite Hl, Hr.
  reflexivity.
Qed.

(** X14.  The scoop takes back the ball it ejects.  A ball held by the
    scoop, at its center where a capture puts it and whatever it was doing
    before, and let go by [ejectCapturedBall('scoop', power)] moves up by
    less than the 37 units at which ball and scoop touch, so on the next
    tick, if no flipper touches it, the zone check captures it again: after
    that tick, and after any number of further ticks, the ball is held at
    the center of the scoop with velocity (0,0), for both eject speeds. *)
Theorem scoop_recaptures_ejected_ball
  (e : Engine) (power : bool) (bs1 : list (nat * Ball)) (a : nat) (b : Ball)
  (bs2 : list (nat * Ball)) (n : nat) :
  collisionZones e = CollisionZones -> bounds e = bounds Engine_new ->
  balls e = bs1 ++ (a, b) :: bs2 ->
  Forall (fun rb => fst rb <> a /\ heldBy "scoop" (snd rb) = false) bs1 ->
  active b = true -> captured b = true -> capturedBy b = Some "scoop" ->
  x b = 150 -> y b = 550 -> radius b = 12 ->
  checkFlipperCollision Math_cos Math_sin (ejected power b)
    (Flipper_update <$> leftFlipper e) = (ejected power b, []) ->
  checkFlipperCollision Math_cos Math_sin (ejected power b)
    (Flipper_update <$> rightFlipper e) = (ejected power b, []) ->
  let e1 := ejectCapturedBall "scoop" power e in
  ballAt a e1 = Some (release 0 (- (if power then 15 else 10)) b) /\
  ballAt a (ticks Math_cos Math_sin (S n) e1) = Some (inScoop (id b)).
Proof.
  intros Hz Hbd Hb Hbefore Hact Hcap Hby Hx Hy Hrad Hl Hr e1.
  assert (He1 : balls e1
                = bs1 ++ (a, release 0 (- (if power then 15 else 10)) b)
                    :: bs2).
  { unfold e1, ejectCapturedBall. rewrite Hb.
    rewrite (onFirst_split (heldBy "scoop") _ bs1 a b bs2).
    - reflexivity.
    - eapply Forall_impl; [exact Hbefore|]. intros rb [_ H]. exact H.
    - unfold heldBy. rewrite Hcap, Hby. reflexivity. }
  assert (Hat : ballAt a e1
                = Some (release 0 (- (if power then 15 else 10)) b)).
  { apply (ballAt_split e1 bs1 a _ bs2); [|exact He1].
    eapply Forall_impl; [exact Hbefore|]. intros rb [H _]. exact H. }
  split; [exact Hat|].
  cbn [ticks]. apply captured_frozen; [|reflexivity].
  rewrite ballAt_update, Hat. cbn [fmap option_fmap option_map].
  change (negb (active (release 0 (- (if power then 15 else 10)) b))
          || captured (release 0 (- (if power then 15 else 10)) b))
    with (negb (active b) || false).
  rewrite Hact. cbn [negb orb]. f_equal.
  assert (Hfl : leftFlipper (beforeBalls e1)
                = Flipper_update <$> leftFlipper e /\
                rightFlipper (beforeBalls e1)
                = Flipper_update <$> rightFlipper e /\
                collisionZones (beforeBalls e1) = CollisionZones /\
                bounds (beforeBalls e1) = bounds Engine_new).
  { rewrite <- Hz, <- Hbd. unfold beforeBalls, e1, ejectCapturedBall.
    destruct (onFirst _ _ _);
      change (plungerCharging (set_flippers _ _ ?x))
        with (plungerCharging x);
      cbn [plungerCharging set_balls];
      destruct (plungerCharging e); repeat split. }
  destruct Hfl as (Hfl & Hfr & Hzs & Hbs).
  rewrite stepBall_miss; rewrite ?Hbs, ?Hfl, ?Hfr;
    fold (ejected power b); try assumption.
  rewrite Hzs. clear - Hact Hcap Hby Hx Hy Hrad.
  destruct b as [bid bx bY bpx bpy bvx bvy br bact bcap bby].
  cbn [active captured capturedBy x y radius id] in *. subst.
  destruct power; vm_compute; reflexivity.
Qed.

End Play.

Lemma idle_table_stays_idle_witness :
  balls (ticks cosApprox sinApprox 5 scooped) = balls scooped /\
  snd (update cosApprox sinApprox (ticks cosApprox sinApprox 5 scooped))
  = [] /\
  getActiveBalls (ticks cosApprox sinApprox 5 scooped) = [].
Proof.
  apply (idle_table_stays_idle cosApprox sinApprox scooped 5).
  repeat constructor.
Defined.

Lemma full_charge_launch_witness :
  let e1 := ticks cosApprox sinApprox 50 (startPlungerCharge oneBall) in
  plungerPower e1 = 1 /\ plungerCharging e1 = true /\
  (forall bs1 a b bs2,
      balls e1 = bs1 ++ (a, b) :: bs2 ->
      Forall (fun rb => inShooterLane (snd rb) = false) bs1 ->
      inShooterLane b = true ->
      balls (releasePlunger e1) = bs1 ++ (a, set_vel (-2) (-22) b) :: bs2 /\
      plungerPower (releasePlunger e1) = 0 /\
      plungerCharging (releasePlunger e1) = false) /\
  (Forall (fun rb => inShooterLane (snd rb) = false) (balls e1) ->
   releasePlunger e1 = set_plunger 1 false e1).
Proof.
  apply (full_charge_launch cosApprox sinApprox oneBall 50). lia.
Defined.

Lemma scoop_recaptures_ejected_ball_witness :
  let e1 := ejectCapturedBall "scoop" false scooped in
  ballAt 0 e1 = Some (release 0 (- 10) (inScoop 0)) /\
  ballAt 0 (ticks cosApprox sinApprox 3 e1) = Some (inScoop 0).
Proof.
  apply (scoop_recaptures_ejected_ball cosApprox sinApprox scooped false
           [] 0%nat (inScoop 0) [] 2); try reflexivity.
  constructor.
Defined.

(** X15.  [removeBall] undoes [createBall] on the array, and removing a
    ball that is not in the array changes nothing.  Only the array goes
    back: the count of objects created does not. *)
Theorem remove_undoes_create (x0 y0 : float) (e : Engine) :
  Forall (fun rb => (fst rb < allocated e)%nat) (balls e) ->
  let '(ref, e1) := createBall x0 y0 e in
  balls (removeBall ref e1) = balls e /\
  removeBall ref (removeBall ref e1) = removeBall ref e1 /\
  removeBall ref e = e /\
  ballAt ref (removeBall ref e1) = None.
Proof.
  intros H. cbn [createBall].
  assert (Hidx : forall bs tl,
             Forall (fun rb => (fst rb < allocated e)%nat) bs ->
             indexOf (allocated e) (bs ++ tl)
             = (fun i => (List.length bs + i)%nat)
                 <$> indexOf (allocated e) tl).
  { intros bs tl Hbs. induction Hbs as [|[a b] bs Hp _ IH]; simpl.
    - destruct (indexOf _ tl); reflexivity.
    - simpl in Hp. destruct (Nat.eqb_spec a (allocated e)); [lia|].
      rewrite IH. destruct (indexOf _ tl); reflexivity. }
  assert (Habs : indexOf (allocated e) (balls e) = None).
  { rewrite <- (app_nil_r (balls e)), (Hidx _ [] H). reflexivity. }
  assert (Hrm : removeBall (allocated e) e = e).
  { unfold removeBall. rewrite Habs. reflexivity. }
  assert (Hbs : forall e1 : Engine,
             balls e1 = balls e ++ [(allocated e, Ball_new x0 y0
                                        (List.length (balls e)))] ->
             balls (removeBall (allocated e) e1) = balls e).
  { intros e1 He1. unfold removeBall. rewrite He1, (Hidx _ _ H). simpl.
    rewrite Nat.eqb_refl. simpl. rewrite Nat.add_0_r.
    rewrite take_app_length, drop_ge
      by (rewrite length_app; simpl; lia).
    apply app_nil_r. }
  set (e1 := {| balls := _ |}).
  pose proof (Hbs e1 eq_refl) as Hb1.
  split; [exact Hb1|]. split; [|split; [exact Hrm|]].
  - unfold removeBall at 1. rewrite Hb1, Habs. reflexivity.
  - unfold ballAt. rewrite Hb1.
    clear -H. induction H as [|[a b] bs Hp _ IH]; simpl; [reflexivity|].
    simpl in Hp. destruct (Nat.eqb_spec a (allocated e)); [lia|exact IH].
Qed.

Lemma remove_undoes_create_witness :
  let '(ref, e1) := createBall 100 200 oneBall in
  balls (removeBall ref e1) = balls oneBall /\
  removeBall ref (removeBall ref e1) = removeBall ref e1 /\
  removeBall ref oneBall = oneBall /\
  ballAt ref (removeBall ref e1) = None.
Proof.
  apply (remove_undoes_create 100 200 oneBall).
  repeat constructor.
Defined.

Lemma find_unique_key {A K : Type} `{EqDecision K} (key : A -> K)
  (l : list A) :
  NoDup (map key l) ->
  forall z, In z l ->
    List.find (fun z' => bool_decide (key z' = key z)) l = Some z.
Proof.
  induction l as [|z0 l IH]; intros Hnd z Hin; [destruct Hin|].
  simpl in Hnd. apply NoDup_cons in Hnd. destruct Hnd as [Hnot Hnd].
  simpl. destruct Hin as [->|Hin].
  - rewrite bool_decide_eq_true_2 by reflexivity. reflexivity.
  - rewrite bool_decide_eq_false_2; [apply IH; assumption|].
    intros Heq. apply Hnot. rewrite Heq.
    apply list_elem_of_fmap. exists z. split; [reflexivity|].
    apply list_elem_of_In. exact Hin.
Qed.

Lemma find_unique_some {A K : Type} `{EqDecision K} (key : A -> option K)
  (l : list A) :
  NoDup (omap key l) ->
  forall z k, In z l -> key z = Some k ->
    List.find (fun z' => bool_decide (key z' = Some k)) l = Some z.
Proof.
  induction l as [|z0 l IH]; intros Hnd z k Hin Hk; [destruct Hin|].
  simpl. destruct Hin as [->|Hin].
  - rewrite bool_decide_eq_true_2 by exact Hk. reflexivity.
  - assert (Hmem : k ∈ omap key l).
    { apply list_elem_of_omap. exists z. split; [|exact Hk].
      apply list_elem_of_In. exact Hin. }
    simpl in Hnd. destruct (key z0) as [k0|] eqn:Hk0.
    + apply NoDup_cons in Hnd. destruct Hnd as [Hnot Hnd].
      rewrite bool_decide_eq_false_2; [apply IH; assumption|].
      intros [= ->]. contradiction.
    + rewrite bool_decide_eq_false_2 by discriminate.
      apply IH; assumption.
Qed.

(** X16.  Every zone of the table is found by its name, and every zone
    with a switch by its switch id: the names are all different, and so are
    the switch ids.  [getZoneBySwitchId(null)] is not [null]: it finds the
    first zone without a switch. *)
Theorem zone_lookups_find_every_zone (z : Zone) :
  In z CollisionZones ->
  getZoneByName (zname z) = Some z /\
  (forall sw, switchId z = Some sw -> getZoneBySwitchId (Some sw) = Some z) /\
  (zname <$> getZoneBySwitchId None) = Some "wall_upper_left".
Proof.
  intros Hin. split; [|split].
  - assert (Hnd : NoDup (map zname CollisionZones)).
    { refine (proj1 (bool_decide_eq_true _) _). vm_compute. reflexivity. }
    exact (find_unique_key zname CollisionZones Hnd z Hin).
  - intros sw Hsw.
    assert (Hnd : NoDup (omap switchId CollisionZones)).
    { refine (proj1 (bool_decide_eq_true _) _). vm_compute. reflexivity. }
    exact (find_unique_some switchId CollisionZones Hnd z sw Hin Hsw).
  - vm_compute. reflexivity.
Qed.

Lemma zone_lookups_find_every_zone_witness :
  getZoneByName (zname scoop) = Some scoop /\
  (forall sw, switchId scoop = Some sw ->
              getZoneBySwitchId (Some sw) = Some scoop) /\
  (zname <$> getZoneBySwitchId None) = Some "wall_upper_left".
Proof.
  apply (zone_lookups_find_every_zone scoop).
  unfold CollisionZones. simpl. tauto.
Defined.

(** The ball of [oneBall] moved over the drain, as [checkDrain] leaves it,
    and the engine with that ball and a new one in the shooter lane. *)
Definition downTheDrain : Ball :=
  fst (checkDrain
         (set_pos 400 1190
            (Ball_new (SHOOTER_LANE_x + SHOOTER_LANE_width / 2)
               SHOOTER_LANE_y 0))).

Definition oneDrained : Engine :=
  snd (createBallInShooter
         (onBall 0 (fun b => fst (checkDrain (set_pos 400 1190 b)))
            oneBall)).

(** X22.  A drained ball is never stepped again and never leaves the
    array: whatever the other balls do, after any number of ticks the ball
    object is as the drain left it, the array has the length it had, and
    [getActiveBalls()] does not list the ball. *)
Theorem drained_ball_is_never_stepped
  (Math_cos Math_sin : float -> float) (e : Engine) (ref : nat) (b : Ball)
  (n : nat) :
  ballAt ref e = Some b -> active b = false ->
  ballAt ref (ticks Math_cos Math_sin n e) = Some b /\
  List.length (balls (ticks Math_cos Math_sin n e))
  = List.length (balls e) /\
  ~ In (ref, b) (getActiveBalls (ticks Math_cos Math_sin n e)).
Proof.
  intros Hb Hact. split; [|split].
  - revert e Hb. induction n as [|n IH]; intros e Hb; simpl; [exact Hb|].
    apply IH. rewrite ballAt_update, Hb. simpl. rewrite Hact. reflexivity.
  - assert (Hlen : forall e', List.length (balls e')
                              = List.length (ids e')).
    { intros e'. unfold ids. rewrite length_map. reflexivity. }
    rewrite !Hlen. f_equal. clear Hb.
    revert e. induction n as [|n IH]; intros e; simpl; [reflexivity|].
    rewrite IH. apply update_ids.
  - unfold getActiveBalls. intros Hin. apply filter_In in Hin.
    destruct Hin as [_ Hin]. simpl in Hin. rewrite Hact in Hin.
    discriminate.
Qed.

Lemma drained_ball_is_never_stepped_witness :
  ballAt 0 (ticks cosApprox sinApprox 4 oneDrained) = Some downTheDrain /\
  List.length (balls (ticks cosApprox sinApprox 4 oneDrained))
  = List.length (balls oneDrained) /\
  ~ In (0%nat, downTheDrain)
      (getActiveBalls (ticks cosApprox sinApprox 4 oneDrained)).
Proof.
  apply (drained_ball_is_never_stepped cosApprox sinApprox oneDrained 0
           downTheDrain 4); reflexivity.
Defined.

End Physics.

(* ===================================================================== *)
(** * The event bus (src/core/EventBus.js) *)
(* ===================================================================== *)

Module EventBus.

Local Open Scope string_scope.

(** A listener is a JavaScript function, told apart by its identity.  A
    [Set] of listeners is the list of its members in insertion order; a
    [Map] from event names to such sets is the list of its entries in
    insertion order of the keys, each key once. *)
Definition Callbacks := list nat.
Definition Registry := list (string * Callbacks).

(** [map.get(event)] *)
Fixpoint get (event : string) (m : Registry) : option Callbacks :=
  match m with
  | [] => None
  | (k, s) :: rest => if String.eqb k event then Some s else get event rest
  end.

(** [map.has(event)] *)
Definition has (event : string) (m : Registry) : bool :=
  match get event m with
  | Some _ => true
  | None => false
  end.

(** [set.add(callback)] and [set.delete(callback)] *)
Definition add (callback : nat) (s : Callbacks) : Callbacks :=
  if existsb (Nat.eqb callback) s then s else (s ++ [callback])%list.

Definition delete (callback : nat) (s : Callbacks) : Callbacks :=
  List.filter (fun c => negb (Nat.eqb c callback)) s.

(** [f(map.get(event))] for a set that is mutated in place. *)
Fixpoint update (f : Callbacks -> Callbacks) (event : string) (m : Registry)
  : Registry :=
  match m with
  | [] => []
  | (k, s) :: rest =>
      if String.eqb k event then (k, f s) :: rest
      else (k, s) :: update f event rest
  end.

(** [if (!map.has(event)) map.set(event, new Set());
     map.get(event).add(callback);] *)
Definition subscribe (event : string) (callback : nat) (m : Registry)
  : Registry :=
  update (add callback) event
    (if has event m then m else (m ++ [(event, [])])%list).

(** [if (map.has(event)) map.get(event).delete(callback);] *)
Definition unsubscribe (event : string) (callback : nat) (m : Registry)
  : Registry :=
  if has event m then update (delete callback) event m else m.

(** [map.delete(event)] *)
Definition deleteKey (event : string) (m : Registry) : Registry :=
  List.filter (fun kv => negb (String.eqb (fst kv) event)) m.

(** The members of the set at [event], none if there is no such key. *)
Definition setOf (event : string) (m : Registry) : Callbacks :=
  default [] (get event m).

(** [pattern.includes('*')] *)
Definition star : Ascii.ascii := Ascii.ascii_of_nat 42.

Fixpoint includesStar (pattern : string) : bool :=
  match pattern with
  | EmptyString => false
  | String c rest => Ascii.eqb c star || includesStar rest
  end.

(** A stand-in for [matchWildcard] on patterns made of plain characters
    and stars: a star stands for any run of characters. *)
Fixpoint glob (pattern event : string) : bool :=
  match pattern with
  | EmptyString =>
      match event with EmptyString => true | _ => false end
  | String c pattern' =>
      if Ascii.eqb c star then
        (fix skip (e : string) : bool :=
           glob pattern' e
           || match e with
              | EmptyString => false
              | String _ e' => skip e'
              end) event
      else
        match event with
        | EmptyString => false
        | String c' event' => Ascii.eqb c c' && glob pattern' event'
        end
  end.

Section Bus.

(** The payload of an event and the value of [performance.now()]. *)
Context {Data Stamp : Type}.

(** [matchWildcard(pattern, event)], a regular-expression test, is taken
    as it comes. *)
Variable matchWildcard : string -> string -> bool.

(** The fields of an [EventBus] object. *)
Record EventBus := mkBus {
  listeners : Registry;
  onceListeners : Registry;
  eventLog : list (Stamp * string * Data);
  logEnabled : bool;
  maxLogSize : nat
}.

(** A call [callback(data, event)]. *)
Definition Call : Type := nat * Data * string.

(** [constructor()] *)
Definition new : EventBus :=
  {| listeners := []; onceListeners := []; eventLog := [];
     logEnabled := false; maxLogSize := 100 |}.

Definition set_listeners (m : Registry) (bus : EventBus) : EventBus :=
  {| listeners := m; onceListeners := onceListeners bus;
     eventLog := eventLog bus; logEnabled := logEnabled bus;
     maxLogSize := maxLogSize bus |}.

Definition set_onceListeners (m : Registry) (bus : EventBus) : EventBus :=
  {| listeners := listeners bus; onceListeners := m;
     eventLog := eventLog bus; logEnabled := logEnabled bus;
     maxLogSize := maxLogSize bus |}.

Definition set_eventLog (l : list (Stamp * string * Data)) (bus : EventBus)
  : EventBus :=
  {| listeners := listeners bus; onceListeners := onceListeners bus;
     eventLog := l; logEnabled := logEnabled bus;
     maxLogSize := maxLogSize bus |}.

(** [on(event, callback)]; the function it returns is
    [() => this.off(event, callback)]. *)
Definition on (event : string) (callback : nat) (bus : EventBus)
  : EventBus :=
  set_listeners (subscribe event callback (listeners bus)) bus.

(** [once(event, callback)] *)
Definition once (event : string) (callback : nat) (bus : EventBus)
  : EventBus :=
  set_onceListeners (subscribe event callback (onceListeners bus)) bus.

(** [off(event, callback)] *)
Definition off (event : string) (callback : nat) (bus : EventBus)
  : EventBus :=
  set_onceListeners (unsubscribe event callback (onceListeners bus))
    (set_listeners (unsubscribe event callback (listeners bus)) bus).

(** [log(event, data)] *)
Definition log (now : Stamp) (event : string) (data : Data)
  (bus : EventBus) : EventBus :=
  let l := (eventLog bus ++ [(now, event, data)])%list in
  set_eventLog (if decide (maxLogSize bus < length l) then drop 1 l else l)
    bus.

(** The listeners the last loop of [emit] calls: those of every key of
    [listeners] that has a star and matches the event, in the order of the
    keys. *)
Definition wildcards (event : string) (m : Registry) : Callbacks :=
  flat_map (fun kv => if includesStar (fst kv)
                         && matchWildcard (fst kv) event
                      then snd kv else []) m.

(** [emit(event, data)]: the bus afterwards and the calls made, in order.
    A listener that throws is caught and the loop goes on.  Listeners are
    taken not to subscribe, unsubscribe or emit while they run. *)
Definition emit (now : Stamp) (event : string) (data : Data)
  (bus : EventBus) : EventBus * list Call :=
  let bus1 := if logEnabled bus then log now event data bus else bus in
  let exact := setOf event (listeners bus1) in
  let onces := setOf event (onceListeners bus1) in
  let bus2 := if has event (onceListeners bus1)
              then set_onceListeners
                     (deleteKey event (onceListeners bus1)) bus1
              else bus1 in
  (bus2,
   map (fun callback => (callback, data, event))
     (exact ++ onces ++ wildcards event (listeners bus2))%list).


Definition clearLog (bus : EventBus) : EventBus := set_eventLog [] bus.

Definition clear (bus : EventBus) : EventBus :=
  set_onceListeners [] (set_listeners [] bus).

(** [getLog(filter)]; [None] is a call without argument, and the empty
    string is as good as none. *)
Definition getLog (filter : option string) (bus : EventBus)
  : list (Stamp * string * Data) :=
  match filter with
  | None | Some EmptyString => eventLog bus
  | Some f =>
      List.filter (fun entry => String.eqb (snd (fst entry)) f
                                || matchWildcard f (snd (fst entry)))
        (eventLog bus)
  end.

(** [listenerCount(event)] *)
Definition listenerCount (event : string) (bus : EventBus) : nat :=
  length (setOf event (listeners bus))
  + length (setOf event (onceListeners bus)).

(** ** Properties of the event bus *)

Lemma get_update (f : Callbacks -> Callbacks) (event e : string)
  (m : Registry) :
  get e (update f event m)
  = if String.eqb event e then f <$> get e m else get e m.
Proof.
  induction m as [|[k s] m IH]; simpl.
  - destruct (String.eqb event e); reflexivity.
  - destruct (String.eqb_spec k event) as [->|Hk]; simpl.
    + destruct (String.eqb event e); reflexivity.
    + destruct (String.eqb_spec k e) as [->|Hke].
      * destruct (String.eqb_spec event e) as [->|_];
          [contradiction|reflexivity].
      * exact IH.
Qed.

Lemma get_app_new (event e : string) (m : Registry) :
  get event m = None ->
  get e (m ++ [(event, [])])%list
  = if String.eqb event e then Some [] else get e m.
Proof.
  intros H. induction m as [|[k s] m IH]; simpl in *.
  - reflexivity.
  - destruct (String.eqb_spec k event) as [->|Hk]; [discriminate|].
    destruct (String.eqb_spec k e) as [->|Hke].
    + destruct (String.eqb_spec event e) as [->|_];
        [contradiction|reflexivity].
    + apply IH. exact H.
Qed.

Lemma setOf_subscribe (event e : string) (callback : nat) (m : Registry) :
  setOf e (subscribe event callback m)
  = if String.eqb event e then add callback (setOf e m) else setOf e m.
Proof.
  unfold setOf, subscribe, has. rewrite get_update.
  destruct (get event m) as [s|] eqn:Hget.
  - destruct (String.eqb_spec event e) as [<-|_]; [|reflexivity].
    rewrite Hget. reflexivity.
  - rewrite (get_app_new event e m Hget).
    destruct (String.eqb_spec event e) as [<-|_]; [|reflexivity].
    rewrite Hget. reflexivity.
Qed.

Lemma get_deleteKey (event e : string) (m : Registry) :
  get e (deleteKey event m)
  = if String.eqb event e then None else get e m.
Proof.
  induction m as [|[k s] m IH]; simpl.
  - destruct (String.eqb event e); reflexivity.
  - destruct (String.eqb_spec k event) as [->|Hk]; simpl.
    + rewrite IH. destruct (String.eqb event e); reflexivity.
    + destruct (String.eqb_spec k e) as [->|Hke].
      * destruct (String.eqb_spec event e) as [->|_];
          [contradiction|reflexivity].
      * exact IH.
Qed.

Lemma In_add (callback : nat) (s : Callbacks) : In callback (add callback s).
Proof.
  unfold add. destruct (existsb _ s) eqn:E.
  - apply existsb_exists in E. destruct E as (c & Hc & Heq).
    apply Nat.eqb_eq in Heq. subst. exact Hc.
  - apply in_or_app. right. left. reflexivity.
Qed.

Lemma add_add (callback : nat) (s : Callbacks) :
  add callback (add callback s) = add callback s.
Proof.
  unfold add at 1.
  destruct (existsb _ (add callback s)) eqn:E; [reflexivity|].
  assert (H : existsb (Nat.eqb callback) (add callback s) = true).
  { apply existsb_exists. exists callback.
    split; [apply In_add|apply Nat.eqb_refl]. }
  congruence.
Qed.

Lemma delete_absent (callback : nat) (s : Callbacks) :
  ~ In callback s -> delete callback s = s.
Proof.
  intros H. induction s as [|c s IH]; simpl; [reflexivity|].
  destruct (Nat.eqb_spec c callback) as [->|_]; simpl.
  - exfalso. apply H. left. reflexivity.
  - rewrite IH; [reflexivity|]. intros Hin. apply H. right. exact Hin.
Qed.

Lemma delete_add (callback : nat) (s : Callbacks) :
  ~ In callback s -> delete callback (add callback s) = s.
Proof.
  intros H. unfold add. destruct (existsb _ s) eqn:E.
  - apply existsb_exists in E. destruct E as (c & Hc & Heq).
    apply Nat.eqb_eq in Heq. subst. contradiction.
  - unfold delete. rewrite List.filter_app. simpl.
    rewrite Nat.eqb_refl. simpl. rewrite app_nil_r.
    apply delete_absent. exact H.
Qed.

(** What [emit] calls depends on three lists only. *)
Lemma emit_calls (now : Stamp) (event : string) (data : Data)
  (bus : EventBus) :
  snd (emit now event data bus)
  = map (fun callback => (callback, data, event))
      (setOf event (listeners bus) ++ setOf event (onceListeners bus)
       ++ wildcards event (listeners bus))%list.
Proof.
  unfold emit. cbn [snd].
  destruct (logEnabled bus); cbn [log set_eventLog listeners onceListeners];
    destruct (has event (onceListeners bus)); reflexivity.
Qed.

Lemma emit_registries (now : Stamp) (event : string) (data : Data)
  (bus : EventBus) :
  listeners (fst (emit now event data bus)) = listeners bus /\
  onceListeners (fst (emit now event data bus))
  = deleteKey event (onceListeners bus).
Proof.
  assert (Hdel : forall m, has event m = false -> deleteKey event m = m).
  { intros m. unfold has. induction m as [|[k s] m IH]; simpl;
      [reflexivity|].
    destruct (String.eqb_spec k event) as [->|Hk]; [discriminate|].
    intros H. simpl. rewrite IH by exact H. reflexivity. }
  unfold emit. cbn [fst].
  destruct (logEnabled bus); cbn [log set_eventLog listeners onceListeners];
    destruct (has event (onceListeners bus)) eqn:Hhas;
    cbn [set_onceListeners listeners onceListeners];
    rewrite ?(Hdel _ Hhas); split; reflexivity.
Qed.

(** X17.  A [once] listener is called by the next [emit] of its event and
    by no later one: the first [emit] calls it and drops the whole [once]
    set of the event; the second calls only what [on] has registered, for
    the event itself and for the patterns that match it. *)
Theorem once_listener_fires_once
  (now1 now2 : Stamp) (event : string) (d1 d2 : Data) (callback : nat)
  (bus : EventBus) :
  let bus1 := once event callback bus in
  let bus2 := fst (emit now1 event d1 bus1) in
  In (callback, d1, event) (snd (emit now1 event d1 bus1)) /\
  get event (onceListeners bus2) = None /\
  listeners bus2 = listeners bus /\
  snd (emit now2 event d2 bus2)
  = map (fun c => (c, d2, event))
      (setOf event (listeners bus) ++ wildcards event (listeners bus))%list.
Proof.
  intros bus1 bus2.
  destruct (emit_registries now1 event d1 bus1) as [Hl Ho].
  fold bus2 in Hl, Ho.
  assert (Hnone : get event (onceListeners bus2) = None).
  { rewrite Ho, get_deleteKey, String.eqb_refl. reflexivity. }
  split; [|split; [exact Hnone|split; [exact Hl|]]].
  - rewrite emit_calls. apply in_map with (f := fun c => (c, d1, event)).
    apply in_or_app. right. apply in_or_app. left.
    unfold bus1, once. cbn [onceListeners set_onceListeners].
    rewrite setOf_subscribe, String.eqb_refl. apply In_add.
  - rewrite emit_calls, Hl. unfold setOf at 2. rewrite Hnone. reflexivity.
Qed.

(** X18.  A [once] listener is looked up under the exact name of the event
    only.  Registered under any other key, a wildcard pattern that matches
    the event included, it is not called by [emit] of that event, and it
    stays registered. *)
Theorem once_ignores_wildcards
  (now : Stamp) (pattern event : string) (data : Data) (callback : nat)
  (bus : EventBus) :
  pattern <> event ->
  let bus1 := once pattern callback bus in
  snd (emit now event data bus1) = snd (emit now event data bus) /\
  In callback (setOf pattern (onceListeners (fst (emit now event data bus1)))).
Proof.
  intros Hne bus1. apply String.eqb_neq in Hne. split.
  - rewrite !emit_calls. unfold bus1, once.
    cbn [listeners onceListeners set_onceListeners].
    rewrite setOf_subscribe, Hne. reflexivity.
  - destruct (emit_registries now event data bus1) as [_ ->].
    unfold setOf. rewrite get_deleteKey.
    rewrite String.eqb_sym, Hne.
    fold (setOf pattern (onceListeners bus1)).
    unfold bus1, once. cbn [onceListeners set_onceListeners].
    rewrite setOf_subscribe, String.eqb_refl. apply In_add.
Qed.

Lemma update_update (f g : Callbacks -> Callbacks) (event : string)
  (m : Registry) :
  update f event (update g event m) = update (fun s => f (g s)) event m.
Proof.
  induction m as [|[k s] m IH]; simpl; [reflexivity|].
  destruct (String.eqb k event) eqn:Hk; simpl; rewrite Hk.
  - reflexivity.
  - rewrite IH. reflexivity.
Qed.

Lemma update_same (f : Callbacks -> Callbacks) (event : string)
  (m : Registry) :
  f (setOf event m) = setOf event m -> update f event m = m.
Proof.
  unfold setOf. induction m as [|[k s] m IH]; simpl; [reflexivity|].
  destruct (String.eqb k event); simpl; intros H.
  - rewrite H. reflexivity.
  - rewrite IH by exact H. reflexivity.
Qed.

Lemma update_agree (f g : Callbacks -> Callbacks) (event : string)
  (m : Registry) :
  f (setOf event m) = g (setOf event m) ->
  update f event m = update g event m.
Proof.
  unfold setOf. induction m as [|[k s] m IH]; simpl; [reflexivity|].
  destruct (String.eqb k event); simpl; intros H.
  - rewrite H. reflexivity.
  - rewrite IH by exact H. reflexivity.
Qed.

Lemma has_subscribe (event : string) (callback : nat) (m : Registry) :
  has event (subscribe event callback m) = true.
Proof.
  unfold has, subscribe. rewrite get_update, String.eqb_refl.
  unfold has. destruct (get event m) as [s|] eqn:Hget.
  - rewrite Hget. reflexivity.
  - rewrite (get_app_new event event m Hget), String.eqb_refl. reflexivity.
Qed.

(** Subscribing and then unsubscribing a listener that was not there
    gives the registry back, but for an empty set under a new key. *)
Lemma unsubscribe_subscribe (event : string) (callback : nat)
  (m : Registry) :
  ~ In callback (setOf event m) ->
  unsubscribe event callback (subscribe event callback m)
  = if has event m then m else (m ++ [(event, [])])%list.
Proof.
  intros Hnot. unfold unsubscribe. rewrite has_subscribe.
  unfold subscribe. rewrite update_update. apply update_same.
  assert (Hset : setOf event
                   (if has event m then m else (m ++ [(event, [])])%list)
                 = setOf event m).
  { unfold has, setOf. destruct (get event m) as [s|] eqn:Hget.
    - rewrite Hget. reflexivity.
    - rewrite (get_app_new event event m Hget), String.eqb_refl.
      reflexivity. }
  rewrite Hset. apply delete_add. exact Hnot.
Qed.

Lemma setOf_padded (event e : string) (m : Registry) :
  setOf e (if has event m then m else (m ++ [(event, [])])%list)
  = setOf e m.
Proof.
  unfold has, setOf. destruct (get event m) as [s|] eqn:Hget;
    [reflexivity|].
  rewrite (get_app_new event e m Hget).
  destruct (String.eqb_spec event e) as [<-|_]; [|reflexivity].
  rewrite Hget. reflexivity.
Qed.

Lemma wildcards_padded (event e : string) (m : Registry) :
  wildcards e (if has event m then m else (m ++ [(event, [])])%list)
  = wildcards e m.
Proof.
  destruct (has event m); [reflexivity|].
  unfold wildcards. rewrite flat_map_app. simpl.
  destruct (_ && _); simpl; rewrite app_nil_r; reflexivity.
Qed.

(** X19.  Listeners of an event are a set, and the function [on] returns
    undoes it.  Registering a listener twice is registering it once.  For
    a listener that was registered neither by [on] nor by [once] for the
    event, [off] after [on] leaves a bus that calls, for every event, what
    the bus before called and counts the same listeners; and [off] alone
    changes nothing. *)
Theorem off_undoes_on
  (event : string) (callback : nat) (bus : EventBus)
  (now : Stamp) (e : string) (data : Data) :
  ~ In callback (setOf event (listeners bus)) ->
  ~ In callback (setOf event (onceListeners bus)) ->
  let bus' := off event callback (on event callback bus) in
  on event callback (on event callback bus) = on event callback bus /\
  snd (emit now e data bus') = snd (emit now e data bus) /\
  listenerCount e bus' = listenerCount e bus /\
  off event callback bus = bus /\
  In (callback, data, event)
    (snd (emit now event data (on event callback bus))).
Proof.
  intros Hl Ho bus'.
  assert (Hoff : forall m, ~ In callback (setOf event m) ->
                           unsubscribe event callback m = m).
  { intros m Hm. unfold unsubscribe. destruct (has event m); [|reflexivity].
    apply update_same. apply delete_absent. exact Hm. }
  assert (Hls : listeners bus'
                = if has event (listeners bus) then listeners bus
                  else (listeners bus ++ [(event, [])])%list).
  { unfold bus', off, on.
    cbn [listeners onceListeners set_listeners set_onceListeners].
    apply unsubscribe_subscribe. exact Hl. }
  assert (Hos : onceListeners bus' = onceListeners bus).
  { unfold bus', off, on.
    cbn [listeners onceListeners set_listeners set_onceListeners].
    apply Hoff. exact Ho. }
  split; [|split; [|split; [|split]]].
  - unfold on, set_listeners.
    cbn [listeners onceListeners eventLog logEnabled maxLogSize].
    f_equal. unfold subscribe at 1. rewrite has_subscribe.
    unfold subscribe. rewrite update_update. apply update_agree.
    apply add_add.
  - rewrite !emit_calls, Hls, Hos, setOf_padded, wildcards_padded.
    reflexivity.
  - unfold listenerCount. rewrite Hls, Hos, setOf_padded. reflexivity.
  - unfold off. rewrite (Hoff _ Hl).
    cbn [listeners onceListeners set_listeners set_onceListeners].
    rewrite (Hoff _ Ho). destruct bus. reflexivity.
  - rewrite emit_calls. apply in_map with (f := fun c => (c, data, event)).
    apply in_or_app. left. unfold on. cbn [listeners set_listeners].
    rewrite setOf_subscribe, String.eqb_refl. apply In_add.
Qed.


End Bus.

(** A bus with a listener for one event and a listener for a pattern. *)
Definition demo : @EventBus nat nat :=
  on "switch.*" 1 (on "switch.activated" 2 new).

Lemma once_ignores_wildcards_witness :
  let bus1 := once "switch.*" 7 demo in
  snd (emit glob 0 "switch.activated" 5 bus1)
  = snd (emit glob 0 "switch.activated" 5 demo) /\
  In 7 (setOf "switch.*"
          (onceListeners (fst (emit glob 0 "switch.activated" 5 bus1)))).
Proof.
  apply (once_ignores_wildcards glob 0 "switch.*" "switch.activated" 5 7
           demo).
  discriminate.
Defined.

Lemma off_undoes_on_witness :
  let bus' := off "switch.activated" 3 (on "switch.activated" 3 demo) in
  on "switch.activated" 3 (on "switch.activated" 3 demo)
  = on "switch.activated" 3 demo /\
  snd (emit glob 0 "switch.activated" 5 bus')
  = snd (emit glob 0 "switch.activated" 5 demo) /\
  listenerCount "switch.activated" bus'
  = listenerCount "switch.activated" demo /\
  off "switch.activated" 3 demo = demo /\
  In (3, 5, "switch.activated")
    (snd (emit glob 0 "switch.activated" 5
            (on "switch.activated" 3 demo))).
Proof.
  apply (off_undoes_on glob "switch.activated" 3 demo 0
           "switch.activated" 5); vm_compute; intuition discriminate.
Defined.


End EventBus.
